(** * text-diff-tool: the diff engine of [core.ts]

    A shallow embedding of the comparison engine (normalizer, tokenizer,
    LCS aligner, classifier, semantic scorer, merge generator, character
    diff and streaming coordinator) and of the utilities built on it
    (change navigation, insights, summary, text analysis), together with
    the properties stated about them.

    Data model.
    - A JavaScript string is the list of its UTF-16 code units ([list N]).
    - A JavaScript number that holds a count or an index is a [nat]; the
      numbers that are genuinely fractional (similarity, threshold,
      progress) are IEEE-754 binary64 values ([PrimFloat.float]), which is
      what the engine computes with.
    - [String.prototype.toLowerCase] is the host's Unicode case mapping; it
      is a parameter of the development ([toLowerCase], a Section
      variable), instantiated with [asciiToLowerCase] for closed examples.
    - Arrays are lists; [Set] is a duplicate-free list in insertion order;
      [Map<number, _>] is a [gmap nat _].
    - An index handed to the navigation functions by the caller is an
      integer ([Z]): it may be negative or past the end, and a call is
      then an [Outcome], a value or the TypeError of reading a property of
      [undefined]. *)

From Stdlib Require Import ZArith NArith Lia.
From Stdlib Require Import Strings.String Strings.Ascii.
From Stdlib Require Import Floats.PrimFloat Floats.SpecFloat Floats.FloatAxioms.
From Stdlib Require Import Floats.FloatOps Sorting.Sorted.
From Stdlib Require Import Numbers.Cyclic.Int63.Uint63.
From stdpp Require Import gmap list pretty.

Set Warnings "-inexact-float".
Set Default Proof Using "Type".

(* ====================================================================== *)
(** * Strings and character classes                                        *)
(* ====================================================================== *)

Abbreviation jsstring := (list N).

(** A string literal of the source, as code units. *)
Definition js (s : string) : jsstring :=
  List.map N_of_ascii (list_ascii_of_string s).

(** [\s] of an ECMAScript regular expression (WhiteSpace and
    LineTerminator); [String.prototype.trim] strips the same set. *)
Definition isWhiteSpace (c : N) : bool :=
  ((9 <=? c) && (c <=? 13) || (c =? 32) || (c =? 160) || (c =? 5760)
   || (8192 <=? c) && (c <=? 8202) || (c =? 8232) || (c =? 8233)
   || (c =? 8239) || (c =? 8287) || (c =? 12288) || (c =? 65279))%N.

(** [\w] of an ECMAScript regular expression: [A-Za-z0-9_]. *)
Definition isWordChar (c : N) : bool :=
  ((48 <=? c) && (c <=? 57) || (65 <=? c) && (c <=? 90) || (c =? 95)
   || (97 <=? c) && (c <=? 122))%N.

(** The class [[.!?]]. *)
Definition isTerminal (c : N) : bool :=
  ((c =? 46) || (c =? 33) || (c =? 63))%N.

Definition LF : N := 10%N.
Definition CR : N := 13%N.
Definition SPACE : N := 32%N.

(** The longest prefix whose units satisfy [p], and what follows it. *)
Fixpoint spanLen (p : N -> bool) (s : jsstring) : nat :=
  match s with
  | c :: s' => if p c then S (spanLen p s') else 0
  | [] => 0
  end.

Definition trimStart (s : jsstring) : jsstring :=
  drop (spanLen isWhiteSpace s) s.

Definition trimEnd (s : jsstring) : jsstring :=
  rev (trimStart (rev s)).

(** [s.trim()] *)
Definition trim (s : jsstring) : jsstring := trimEnd (trimStart s).

(** [s.replace(/\s+/g, ' ')]: [inRun] tells that the previous unit was
    white space, already replaced. *)
Fixpoint replaceWsRuns (inRun : bool) (s : jsstring) : jsstring :=
  match s with
  | [] => []
  | c :: s' =>
      if isWhiteSpace c
      then (if inRun then replaceWsRuns true s'
            else SPACE :: replaceWsRuns true s')
      else c :: replaceWsRuns false s'
  end.

(** [arr.join(sep)] *)
Fixpoint join (sep : jsstring) (parts : list jsstring) : jsstring :=
  match parts with
  | [] => []
  | [x] => x
  | x :: rest => x ++ sep ++ join sep rest
  end.

(** [a === b] on strings, and on array reads that may be [undefined]
    ([None]). *)
Definition strictEq {A} `{EqDecision A} (a b : A) : bool :=
  bool_decide (a = b).

(** Lower-casing of the Basic Latin block: what [toLowerCase] does on
    ASCII text.  Used to run the engine on closed examples. *)
Definition asciiToLowerCase (s : jsstring) : jsstring :=
  List.map (fun c => if (65 <=? c)%N && (c <=? 90)%N then (c + 32)%N else c) s.

(* ====================================================================== *)
(** * [String.prototype.split] with a regular expression                   *)
(* ====================================================================== *)

(** A pattern is given by its matcher at a position: [m rest] is the
    length of the match that starts at the head of [rest], if there is
    one.  None of the engine's patterns matches the empty string, so a
    match always advances; a length of zero is read as no match. *)
Definition matcher := jsstring -> option nat.

(** [/\r?\n/] *)
Definition matchLineBreak : matcher := fun s =>
  match s with
  | c :: d :: _ =>
      if (c =? CR)%N && (d =? LF)%N then Some 2
      else if (c =? LF)%N then Some 1 else None
  | c :: _ => if (c =? LF)%N then Some 1 else None
  | [] => None
  end.

(** [/(\s+)/] *)
Definition matchWsRun : matcher := fun s =>
  match spanLen isWhiteSpace s with
  | 0 => None
  | n => Some n
  end.

(** [/([.!?]+[\s\n]+)/]: the greedy run of terminal punctuation must be
    followed by white space; giving back punctuation cannot help, since
    the unit after a shorter run is punctuation. *)
Definition matchSentenceEnd : matcher := fun s =>
  match spanLen isTerminal s with
  | 0 => None
  | p =>
      match spanLen isWhiteSpace (drop p s) with
      | 0 => None
      | w => Some (p + w)
      end
  end.

(** Position of the last line feed in [w], counted from 0. *)
Fixpoint lastLF (w : jsstring) : option nat :=
  match w with
  | [] => None
  | c :: w' =>
      match lastLF w' with
      | Some k => Some (S k)
      | None => if (c =? LF)%N then Some 0 else None
      end
  end.

(** [/\n\s*\n/]: a line feed, then the greedy [\s*] backtracks to the
    last line feed of the white-space run that follows. *)
Definition matchBlankLine : matcher := fun s =>
  match s with
  | c :: s' =>
      if (c =? LF)%N
      then match lastLF (take (spanLen isWhiteSpace s') s') with
           | Some k => Some (S (S k))
           | None => None
           end
      else None
  | [] => None
  end.

(** The scan of [split]: [cur] holds, reversed, the units of the segment
    being collected (from the end of the last match to the position
    tried), [rest] the text from that position on.  [capture] tells that
    the pattern is wrapped in a capturing group, whose text is spliced
    into the result.  Each round consumes at least one unit of [rest], so
    [length rest] rounds are enough. *)
Fixpoint splitLoop (m : matcher) (capture : bool) (fuel : nat)
    (cur rest : jsstring) : list jsstring :=
  match rest with
  | [] => [rev cur]
  | c :: rest' =>
      match fuel with
      | 0 => [rev cur ++ rest]
      | S fuel' =>
          match m rest with
          | Some (S n) =>
              rev cur
                :: (if capture then [take (S n) rest] else [])
                ++ splitLoop m capture fuel' [] (drop (S n) rest)
          | _ => splitLoop m capture fuel' (c :: cur) rest'
          end
      end
  end.

(** [text.split(pattern)].  On the empty text the result is [[""]], as
    the pattern does not match the empty string. *)
Definition split (m : matcher) (capture : bool) (text : jsstring)
    : list jsstring :=
  splitLoop m capture (length text) [] text.

(** [text.split('')]: one string per code unit. *)
Definition splitChars (text : jsstring) : list jsstring :=
  List.map (fun c => [c]) text.

(* ====================================================================== *)
(** * Tokenizer                                                            *)
(* ====================================================================== *)

Inductive Granularity := line | word | character | sentence | paragraph.

#[global] Instance Granularity_eq_dec : EqDecision Granularity.
Proof. solve_decision. Defined.

Definition nonEmpty (s : jsstring) : bool := 0 <? length s.

(** [tokenize(text, granularity)] *)
Definition tokenize (text : jsstring) (granularity : Granularity)
    : list jsstring :=
  match granularity with
  | line => split matchLineBreak false text
  | word => List.filter nonEmpty (split matchWsRun true text)
  | character => splitChars text
  | sentence =>
      List.filter (fun s => nonEmpty (trim s)) (split matchSentenceEnd true text)
  | paragraph =>
      List.filter (fun p => nonEmpty (trim p)) (split matchBlankLine false text)
  end.

(* ====================================================================== *)
(** * Word extraction and [Set]                                            *)
(* ====================================================================== *)

(** The maximal runs of units satisfying [p], left to right; [cur] holds
    the run being read, reversed. *)
Fixpoint runsOf (p : N -> bool) (cur s : jsstring) : list jsstring :=
  match s with
  | [] => match cur with [] => [] | _ => [rev cur] end
  | c :: s' =>
      if p c then runsOf p (c :: cur) s'
      else match cur with
           | [] => runsOf p [] s'
           | _ => rev cur :: runsOf p [] s'
           end
  end.

(** [text.match(/\b\w+\b/g) || []] *)
Definition matchWords (text : jsstring) : list jsstring :=
  runsOf isWordChar [] text.

(** [new Set(items)]: the distinct items, in order of first insertion. *)
Definition setAdd (acc : list jsstring) (w : jsstring) : list jsstring :=
  if bool_decide (w ∈ acc) then acc else acc ++ [w].

Definition newSet (items : list jsstring) : list jsstring :=
  foldl setAdd [] items.

(** [s.has(w)] *)
Definition has (s : list jsstring) (w : jsstring) : bool :=
  bool_decide (w ∈ s).

(* ====================================================================== *)
(** * Numbers                                                              *)
(* ====================================================================== *)

(** A count as a JavaScript number (exact below 2^53). *)
Definition num (n : nat) : float :=
  PrimFloat.of_uint63 (Uint63.of_Z (Z.of_nat n)).

(** [Math.round(x)] for [0 <= x <= 100], the range of [similarity * 100]:
    the number of [n] in [0, 100) with [n + 0.5 <= x]. *)
Definition Math_round (x : float) : nat :=
  length (List.filter (fun n => (num n + 0.5 <=? x)%float) (seq 0 100)).

(* ====================================================================== *)
(** * Aligner: longest common subsequence                                  *)
(* ====================================================================== *)

Section LCS.
Context {T : Type} `{EqDecision T}.

(** [Array(m + 1).fill(null).map(() => Array(n + 1).fill(0))] *)
Definition dpInit (m n : nat) : list (list nat) :=
  replicate (m + 1) (replicate (n + 1) 0).

(** [dp[i][j]] *)
Definition dpGet (dp : list (list nat)) (i j : nat) : nat :=
  default 0 (dp !! i ≫= (.!! j)).

(** [dp[i][j] = v] *)
Definition dpSet (dp : list (list nat)) (i j v : nat) : list (list nat) :=
  match dp !! i with
  | Some row => <[i := <[j := v]> row]> dp
  | None => dp
  end.

(** The body of the inner [for] loop. *)
Definition dpCell (arr1 arr2 : list T) (dp : list (list nat)) (i j : nat)
    : list (list nat) :=
  if strictEq (arr1 !! (i - 1)) (arr2 !! (j - 1))
  then dpSet dp i j (dpGet dp (i - 1) (j - 1) + 1)
  else dpSet dp i j (Nat.max (dpGet dp (i - 1) j) (dpGet dp i (j - 1))).

(** The two nested [for] loops, [i] from 1 to [m], [j] from 1 to [n]. *)
Definition dpFill (arr1 arr2 : list T) : list (list nat) :=
  let m := length arr1 in
  let n := length arr2 in
  foldl (fun dp i => foldl (fun dp j => dpCell arr1 arr2 dp i j) dp (seq 1 n))
        (dpInit m n) (seq 1 m).

(** State of the backtrack: the pointers [i] (original side), [j]
    (modified side) and the [result] built so far. *)
Record Backtrack := { bt_i : nat; bt_j : nat; bt_result : list T }.

(** One round of [while (i > 0 && j > 0)]. *)
Definition backtrackStep (arr1 arr2 : list T) (dp : list (list nat))
    (st : Backtrack) : Backtrack :=
  let i := bt_i st in
  let j := bt_j st in
  if strictEq (arr1 !! (i - 1)) (arr2 !! (j - 1))
  then {| bt_i := i - 1; bt_j := j - 1;
          bt_result := match arr1 !! (i - 1) with
                       | Some x => x :: bt_result st
                       | None => bt_result st
                       end |}
  else if dpGet dp i (j - 1) <? dpGet dp (i - 1) j
  then {| bt_i := i - 1; bt_j := j; bt_result := bt_result st |}
  else {| bt_i := i; bt_j := j - 1; bt_result := bt_result st |}.

(** The [while] loop; every round lowers [i + j], so [i + j] rounds are
    enough. *)
Fixpoint backtrackLoop (arr1 arr2 : list T) (dp : list (list nat))
    (fuel : nat) (st : Backtrack) : Backtrack :=
  match fuel with
  | 0 => st
  | S fuel' =>
      if (0 <? bt_i st) && (0 <? bt_j st)
      then backtrackLoop arr1 arr2 dp fuel' (backtrackStep arr1 arr2 dp st)
      else st
  end.

(** [lcs(arr1, arr2)] *)
Definition lcs (arr1 arr2 : list T) : list T :=
  let m := length arr1 in
  let n := length arr2 in
  let dp := dpFill arr1 arr2 in
  bt_result
    (backtrackLoop arr1 arr2 dp (m + n)
       {| bt_i := m; bt_j := n; bt_result := [] |}).
End LCS.

(* ====================================================================== *)
(** * Types of the engine                                                  *)
(* ====================================================================== *)

Inductive ChangeType := Added | Removed | Modified | Unchanged.

#[global] Instance ChangeType_eq_dec : EqDecision ChangeType.
Proof. solve_decision. Defined.

Record KeyWords := { kw_added : list jsstring; kw_removed : list jsstring }.

Record DiffChange := {
  type : ChangeType;
  original : option jsstring;
  modified : option jsstring;
  originalLine : option nat;
  modifiedLine : option nat;
  similarity : option float;
  explanation : option jsstring;
  keyWords : option KeyWords;
}.

Record Stats := {
  stat_added : nat;
  stat_removed : nat;
  stat_modified : nat;
  stat_unchanged : nat;
}.

Record DiffResult := { changes : list DiffChange; stats : Stats }.

(** Every field is optional in the source; [None] is an absent key. *)
Record DiffOptions := {
  granularity : option Granularity;
  ignoreWhitespace : option bool;
  ignoreCase : option bool;
  semanticAnalysis : option bool;
  similarityThreshold : option float;
}.

(** The four [changes.filter(c => c.type === ...).length]. *)
Definition countType (t : ChangeType) (cs : list DiffChange) : nat :=
  length (filter (fun c => type c = t) cs).

Definition computeStats (cs : list DiffChange) : Stats :=
  {| stat_added := countType Added cs;
     stat_removed := countType Removed cs;
     stat_modified := countType Modified cs;
     stat_unchanged := countType Unchanged cs |}.

Definition truthy (b : option bool) : bool := default false b.

(** [granularity = 'line'], [ignoreWhitespace = false],
    [ignoreCase = false]: the defaults of the destructuring in [diff]. *)
Definition granularityOf (o : DiffOptions) : Granularity :=
  default line (granularity o).

(** [options.similarityThreshold || 0.5]: an absent, zero or NaN
    threshold is falsy and gives 0.5. *)
Definition thresholdOf (o : DiffOptions) : float :=
  match similarityThreshold o with
  | Some t => if PrimFloat.is_zero t || PrimFloat.is_nan t then 0.5%float else t
  | None => 0.5%float
  end.

(** The quotation mark of the explanation template. *)
Definition QUOTE : N := 34%N.

(* ====================================================================== *)
(** * Normalizer, semantic scorer and classifier                           *)
(* ====================================================================== *)

(** State of the classifier's [while] loop. *)
Record Walk := {
  w_i : nat;
  w_j : nat;
  w_k : nat;
  w_originalLine : nat;
  w_modifiedLine : nat;
  w_changes : list DiffChange;
}.

(** An event of [streamDiff]. *)
Record StreamEvent := {
  progress : float;
  partial : option DiffResult;
  complete : bool;
}.

(** What consuming the generator gives: the events it yields, or the
    exception of its first step. *)
Inductive StreamOutcome :=
| Yields (events : list StreamEvent)
| Throws.

(** [Math.min(a, b)] *)
Definition Math_min (a b : float) : float :=
  if PrimFloat.is_nan a || PrimFloat.is_nan b then PrimFloat.nan
  else if (b <? a)%float then b else a.

(** The scan of [.{1,chunkSize}] with the flags [gs]: pieces of
    [chunkSize] units, the last one possibly shorter. *)
Fixpoint chunksLoop (chunkSize fuel : nat) (s : jsstring) : list jsstring :=
  match s with
  | [] => []
  | _ :: _ =>
      match fuel with
      | 0 => [s]
      | S fuel' =>
          take chunkSize s :: chunksLoop chunkSize fuel' (drop chunkSize s)
      end
  end.

(** [text.match(new RegExp(`.{1,${chunkSize}}`, 'gs')) || [text]], for
    [chunkSize >= 1]; on the empty text [match] gives [null]. *)
Definition chunksOf (chunkSize : nat) (text : jsstring) : list jsstring :=
  match text with
  | [] => [text]
  | _ => chunksLoop chunkSize (length text) text
  end.

Section Engine.
(** [String.prototype.toLowerCase] of the host. *)
Variable toLowerCase : jsstring -> jsstring.

(** [normalize(text, options)] *)
Definition normalize (text : jsstring) (ignoreWs ignoreCs : bool) : jsstring :=
  let normalized := text in
  let normalized :=
    if ignoreWs then trim (replaceWsRuns false normalized) else normalized in
  let normalized :=
    if ignoreCs then toLowerCase normalized else normalized in
  normalized.

(** [computeSemanticSimilarity(text1, text2)] *)
Definition computeSemanticSimilarity (text1 text2 : jsstring) : float :=
  let words1 := newSet (matchWords (toLowerCase text1)) in
  let words2 := newSet (matchWords (toLowerCase text2)) in
  if (length words1 =? 0) && (length words2 =? 0) then 1%float
  else if (length words1 =? 0) || (length words2 =? 0) then 0%float
  else
    let intersection := newSet (List.filter (has words2) words1) in
    let union := newSet (words1 ++ words2) in
    let jaccard := (num (length intersection) / num (length union))%float in
    let lengthRatio :=
      (num (Nat.min (length text1) (length text2))
       / num (Nat.max (length text1) (length text2)))%float in
    (jaccard * 0.7 + lengthRatio * 0.3)%float.

(** The words longer than 3 units of a text, as a [Set]. *)
Definition longWords (text : jsstring) : list jsstring :=
  newSet (List.filter (fun w => 3 <? length w) (matchWords (toLowerCase text))).

(** The explanation of a modified pair. *)
Definition explain (threshold sim : float)
    (addedWords removedWords : list jsstring) : jsstring :=
  if (threshold <? sim)%float
  then trim (js "Reworded with " ++ js (pretty (Math_round (sim * 100)%float))
             ++ js "% similarity. Key changes: "
             ++ match addedWords with
                | w :: _ => js "added " ++ [QUOTE] ++ w ++ [QUOTE]
                | [] => []
                end
             ++ js " "
             ++ match removedWords with
                | w :: _ => js "removed " ++ [QUOTE] ++ w ++ [QUOTE]
                | [] => []
                end)
  else js "Significantly modified. New focus: "
       ++ join (js ", ") (take 2 addedWords).

Section Classifier.
Variable options : DiffOptions.
Variables tokens1 tokens2 normalized1 normalized2 common : list jsstring.

(** [granularity === 'line' ? n : undefined] *)
Definition lineNo (n : nat) : option nat :=
  if decide (granularityOf options = line) then Some n else None.

(** [if (granularity === 'line') { n++ }] *)
Definition nextLine (n : nat) : nat :=
  if decide (granularityOf options = line) then S n else n.

(** The record pushed by the last branch. *)
Definition modifiedChange (i j originalLine modifiedLine : nat) : DiffChange :=
  let origText := tokens1 !!! i in
  let modText := tokens2 !!! j in
  if truthy (semanticAnalysis options)
  then
    let sim := computeSemanticSimilarity origText modText in
    let origWords := longWords origText in
    let modWords := longWords modText in
    let addedWords := List.filter (fun w => negb (has origWords w)) modWords in
    let removedWords := List.filter (fun w => negb (has modWords w)) origWords in
    {| type := Modified;
       original := tokens1 !! i;
       modified := tokens2 !! j;
       originalLine := lineNo originalLine;
       modifiedLine := lineNo modifiedLine;
       similarity := Some sim;
       explanation :=
         Some (explain (thresholdOf options) sim addedWords removedWords);
       keyWords := Some {| kw_added := take 5 addedWords;
                           kw_removed := take 5 removedWords |} |}
  else
    {| type := Modified;
       original := tokens1 !! i;
       modified := tokens2 !! j;
       originalLine := lineNo originalLine;
       modifiedLine := lineNo modifiedLine;
       similarity := None; explanation := None; keyWords := None |}.

Definition removedChange (i originalLine : nat) : DiffChange :=
  {| type := Removed;
     original := tokens1 !! i; modified := None;
     originalLine := lineNo originalLine; modifiedLine := None;
     similarity := None; explanation := None; keyWords := None |}.

Definition addedChange (j modifiedLine : nat) : DiffChange :=
  {| type := Added;
     original := None; modified := tokens2 !! j;
     originalLine := None; modifiedLine := lineNo modifiedLine;
     similarity := None; explanation := None; keyWords := None |}.

Definition unchangedChange (i j originalLine modifiedLine : nat) : DiffChange :=
  {| type := Unchanged;
     original := tokens1 !! i; modified := tokens2 !! j;
     originalLine := lineNo originalLine;
     modifiedLine := lineNo modifiedLine;
     similarity := None; explanation := None; keyWords := None |}.

(** The loop condition [i < tokens1.length || j < tokens2.length]. *)
Definition walking (st : Walk) : bool :=
  (w_i st <? length tokens1) || (w_j st <? length tokens2).

(** One round of the classifier's loop. *)
Definition diffStep (st : Walk) : Walk :=
  let i := w_i st in
  let j := w_j st in
  let k := w_k st in
  let ol := w_originalLine st in
  let ml := w_modifiedLine st in
  let push c := w_changes st ++ [c] in
  if (i <? length tokens1) && (j <? length tokens2) then
    let norm1 := normalized1 !! i in
    let norm2 := normalized2 !! j in
    if strictEq norm1 norm2 && (k <? length common)
       && strictEq norm1 (common !! k)
    then {| w_i := S i; w_j := S j; w_k := S k;
            w_originalLine := nextLine ol; w_modifiedLine := nextLine ml;
            w_changes := push (unchangedChange i j ol ml) |}
    else if (k <? length common) && strictEq norm1 (common !! k)
    then {| w_i := i; w_j := S j; w_k := k;
            w_originalLine := ol; w_modifiedLine := nextLine ml;
            w_changes := push (addedChange j ml) |}
    else if (k <? length common) && strictEq norm2 (common !! k)
    then {| w_i := S i; w_j := j; w_k := k;
            w_originalLine := nextLine ol; w_modifiedLine := ml;
            w_changes := push (removedChange i ol) |}
    else {| w_i := S i; w_j := S j; w_k := k;
            w_originalLine := nextLine ol; w_modifiedLine := nextLine ml;
            w_changes := push (modifiedChange i j ol ml) |}
  else if i <? length tokens1 then
    {| w_i := S i; w_j := j; w_k := k;
       w_originalLine := nextLine ol; w_modifiedLine := ml;
       w_changes := push (removedChange i ol) |}
  else if j <? length tokens2 then
    {| w_i := i; w_j := S j; w_k := k;
       w_originalLine := ol; w_modifiedLine := nextLine ml;
       w_changes := push (addedChange j ml) |}
  else st.

(** The [while] loop.  Every round advances [i] or [j], so
    [tokens1.length + tokens2.length] rounds are enough
    ([diffLoop_exits]). *)
Fixpoint diffLoop (fuel : nat) (st : Walk) : Walk :=
  match fuel with
  | 0 => st
  | S fuel' => if walking st then diffLoop fuel' (diffStep st) else st
  end.
End Classifier.

Definition walkStart : Walk :=
  {| w_i := 0; w_j := 0; w_k := 0;
     w_originalLine := 1; w_modifiedLine := 1; w_changes := [] |}.

(** [diff(original, modified, options)] *)
Definition diff (original modified : jsstring) (options : DiffOptions)
    : DiffResult :=
  let granularity := granularityOf options in
  let ignoreWs := truthy (ignoreWhitespace options) in
  let ignoreCs := truthy (ignoreCase options) in
  let tokens1 := tokenize original granularity in
  let tokens2 := tokenize modified granularity in
  let normalized1 := List.map (fun t => normalize t ignoreWs ignoreCs) tokens1 in
  let normalized2 := List.map (fun t => normalize t ignoreWs ignoreCs) tokens2 in
  let common := lcs normalized1 normalized2 in
  let final :=
    diffLoop options tokens1 tokens2 normalized1 normalized2 common
      (length tokens1 + length tokens2) walkStart in
  {| changes := w_changes final; stats := computeStats (w_changes final) |}.

(* -------------------------------------------------------------------- *)
(** ** Streaming coordinator                                             *)
(* -------------------------------------------------------------------- *)

(** State of the chunk loop: the accumulator [allChanges], the count
    [processed] and the events yielded so far.  An event carries the
    accumulator as it stands when the event is yielded. *)
Definition chunkStep (options : DiffOptions)
    (origChunks modChunks : list jsstring) (totalLength : nat)
    (st : list DiffChange * nat * list StreamEvent) (i : nat)
    : list DiffChange * nat * list StreamEvent :=
  let '(allChanges, processed, events) := st in
  let origChunk := default [] (origChunks !! i) in
  let modChunk := default [] (modChunks !! i) in
  let chunkResult := diff origChunk modChunk options in
  let allChanges := allChanges ++ changes chunkResult in
  let processed := processed + Nat.max (length origChunk) (length modChunk) in
  (allChanges, processed,
   events ++ [ {| progress :=
                    Math_min 100 (num processed / num totalLength * 100)%float;
                  partial := Some {| changes := allChanges;
                                     stats := computeStats allChanges |};
                  complete := false |} ]).

(** [streamDiff(original, modified, options, chunkSize)]: the events the
    generator yields, in order. *)
Definition streamDiff (original modified : jsstring) (options : DiffOptions)
    (chunkSize : nat) : StreamOutcome :=
  let totalLength := Nat.max (length original) (length modified) in
  if chunkSize * 10 <? totalLength then
    match chunkSize with
    | 0 => Throws
    | _ =>
        let origChunks := chunksOf chunkSize original in
        let modChunks := chunksOf chunkSize modified in
        let maxChunks := Nat.max (length origChunks) (length modChunks) in
        let '(allChanges, _, events) :=
          foldl (chunkStep options origChunks modChunks totalLength)
                ([], 0, []) (seq 0 maxChunks) in
        Yields (events ++ [ {| progress := 100%float;
                               partial := Some {| changes := allChanges;
                                                  stats := computeStats allChanges |};
                               complete := true |} ])
    end
  else
    let result := diff original modified options in
    Yields [ {| progress := 50%float; partial := Some result; complete := false |};
             {| progress := 100%float; partial := Some result; complete := true |} ].
End Engine.

(* ====================================================================== *)
(** * Merge generator                                                      *)
(* ====================================================================== *)

Inductive Decision := accept | reject | keep.

(** [x || ''] on an optional string. *)
Definition orEmpty (x : option jsstring) : jsstring := default [] x.

(** What one round of the [forEach] pushes on [lines]. *)
Definition mergeEntry (change : DiffChange) (decision : Decision)
    : list jsstring :=
  match type change with
  | Added =>
      match decision with
      | accept | keep => [orEmpty (modified change)]
      | reject => []
      end
  | Removed =>
      match decision with
      | reject | keep => [orEmpty (original change)]
      | accept => []
      end
  | Modified =>
      match decision with
      | accept => [orEmpty (modified change)]
      | reject => [orEmpty (original change)]
      | keep => [orEmpty (modified change)]
      end
  | Unchanged => [orEmpty (original change)]
  end.

(** [generateMergedText(changes, decisions)] *)
Definition generateMergedText (changes : list DiffChange)
    (decisions : gmap nat Decision) : jsstring :=
  let lines :=
    concat (imap (fun index change =>
                    mergeEntry change (default keep (decisions !! index)))
                 changes) in
  join [LF] lines.

(* ====================================================================== *)
(** * Character diff                                                       *)
(* ====================================================================== *)

Inductive CharTag := CharAdded | CharRemoved | CharUnchanged.

Record TaggedChar := { char : jsstring; tag : CharTag }.

Record CharDiff := {
  cd_original : list TaggedChar;
  cd_modified : list TaggedChar;
}.

(** State of the loop of [computeCharacterDiff]. *)
Record CharWalk := {
  origIdx : nat;
  modIdx : nat;
  origResult : list TaggedChar;
  modResult : list TaggedChar;
}.

Section CharacterDiff.
Variables origChars modChars : list jsstring.

Definition charWalking (st : CharWalk) : bool :=
  (origIdx st <? length origChars) || (modIdx st <? length modChars).

(** One round of the loop; an array read out of range is [undefined]
    ([None]), pushed as the empty text. *)
Definition charStep (st : CharWalk) : CharWalk :=
  let origChar := origChars !! origIdx st in
  let modChar := modChars !! modIdx st in
  if strictEq origChar modChar && bool_decide (origChar ≠ None)
     && bool_decide (modChar ≠ None)
  then {| origIdx := S (origIdx st); modIdx := S (modIdx st);
          origResult := origResult st
                          ++ [{| char := orEmpty origChar; tag := CharUnchanged |}];
          modResult := modResult st
                         ++ [{| char := orEmpty modChar; tag := CharUnchanged |}] |}
  else if length origChars <=? origIdx st
  then {| origIdx := origIdx st; modIdx := S (modIdx st);
          origResult := origResult st;
          modResult := modResult st
                         ++ [{| char := orEmpty modChar; tag := CharAdded |}] |}
  else if length modChars <=? modIdx st
  then {| origIdx := S (origIdx st); modIdx := modIdx st;
          origResult := origResult st
                          ++ [{| char := orEmpty origChar; tag := CharRemoved |}];
          modResult := modResult st |}
  else {| origIdx := S (origIdx st); modIdx := S (modIdx st);
          origResult := origResult st
                          ++ [{| char := orEmpty origChar; tag := CharRemoved |}];
          modResult := modResult st
                         ++ [{| char := orEmpty modChar; tag := CharAdded |}] |}.

(** The [while] loop; every round advances an index, so
    [origChars.length + modChars.length] rounds are enough. *)
Fixpoint charLoop (fuel : nat) (st : CharWalk) : CharWalk :=
  match fuel with
  | 0 => st
  | S fuel' => if charWalking st then charLoop fuel' (charStep st) else st
  end.
End CharacterDiff.

(** [computeCharacterDiff(original, modified)] *)
Definition computeCharacterDiff (original modified : jsstring) : CharDiff :=
  let origChars := splitChars original in
  let modChars := splitChars modified in
  let final :=
    charLoop origChars modChars (length origChars + length modChars)
      {| origIdx := 0; modIdx := 0; origResult := []; modResult := [] |} in
  {| cd_original := origResult final; cd_modified := modResult final |}.

(* ====================================================================== *)
(** * Navigation, insights, summary and text analysis                      *)
(* ====================================================================== *)

(** What a call gives: a value, or the TypeError of reading a property of
    [undefined]. *)
Inductive Outcome (A : Type) :=
| Returns (a : A)
| ThrowsTypeError.
Arguments Returns {A} a.
Arguments ThrowsTypeError {A}.

(** [changes[i]] for an integer [i]: [undefined] ([None]) outside the
    array. *)
Definition changeAt (changes : list DiffChange) (i : Z) : option DiffChange :=
  if (i <? 0)%Z then None else changes !! Z.to_nat i.

(** The loop of [findNextChange], from index [i]. *)
Fixpoint findNextLoop (changes : list DiffChange) (fuel : nat) (i : Z)
    : Outcome Z :=
  match fuel with
  | 0 => Returns (-1)%Z
  | S fuel' =>
      if (i <? Z.of_nat (length changes))%Z then
        match changeAt changes i with
        | None => ThrowsTypeError
        | Some c =>
            if decide (type c <> Unchanged) then Returns i
            else findNextLoop changes fuel' (i + 1)%Z
        end
      else Returns (-1)%Z
  end.

(** [findNextChange(changes, currentIndex)] *)
Definition findNextChange (changes : list DiffChange) (currentIndex : Z)
    : Outcome Z :=
  findNextLoop changes (S (length changes)) (currentIndex + 1)%Z.

(** The loop of [findPreviousChange], from index [i]. *)
Fixpoint findPreviousLoop (changes : list DiffChange) (fuel : nat) (i : Z)
    : Outcome Z :=
  match fuel with
  | 0 => Returns (-1)%Z
  | S fuel' =>
      if (0 <=? i)%Z then
        match changeAt changes i with
        | None => ThrowsTypeError
        | Some c =>
            if decide (type c <> Unchanged) then Returns i
            else findPreviousLoop changes fuel' (i - 1)%Z
        end
      else Returns (-1)%Z
  end.

(** [findPreviousChange(changes, currentIndex)] *)
Definition findPreviousChange (changes : list DiffChange) (currentIndex : Z)
    : Outcome Z :=
  findPreviousLoop changes (S (length changes)) (currentIndex - 1)%Z.

(** [getAllChangeIndices(changes)] *)
Definition getAllChangeIndices (changes : list DiffChange) : list Z :=
  List.filter (fun index => negb (index =? -1)%Z)
    (imap (fun index change =>
             if decide (type change <> Unchanged) then Z.of_nat index
             else (-1)%Z)
          changes).

(** [Math.round(x)] for any number: the integer nearest to [x], halves
    going up; an integer, an infinity or NaN is returned as it is. *)
Definition Math_round_number (x : float) : float :=
  match Prim2SF x with
  | S754_finite s m e =>
      if (0 <=? e)%Z then x
      else
        let twice := (if s then Z.neg m~0 else Z.pos m~0) in
        let n := ((twice + 2 ^ (- e)) / 2 ^ (1 - e))%Z in
        if (n =? 0)%Z then (if s then PrimFloat.neg_zero else PrimFloat.zero)
        else if (n <? 0)%Z
             then PrimFloat.opp (PrimFloat.of_uint63 (Uint63.of_Z (- n)))
             else PrimFloat.of_uint63 (Uint63.of_Z n)
  | _ => x
  end.

(** [(x || '').length] *)
Definition textLength (x : option jsstring) : nat := length (orEmpty x).

(** [Math.max((change.original || '').length, (change.modified || '').length)] *)
Definition changeLength (change : DiffChange) : nat :=
  Nat.max (textLength (original change)) (textLength (modified change)).

(** One round of the [forEach] of [computeDiffInsights]; the state is
    [(largestChange, maxLength)]. *)
Definition largestStep (st : option DiffChange * nat) (change : DiffChange)
    : option DiffChange * nat :=
  if decide (type change <> Unchanged) then
    if snd st <? changeLength change then (Some change, changeLength change)
    else st
  else st.

(** [Math.round(x * 100) / 100] *)
Definition roundTo2 (x : float) : float :=
  (Math_round_number (x * 100) / 100)%float.

(** The object [computeDiffInsights] returns. *)
Module Insights.
Record t := {
  totalChanges : nat;
  changePercentage : float;
  similarity : float;
  largestChange : option DiffChange;
  changeDistribution : Stats;
}.
End Insights.

(** [computeDiffInsights(result)] *)
Definition computeDiffInsights (result : DiffResult) : Insights.t :=
  let totalChanges :=
    stat_added (stats result) + stat_removed (stats result)
    + stat_modified (stats result) in
  let totalLines := length (changes result) in
  let changePercentage :=
    if 0 <? totalLines then (num totalChanges / num totalLines * 100)%float
    else 0%float in
  let similarity :=
    if 0 <? totalLines
    then (num (stat_unchanged (stats result)) / num totalLines * 100)%float
    else 100%float in
  {| Insights.totalChanges := totalChanges;
     Insights.changePercentage := roundTo2 changePercentage;
     Insights.similarity := roundTo2 similarity;
     Insights.largestChange := fst (foldl largestStep (None, 0) (changes result));
     Insights.changeDistribution :=
       {| stat_added := stat_added (stats result);
          stat_removed := stat_removed (stats result);
          stat_modified := stat_modified (stats result);
          stat_unchanged := stat_unchanged (stats result) |} |}.

(** ['low' | 'medium' | 'high'] *)
Inductive Impact := low | medium | high.

(** The object [summarizeChanges] returns. *)
Record ChangeSummary := {
  summary : jsstring;
  changeTypes : Stats;
  impact : Impact;
  recommendations : list jsstring;
}.

(** [`${n}`] for a count. *)
Definition decimal (n : nat) : jsstring := js (pretty n).

(** [n !== 1 ? 's' : ''] *)
Definition plural (n : nat) : jsstring := if n =? 1 then [] else js "s".

(** The four recommendation texts. *)
Definition expansionAdvice : jsstring :=
  js "Content expansion detected - verify new information is accurate".
Definition reductionAdvice : jsstring :=
  js "Content reduction detected - verify important information was not lost".
Definition rewordingAdvice : jsstring :=
  js "Extensive rewording detected - review for meaning preservation".
Definition majorAdvice : jsstring :=
  js "Major changes detected - comprehensive review recommended".

(** The text [summary] holds before it is trimmed. *)
Definition summaryText (st : Stats) : jsstring :=
  let summary := [] in
  let summary :=
    if 0 <? stat_added st
    then summary ++ js "Added " ++ decimal (stat_added st) ++ js " item"
         ++ plural (stat_added st) ++ js ". "
    else summary in
  let summary :=
    if 0 <? stat_removed st
    then summary ++ js "Removed " ++ decimal (stat_removed st) ++ js " item"
         ++ plural (stat_removed st) ++ js ". "
    else summary in
  let summary :=
    if 0 <? stat_modified st
    then summary ++ js "Modified " ++ decimal (stat_modified st) ++ js " item"
         ++ plural (stat_modified st) ++ js ". "
    else summary in
  let summary :=
    if 0 <? stat_unchanged st
    then summary ++ decimal (stat_unchanged st) ++ js " item"
         ++ plural (stat_unchanged st) ++ js " unchanged."
    else summary in
  summary.

(** [summarizeChanges(result)] *)
Definition summarizeChanges (result : DiffResult) : ChangeSummary :=
  let st := stats result in
  let totalChanges := stat_added st + stat_removed st + stat_modified st in
  let totalItems := length (changes result) in
  let changeRatio :=
    if 0 <? totalItems then (num totalChanges / num totalItems)%float
    else 0%float in
  let impact :=
    if (changeRatio <? 0.1)%float then low
    else if (changeRatio <? 0.3)%float then medium else high in
  let recommendations := [] in
  let recommendations :=
    if stat_removed st * 2 <? stat_added st
    then recommendations ++ [expansionAdvice] else recommendations in
  let recommendations :=
    if stat_added st * 2 <? stat_removed st
    then recommendations ++ [reductionAdvice] else recommendations in
  let recommendations :=
    if stat_added st + stat_removed st <? stat_modified st
    then recommendations ++ [rewordingAdvice] else recommendations in
  let recommendations :=
    if (0.5 <? changeRatio)%float
    then recommendations ++ [majorAdvice] else recommendations in
  {| summary := match trim (summaryText st) with
                | [] => js "No changes detected"
                | t => t
                end;
     changeTypes := {| stat_added := stat_added st;
                       stat_removed := stat_removed st;
                       stat_modified := stat_modified st;
                       stat_unchanged := stat_unchanged st |};
     impact := impact;
     recommendations := recommendations |}.

(** [/[.!?]+/] *)
Definition matchTerminalRun : matcher := fun s =>
  match spanLen isTerminal s with
  | 0 => None
  | n => Some n
  end.

(** [text.replace(/\s/g, '')] *)
Definition removeWhiteSpace (text : jsstring) : jsstring :=
  List.filter (fun c => negb (isWhiteSpace c)) text.

(** The [Set] of common words of [analyzeText]. *)
Definition commonWords : list jsstring :=
  newSet
    [js "the"; js "a"; js "an"; js "and"; js "or"; js "but"; js "in"; js "on";
     js "at"; js "to"; js "for"; js "of"; js "with"; js "by"; js "is";
     js "are"; js "was"; js "were"; js "be"; js "been"; js "have"; js "has";
     js "had"; js "do"; js "does"; js "did"; js "will"; js "would";
     js "could"; js "should"; js "may"; js "might"; js "must"; js "can";
     js "this"; js "that"; js "these"; js "those"; js "i"; js "you"; js "he";
     js "she"; js "it"; js "we"; js "they"].

(** A [Map<string, number>] as the list of its entries in insertion
    order.  [m.get(k)]: *)
Fixpoint mapGet (m : list (jsstring * nat)) (k : jsstring) : option nat :=
  match m with
  | [] => None
  | (k', v') :: m' => if decide (k' = k) then Some v' else mapGet m' k
  end.

(** [m.set(k, v)]: a key that is present keeps its place, a new one goes
    last. *)
Fixpoint mapSet (m : list (jsstring * nat)) (k : jsstring) (v : nat)
    : list (jsstring * nat) :=
  match m with
  | [] => [(k, v)]
  | (k', v') :: m' =>
      if decide (k' = k) then (k', v) :: m' else (k', v') :: mapSet m' k v
  end.

(** [entries.sort((a, b) => b[1] - a[1])]: the sort is stable, so the
    entries come out by decreasing count, those of equal count in their
    former order; insertion from the right gives that arrangement. *)
Fixpoint insertByCount (x : jsstring * nat) (l : list (jsstring * nat))
    : list (jsstring * nat) :=
  match l with
  | [] => [x]
  | y :: l' => if snd x <? snd y then y :: insertByCount x l' else x :: l
  end.

Definition sortByCount (l : list (jsstring * nat)) : list (jsstring * nat) :=
  foldr insertByCount [] l.

(** The readability levels. *)
Definition readabilityLevelOf (readabilityScore : float) : jsstring :=
  if (90 <=? readabilityScore)%float then js "Very Easy"
  else if (80 <=? readabilityScore)%float then js "Easy"
  else if (70 <=? readabilityScore)%float then js "Fairly Easy"
  else if (60 <=? readabilityScore)%float then js "Standard"
  else if (50 <=? readabilityScore)%float then js "Fairly Difficult"
  else if (30 <=? readabilityScore)%float then js "Difficult"
  else js "Very Difficult".

Record Readability := { score : float; level : jsstring }.

(** The object [analyzeText] returns. *)
Record TextAnalysis := {
  wordCount : nat;
  sentenceCount : nat;
  paragraphCount : nat;
  averageWordsPerSentence : float;
  averageCharsPerWord : float;
  readability : Readability;
  keyTerms : list jsstring;
}.

Section Analysis.
Variable toLowerCase : jsstring -> jsstring.

(** One round of [words.forEach] in [analyzeText]. *)
Definition freqStep (wordFreq : list (jsstring * nat)) (word : jsstring)
    : list (jsstring * nat) :=
  let lower := toLowerCase word in
  if negb (has commonWords lower) && (4 <? length word)
  then mapSet wordFreq lower (default 0 (mapGet wordFreq lower) + 1)
  else wordFreq.

(** [analyzeText(text)] *)
Definition analyzeText (text : jsstring) : TextAnalysis :=
  let words := matchWords text in
  let sentences :=
    List.filter (fun s => nonEmpty (trim s)) (split matchTerminalRun false text) in
  let paragraphs :=
    List.filter (fun p => nonEmpty (trim p)) (split matchBlankLine false text) in
  let wordCount := length words in
  let sentenceCount := length sentences in
  let paragraphCount := length paragraphs in
  let averageWordsPerSentence :=
    if 0 <? sentenceCount then (num wordCount / num sentenceCount)%float
    else 0%float in
  let averageCharsPerWord :=
    if 0 <? wordCount
    then (num (length (removeWhiteSpace text)) / num wordCount)%float
    else 0%float in
  let avgSentenceLength := averageWordsPerSentence in
  let avgWordLength := averageCharsPerWord in
  let readabilityScore :=
    (206.835 - 1.015 * avgSentenceLength - 84.6 * avgWordLength)%float in
  let readabilityLevel := readabilityLevelOf readabilityScore in
  let wordFreq := foldl freqStep [] words in
  let keyTerms := fst <$> take 10 (sortByCount wordFreq) in
  {| wordCount := wordCount;
     sentenceCount := sentenceCount;
     paragraphCount := paragraphCount;
     averageWordsPerSentence := roundTo2 averageWordsPerSentence;
     averageCharsPerWord := roundTo2 averageCharsPerWord;
     readability := {| score := roundTo2 readabilityScore;
                       level := readabilityLevel |};
     keyTerms := keyTerms |}.

End Analysis.

(* ====================================================================== *)
(** * Vocabulary of the properties                                         *)
(* ====================================================================== *)

(** Options used in the worked scenarios. *)
Definition defaultOptions : DiffOptions :=
  {| granularity := None; ignoreWhitespace := None; ignoreCase := None;
     semanticAnalysis := None; similarityThreshold := None |}.

Definition wordOptions : DiffOptions :=
  {| granularity := Some word; ignoreWhitespace := None; ignoreCase := None;
     semanticAnalysis := None; similarityThreshold := None |}.

Definition semanticOptions : DiffOptions :=
  {| granularity := None; ignoreWhitespace := None; ignoreCase := None;
     semanticAnalysis := Some true; similarityThreshold := None |}.

(** The options [o] with [similarityThreshold] replaced by [t]. *)
Definition withThreshold (o : DiffOptions) (t : option float) : DiffOptions :=
  {| granularity := granularity o;
     ignoreWhitespace := ignoreWhitespace o;
     ignoreCase := ignoreCase o;
     semanticAnalysis := semanticAnalysis o;
     similarityThreshold := t |}.

(** A change record without line numbers or semantic fields. *)
Definition plainChange (t : ChangeType) (o m : option jsstring) : DiffChange :=
  {| type := t; original := o; modified := m;
     originalLine := None; modifiedLine := None;
     similarity := None; explanation := None; keyWords := None |}.

(** The record of the single empty line of an empty text. *)
Definition emptyLineChange : DiffChange :=
  {| type := Unchanged; original := Some []; modified := Some [];
     originalLine := Some 1; modifiedLine := Some 1;
     similarity := None; explanation := None; keyWords := None |}.

Definition noStats : Stats :=
  {| stat_added := 0; stat_removed := 0; stat_modified := 0; stat_unchanged := 0 |}.

(** Every field of a change record but the explanation. *)
Definition exceptExplanation (c : DiffChange) :=
  (type c, original c, modified c, originalLine c, modifiedLine c,
   similarity c, keyWords c).

(** Two classifier states that agree up to explanations. *)
Definition sameWalk (s1 s2 : Walk) : Prop :=
  w_i s1 = w_i s2 /\ w_j s1 = w_j s2 /\ w_k s1 = w_k s2
  /\ w_originalLine s1 = w_originalLine s2
  /\ w_modifiedLine s1 = w_modifiedLine s2
  /\ exceptExplanation <$> w_changes s1 = exceptExplanation <$> w_changes s2.

(** Tokens still to be consumed by the classifier: the variant of its
    loop. *)
Definition remaining (tokens1 tokens2 : list jsstring) (st : Walk) : nat :=
  (length tokens1 - w_i st) + (length tokens2 - w_j st).

(** A token made of white space only, and a token free of white space. *)
Definition isWsToken (t : jsstring) : bool := forallb isWhiteSpace t.
Definition isWsFree (t : jsstring) : bool :=
  forallb (fun c => negb (isWhiteSpace c)) t.

(** Neighbouring tokens are of different kinds: a white-space token is
    never followed by a white-space token, nor another token by another
    token. *)
Fixpoint alternates (l : list jsstring) : bool :=
  match l with
  | s :: l' =>
      match l' with
      | t :: _ => negb (eqb (isWsToken s) (isWsToken t)) && alternates l'
      | [] => true
      end
  | [] => true
  end.

(** The head of a token list is a white-space token. *)
Definition firstIsWs (l : list jsstring) : bool :=
  match l with
  | t :: _ => isWsToken t
  | [] => false
  end.

(** A carriage return immediately followed by a line feed occurs in [s]. *)
Fixpoint hasCRLF (s : jsstring) : bool :=
  match s with
  | c :: s' =>
      match s' with
      | d :: _ => (c =? CR)%N && (d =? LF)%N || hasCRLF s'
      | [] => false
      end
  | [] => false
  end.

(** The text spelled by a tagged character list. *)
Definition charsOf (l : list TaggedChar) : jsstring := concat (char <$> l).

(** The tags allowed on each side of a character diff. *)
Definition origTagOk (e : TaggedChar) : Prop :=
  tag e = CharRemoved \/ tag e = CharUnchanged.
Definition modTagOk (e : TaggedChar) : Prop :=
  tag e = CharAdded \/ tag e = CharUnchanged.

(** Invariant and variant of the loop of [computeCharacterDiff]. *)
Definition charInv (original modified : jsstring) (st : CharWalk) : Prop :=
  origIdx st <= length original /\ modIdx st <= length modified
  /\ charsOf (origResult st) = take (origIdx st) original
  /\ charsOf (modResult st) = take (modIdx st) modified
  /\ Forall origTagOk (origResult st) /\ Forall modTagOk (modResult st).

Definition charRemaining (original modified : jsstring) (st : CharWalk) : nat :=
  (length original - origIdx st) + (length modified - modIdx st).

(** ** The similarity formula, over mathematical sets *)

(** [wordSet(text)], for a given reading [words] of what the words of a
    text are. *)
Definition wordSet (words : jsstring -> list jsstring) (text : jsstring)
    : gset jsstring :=
  list_to_set (words text).

(** Jaccard = |A ∩ B| / |A ∪ B| *)
Definition Jaccard (A B : gset jsstring) : float :=
  (num (size (A ∩ B)) / num (size (A ∪ B)))%float.

(** min(len(a), len(b)) / max(len(a), len(b)) *)
Definition lengthRatio (a b : jsstring) : float :=
  (num (Nat.min (length a) (length b))
   / num (Nat.max (length a) (length b)))%float.

(** 0.7 × Jaccard + 0.3 × length ratio; 1.0 when both word sets are
    empty, 0.0 when exactly one is. *)
Definition similarityFormula (words : jsstring -> list jsstring)
    (a b : jsstring) : float :=
  let A := wordSet words a in
  let B := wordSet words b in
  if (size A =? 0) && (size B =? 0) then 1%float
  else if (size A =? 0) || (size B =? 0) then 0%float
  else (0.7 * Jaccard A B + 0.3 * lengthRatio a b)%float.

(** An ASCII letter or digit. *)
Definition isAlphanumeric (c : N) : bool :=
  ((48 <=? c) && (c <=? 57) || (65 <=? c) && (c <=? 90)
   || (97 <=? c) && (c <=? 122))%N.

(** Reading 1: the alphanumeric runs of the lower-cased text. *)
Definition alphanumericRuns (toLowerCase : jsstring -> jsstring)
    (text : jsstring) : list jsstring :=
  runsOf isAlphanumeric [] (toLowerCase text).

(** Reading 2: the runs of word characters ([\w]: letters, digits and the
    underscore) of the lower-cased text. *)
Definition wordCharRuns (toLowerCase : jsstring -> jsstring)
    (text : jsstring) : list jsstring :=
  matchWords (toLowerCase text).

(* -------------------------------------------------------------------- *)
(** ** Invariants and reference notions                                  *)
(* -------------------------------------------------------------------- *)

(** The texts of the original side of a change list, in order, and those
    of the modified side. *)
Definition originalTexts (cs : list DiffChange) : list jsstring := omap original cs.
Definition modifiedTexts (cs : list DiffChange) : list jsstring := omap modified cs.

(** The line numbers carried by the records that have an original text,
    and by those that have a modified text. *)
Definition originalLines (cs : list DiffChange) : list (option nat) :=
  originalLine <$> filter (fun c => is_Some (original c)) cs.
Definition modifiedLines (cs : list DiffChange) : list (option nat) :=
  modifiedLine <$> filter (fun c => is_Some (modified c)) cs.

(** The record carries none of the fields of semantic analysis. *)
Definition noSemantics (c : DiffChange) : Prop :=
  similarity c = None /\ explanation c = None /\ keyWords c = None.

(** Which fields a record of each kind carries; [semantic] tells that
    semantic analysis is on, [norm] is the normalization in force. *)
Definition recordOk (semantic : bool) (norm : jsstring -> jsstring)
    (c : DiffChange) : Prop :=
  match type c with
  | Unchanged =>
      (exists x y, original c = Some x /\ modified c = Some y /\ norm x = norm y)
      /\ noSemantics c
  | Added =>
      original c = None /\ originalLine c = None /\ is_Some (modified c)
      /\ noSemantics c
  | Removed =>
      modified c = None /\ modifiedLine c = None /\ is_Some (original c)
      /\ noSemantics c
  | Modified =>
      is_Some (original c) /\ is_Some (modified c)
      /\ if semantic
         then is_Some (similarity c) /\ is_Some (explanation c)
              /\ is_Some (keyWords c)
         else noSemantics c
  end.

(** Invariant of the classifier's loop. *)
Definition walkInv (options : DiffOptions) (norm : jsstring -> jsstring)
    (tokens1 tokens2 : list jsstring) (st : Walk) : Prop :=
  w_i st <= length tokens1 /\ w_j st <= length tokens2
  /\ originalTexts (w_changes st) = take (w_i st) tokens1
  /\ modifiedTexts (w_changes st) = take (w_j st) tokens2
  /\ w_originalLine st = Nat.iter (w_i st) (nextLine options) 1
  /\ w_modifiedLine st = Nat.iter (w_j st) (nextLine options) 1
  /\ originalLines (w_changes st)
     = (fun n => lineNo options (Nat.iter n (nextLine options) 1)) <$> seq 0 (w_i st)
  /\ modifiedLines (w_changes st)
     = (fun n => lineNo options (Nat.iter n (nextLine options) 1)) <$> seq 0 (w_j st)
  /\ Forall (recordOk (truthy (semanticAnalysis options)) norm) (w_changes st).

(** The anchors still to be met lie ahead on both sides, and those met
    are the unchanged records. *)
Definition anchorInv (normalized1 normalized2 common : list jsstring)
    (st : Walk) : Prop :=
  drop (w_k st) common `sublist_of` drop (w_i st) normalized1
  /\ drop (w_k st) common `sublist_of` drop (w_j st) normalized2
  /\ countType Unchanged (w_changes st) = w_k st
  /\ w_k st <= length common.

(** The length of a longest common subsequence of the first [i] items of
    [arr1] and the first [j] items of [arr2], by the recurrence of the
    table. *)
Fixpoint lcsLength {T} `{EqDecision T} (arr1 arr2 : list T) (i : nat)
    : nat -> nat :=
  match i with
  | 0 => fun _ => 0
  | S i' =>
      fix row (j : nat) : nat :=
        match j with
        | 0 => 0
        | S j' =>
            if strictEq (arr1 !! i') (arr2 !! j')
            then lcsLength arr1 arr2 i' j' + 1
            else Nat.max (lcsLength arr1 arr2 i' (S j')) (row j')
        end
  end.

(** The table has its [m + 1] rows of [n + 1] cells; the rows before [mi]
    are filled, row [mi] is filled up to column [nj], the rest is zero. *)
Definition dpFilled {T} `{EqDecision T} (arr1 arr2 : list T) (mi nj : nat)
    (dp : list (list nat)) : Prop :=
  length dp = length arr1 + 1
  /\ Forall (fun row => length row = length arr2 + 1) dp
  /\ forall i j, i <= length arr1 -> j <= length arr2 ->
       dpGet dp i j
       = if (i <? mi) || ((i =? mi) && (j <=? nj))
         then lcsLength arr1 arr2 i j else 0.

(** Invariant of the backtrack. *)
Definition backtrackInv {T} `{EqDecision T} (arr1 arr2 : list T)
    (st : Backtrack (T:=T)) : Prop :=
  bt_i st <= length arr1 /\ bt_j st <= length arr2
  /\ bt_result st `sublist_of` drop (bt_i st) arr1
  /\ bt_result st `sublist_of` drop (bt_j st) arr2
  /\ length (bt_result st) + lcsLength arr1 arr2 (bt_i st) (bt_j st)
     = lcsLength arr1 arr2 (length arr1) (length arr2).

(** The normalization [diff] applies to tokens under [o]. *)
Definition normOf (toLowerCase : jsstring -> jsstring) (o : DiffOptions)
    (t : jsstring) : jsstring :=
  normalize toLowerCase t (truthy (ignoreWhitespace o)) (truthy (ignoreCase o)).

(** The state in which the classifier of [diff] returns. *)
Definition diffFinal (toLowerCase : jsstring -> jsstring) (a b : jsstring)
    (o : DiffOptions) : Walk :=
  let tokens1 := tokenize a (granularityOf o) in
  let tokens2 := tokenize b (granularityOf o) in
  let n1 := List.map (normOf toLowerCase o) tokens1 in
  let n2 := List.map (normOf toLowerCase o) tokens2 in
  diffLoop toLowerCase o tokens1 tokens2 n1 n2 (lcs n1 n2)
    (length tokens1 + length tokens2) walkStart.

(** The text with every carriage return that is immediately followed by a
    line feed removed, scanning left to right. *)
Fixpoint crlfToLf (s : jsstring) : jsstring :=
  match s with
  | [] => []
  | c :: s' =>
      match s' with
      | d :: s'' =>
          if (c =? CR)%N && (d =? LF)%N then LF :: crlfToLf s''
          else c :: crlfToLf s'
      | [] => [c]
      end
  end.

(** A pair of texts with an unchanged, a modified, an added and again an
    unchanged line. *)
Definition sampleOriginal : jsstring :=
  js "line1" ++ [LF] ++ js "line2" ++ [LF] ++ js "tail".
Definition sampleModified : jsstring :=
  js "line1" ++ [LF] ++ js "LINE2" ++ [LF] ++ js "more" ++ [LF] ++ js "tail".

(** The decisions that answer [dec] for the first [n] records. *)
Definition decideAll (dec : Decision) (n : nat) : gmap nat Decision :=
  list_to_map ((fun i => (i, dec)) <$> seq 0 n).

(** The change list of the sample pair at the default options: an unchanged
    line, a modified one, an added one and an unchanged one. *)
Definition sampleChanges : list DiffChange :=
  changes (diff asciiToLowerCase sampleOriginal sampleModified defaultOptions).

(** Record [i] exists and is a change (not unchanged). *)
Definition isChangeAt (changes : list DiffChange) (i : Z) : Prop :=
  exists c, changeAt changes i = Some c /\ type c <> Unchanged.

(** No record with index in [lo, hi) is a change. *)
Definition noChangeIn (changes : list DiffChange) (lo hi : Z) : Prop :=
  forall k, (lo <= k < hi)%Z -> ~ isChangeAt changes k.

(** The indices of the changes of a list whose first record has index
    [k]. *)
Fixpoint changeIndicesFrom (k : nat) (cs : list DiffChange) : list Z :=
  match cs with
  | [] => []
  | c :: cs' =>
      (if decide (type c <> Unchanged) then [Z.of_nat k] else [])
      ++ changeIndicesFrom (S k) cs'
  end.

(** The entry a position-by-position comparison gives for unit [x] at
    index [i], against the text [other]: unchanged when [other] has the
    same unit at the same index, [changed] otherwise. *)
Definition positionalEntry (changed : CharTag) (other : jsstring) (i : nat)
    (x : N) : TaggedChar :=
  {| char := [x];
     tag := if decide (other !! i = Some x) then CharUnchanged else changed |}.

(** Invariant of the loop of [computeCharacterDiff]: the indices run
    together until one side ends, and each side holds the positional
    entries of its prefix. *)
Definition charPosInv (original modified : jsstring) (st : CharWalk) : Prop :=
  origIdx st <= length original /\ modIdx st <= length modified
  /\ (origIdx st = modIdx st
      \/ (origIdx st = length original /\ length original <= modIdx st)
      \/ (modIdx st = length modified /\ length modified <= origIdx st))
  /\ origResult st
     = take (origIdx st) (imap (positionalEntry CharRemoved modified) original)
  /\ modResult st
     = take (modIdx st) (imap (positionalEntry CharAdded original) modified).

(** The text does not start with white space. *)
Definition headNotWs (s : jsstring) : bool :=
  match s with
  | c :: _ => negb (isWhiteSpace c)
  | [] => true
  end.

(** Every white-space unit of the text is a space that is not followed by
    white space. *)
Fixpoint singleSpaced (s : jsstring) : bool :=
  match s with
  | [] => true
  | c :: s' =>
      (if isWhiteSpace c then (c =? SPACE)%N && headNotWs s' else true)
      && singleSpaced s'
  end.

(** [chunks[i] || '']: the [i]-th chunk, empty past the last one. *)
Definition chunkAt (chunks : list jsstring) (i : nat) : jsstring :=
  default [] (chunks !! i).

(** The changes of the chunk pairs with index below [k], in order. *)
Definition chunkChanges (toLowerCase : jsstring -> jsstring)
    (options : DiffOptions) (origChunks modChunks : list jsstring) (k : nat)
    : list DiffChange :=
  concat ((fun i => changes (diff toLowerCase (chunkAt origChunks i)
                               (chunkAt modChunks i) options))
          <$> seq 0 k).

(** The partial result built from an accumulator. *)
Definition partialOf (allChanges : list DiffChange) : option DiffResult :=
  Some {| changes := allChanges; stats := computeStats allChanges |}.

(** Invariant of the chunk loop after [k] rounds. *)
Definition chunkInv (toLowerCase : jsstring -> jsstring) (options : DiffOptions)
    (origChunks modChunks : list jsstring) (k : nat)
    (st : list DiffChange * nat * list StreamEvent) : Prop :=
  st.1.1 = chunkChanges toLowerCase options origChunks modChunks k
  /\ complete <$> st.2 = replicate k false
  /\ partial <$> st.2
     = (fun n => partialOf (chunkChanges toLowerCase options origChunks modChunks n))
       <$> seq 1 k.

(** What [largestChange] is for the records seen so far. *)
Definition largestInv (cs : list DiffChange) (st : option DiffChange * nat) : Prop :=
  match fst st with
  | None =>
      snd st = 0
      /\ forall c, c ∈ cs -> type c <> Unchanged -> changeLength c = 0
  | Some c =>
      snd st = changeLength c /\ 0 < changeLength c /\ type c <> Unchanged
      /\ exists i, cs !! i = Some c
           /\ (forall j c', cs !! j = Some c' -> type c' <> Unchanged ->
                 changeLength c' <= changeLength c
                 /\ (j < i -> changeLength c' < changeLength c))
  end.

(** A word counts towards the key terms: its lower-cased form is not a
    common word and the word has more than four units. *)
Definition isKeyCandidate (toLowerCase : jsstring -> jsstring)
    (word : jsstring) : bool :=
  negb (has commonWords (toLowerCase word)) && (4 <? length word).

(** How often [term] is the lower-cased form of a candidate among
    [words]. *)
Definition termCount (toLowerCase : jsstring -> jsstring)
    (words : list jsstring) (term : jsstring) : nat :=
  length (List.filter (fun w => isKeyCandidate toLowerCase w
                                && bool_decide (toLowerCase w = term)) words).

(** [termCount] over the words of a text. *)
Definition termFrequency (toLowerCase : jsstring -> jsstring)
    (text term : jsstring) : nat :=
  termCount toLowerCase (matchWords text) term.

(** The frequency map after the words [words]: one entry per term met,
    holding its count. *)
Definition freqInv (toLowerCase : jsstring -> jsstring)
    (words : list jsstring) (m : list (jsstring * nat)) : Prop :=
  NoDup (m.*1)
  /\ forall k, mapGet m k
       = if termCount toLowerCase words k =? 0 then None
         else Some (termCount toLowerCase words k).

(** Decreasing counts. *)
Definition countsDecrease (l : list (jsstring * nat)) : Prop :=
  StronglySorted (fun x y => snd y <= snd x) l.

(* ====================================================================== *)
(** * Basic facts                                                          *)
(* ====================================================================== *)

Lemma strictEq_refl {A} `{EqDecision A} (a : A) : strictEq a a = true.
Proof. unfold strictEq. by apply bool_decide_eq_true. Qed.

Lemma join_cons sep x l : l <> [] -> join sep (x :: l) = x ++ sep ++ join sep l.
Proof. destruct l; [congruence | reflexivity]. Qed.

Lemma take_spanLen p s : forallb p (take (spanLen p s) s) = true.
Proof.
  induction s as [|c s IH]; [reflexivity|]. cbn [spanLen].
  destruct (p c) eqn:Hc; [|reflexivity]. cbn. rewrite Hc. exact IH.
Qed.

Lemma length_splitChars s : length (splitChars s) = length s.
Proof. apply length_map. Qed.

Lemma splitChars_lookup s i : splitChars s !! i = (fun c => [c]) <$> s !! i.
Proof. unfold splitChars. apply list_lookup_fmap. Qed.

(** Multiplication of binary64 numbers is commutative. *)
Lemma SFmul_comm prec emax x y : SFmul prec emax x y = SFmul prec emax y x.
Proof.
  destruct x as [sx|sx| |sx mx ex], y as [sy|sy| |sy my ey]; cbn [SFmul];
    rewrite ?(xorb_comm sx sy), ?(Pos.mul_comm mx my), ?(Z.add_comm ex ey);
    reflexivity.
Qed.

Lemma float_mul_comm (x y : float) : (x * y = y * x)%float.
Proof. apply Prim2SF_inj. rewrite !FloatAxioms.mul_spec. apply SFmul_comm. Qed.

(* ====================================================================== *)
(** * The loops run to completion                                          *)
(* ====================================================================== *)

(** The rounds allotted to each loop are enough: the result does not
    depend on the allotment once it covers the text. *)
Lemma splitLoop_nonempty m capture fuel cur rest :
  splitLoop m capture fuel cur rest <> [].
Proof.
  revert cur rest. induction fuel as [|fuel IH]; intros cur [|c rest]; cbn;
    try discriminate.
  destruct (m (c :: rest)) as [[|n]|]; try apply IH. discriminate.
Qed.

Lemma splitLoop_fuel m capture f1 f2 cur rest :
  length rest <= f1 -> length rest <= f2 ->
  splitLoop m capture f1 cur rest = splitLoop m capture f2 cur rest.
Proof.
  revert f2 cur rest. induction f1 as [|f1 IH]; intros f2 cur [|c rest] H1 H2;
    cbn [length] in *; try lia; destruct f2 as [|f2]; try lia; try reflexivity.
  cbn [splitLoop]. destruct (m (c :: rest)) as [[|n]|].
  - apply IH; lia.
  - f_equal. f_equal. apply IH; rewrite length_drop; cbn [length]; lia.
  - apply IH; lia.
Qed.

Lemma chunksLoop_fuel chunkSize f1 f2 s :
  0 < chunkSize -> length s <= f1 -> length s <= f2 ->
  chunksLoop chunkSize f1 s = chunksLoop chunkSize f2 s.
Proof.
  intros Hc. revert f2 s. induction f1 as [|f1 IH]; intros f2 [|c s] H1 H2;
    cbn [length] in *; try lia; destruct f2 as [|f2]; try lia; try reflexivity.
  cbn [chunksLoop]. f_equal. apply IH; rewrite length_drop; cbn [length]; lia.
Qed.

Lemma backtrackStep_lowers {T} `{EqDecision T} (arr1 arr2 : list T) dp st :
  (0 <? bt_i st) && (0 <? bt_j st) = true ->
  bt_i (backtrackStep arr1 arr2 dp st) + bt_j (backtrackStep arr1 arr2 dp st)
  < bt_i st + bt_j st.
Proof.
  intros [Hi Hj]%andb_prop. apply Nat.ltb_lt in Hi, Hj.
  unfold backtrackStep.
  repeat (match goal with |- context [if ?b then _ else _] => destruct b end);
    cbn [bt_i bt_j]; lia.
Qed.

Lemma backtrackLoop_exits {T} `{EqDecision T} (arr1 arr2 : list T) dp fuel st :
  bt_i st + bt_j st <= fuel ->
  (0 <? bt_i (backtrackLoop arr1 arr2 dp fuel st))
  && (0 <? bt_j (backtrackLoop arr1 arr2 dp fuel st)) = false.
Proof.
  revert st. induction fuel as [|fuel IH]; intros st Hf; cbn [backtrackLoop].
  - replace (bt_i st) with 0 by lia. reflexivity.
  - destruct ((0 <? bt_i st) && (0 <? bt_j st)) eqn:Hw; [|exact Hw].
    apply IH. pose proof (backtrackStep_lowers arr1 arr2 dp st Hw). lia.
Qed.

Section ClassifierLoop.
Variable toLowerCase : jsstring -> jsstring.
Variable options : DiffOptions.
Variables tokens1 tokens2 normalized1 normalized2 common : list jsstring.

Lemma diffStep_progress st :
  walking tokens1 tokens2 st = true ->
  remaining tokens1 tokens2
    (diffStep toLowerCase options tokens1 tokens2 normalized1 normalized2 common st)
  < remaining tokens1 tokens2 st.
Proof.
  unfold walking, remaining, diffStep. intros Hw.
  repeat (match goal with
          | |- context [if ?b then _ else _] => destruct b eqn:?
          end); cbn [w_i w_j];
  repeat match goal with
         | H : (_ && _) = true |- _ => apply andb_prop in H as [? ?]
         | H : (_ <? _) = true |- _ => apply Nat.ltb_lt in H
         | H : (_ <? _) = false |- _ => apply Nat.ltb_ge in H
         | H : (_ || _) = true |- _ => apply orb_prop in H as [?|?]
         end; try lia.
Qed.

Lemma diffLoop_exits fuel st :
  remaining tokens1 tokens2 st <= fuel ->
  walking tokens1 tokens2
    (diffLoop toLowerCase options tokens1 tokens2 normalized1 normalized2 common
       fuel st) = false.
Proof.
  revert st. induction fuel as [|fuel IH]; intros st Hf; cbn [diffLoop].
  - unfold walking, remaining in *.
    apply orb_false_intro; apply Nat.ltb_ge; lia.
  - destruct (walking tokens1 tokens2 st) eqn:Hw; [|exact Hw].
    apply IH. pose proof (diffStep_progress st Hw). lia.
Qed.
End ClassifierLoop.

(* ====================================================================== *)
(** * Statistics                                                           *)
(* ====================================================================== *)

Lemma countType_cons t c cs :
  countType t (c :: cs) = (if decide (type c = t) then 1 else 0) + countType t cs.
Proof.
  unfold countType. rewrite filter_cons. destruct (decide (type c = t)); reflexivity.
Qed.

Lemma countType_total cs :
  countType Added cs + countType Removed cs + countType Modified cs
  + countType Unchanged cs = length cs.
Proof.
  induction cs as [|c cs IH]; [reflexivity|].
  rewrite !countType_cons. cbn [length].
  destruct (type c); repeat case_decide; try congruence; lia.
Qed.

Lemma countType_none t cs :
  Forall (fun c => type c <> t) cs -> countType t cs = 0.
Proof.
  induction 1 as [|c cs Hc _ IH]; [reflexivity|].
  unfold countType in *. rewrite filter_cons_False by done. exact IH.
Qed.

Lemma countType_exceptExplanation t cs1 cs2 :
  exceptExplanation <$> cs1 = exceptExplanation <$> cs2 ->
  countType t cs1 = countType t cs2.
Proof.
  revert cs2. induction cs1 as [|c1 cs1 IH]; intros [|c2 cs2] H;
    try discriminate; [reflexivity|].
  cbn [fmap list_fmap] in H. apply (f_equal tail) in H as Hcs. cbn [tail] in Hcs.
  assert (Ht : type c1 = type c2).
  { apply (f_equal head) in H. cbn [head] in H. unfold exceptExplanation in H.
    congruence. }
  unfold countType in *. rewrite !filter_cons, Ht.
  destruct (decide (type c2 = t)); cbn [length]; rewrite (IH _ Hcs); reflexivity.
Qed.

(** C1: for every pair of texts and every options value, the result of
    [diff] has stats.added + stats.removed + stats.modified +
    stats.unchanged equal to the length of its change list. *)
Theorem diff_stats_total (toLowerCase : jsstring -> jsstring)
    (a b : jsstring) (o : DiffOptions) :
  stat_added (stats (diff toLowerCase a b o))
  + stat_removed (stats (diff toLowerCase a b o))
  + stat_modified (stats (diff toLowerCase a b o))
  + stat_unchanged (stats (diff toLowerCase a b o))
  = length (changes (diff toLowerCase a b o)).
Proof.
  unfold diff.
  cbn [stats changes computeStats stat_added stat_removed stat_modified
       stat_unchanged].
  apply countType_total.
Qed.

(** The classifier of [diff] has consumed both token lists when it
    returns. *)
Lemma diff_walk_complete (toLowerCase : jsstring -> jsstring)
    (a b : jsstring) (o : DiffOptions) :
  let g := granularityOf o in
  let ws := truthy (ignoreWhitespace o) in
  let cs := truthy (ignoreCase o) in
  let tokens1 := tokenize a g in
  let tokens2 := tokenize b g in
  let n1 := List.map (fun t => normalize toLowerCase t ws cs) tokens1 in
  let n2 := List.map (fun t => normalize toLowerCase t ws cs) tokens2 in
  walking tokens1 tokens2
    (diffLoop toLowerCase o tokens1 tokens2 n1 n2 (lcs n1 n2)
       (length tokens1 + length tokens2) walkStart) = false.
Proof.
  intros. apply diffLoop_exits. unfold remaining, walkStart. cbn [w_i w_j]. lia.
Qed.

(* ====================================================================== *)
(** * Tokenizer at word granularity                                        *)
(* ====================================================================== *)

Lemma splitLoop_concat m fuel cur rest :
  concat (splitLoop m true fuel cur rest) = rev cur ++ rest.
Proof.
  revert cur rest. induction fuel as [|fuel IH]; intros cur [|c rest];
    cbn [splitLoop concat]; rewrite ?app_nil_r; try reflexivity.
  destruct (m (c :: rest)) as [[|n]|].
  - rewrite IH. cbn [rev]. rewrite <- app_assoc. reflexivity.
  - cbn [app concat]. rewrite IH. cbn [rev app]. rewrite take_drop. reflexivity.
  - rewrite IH. cbn [rev]. rewrite <- app_assoc. reflexivity.
Qed.

Lemma concat_filter_nonEmpty (l : list jsstring) :
  concat (List.filter nonEmpty l) = concat l.
Proof.
  induction l as [|x l IH]; [reflexivity|]. cbn [List.filter concat].
  destruct x as [|c x]; cbn; [exact IH|]. rewrite IH. reflexivity.
Qed.

Lemma isWsFree_rev cur : isWsFree cur = true -> isWsFree (rev cur) = true.
Proof.
  unfold isWsFree. rewrite !forallb_forall.
  intros Hl x Hx. apply Hl. apply in_rev. exact Hx.
Qed.

Lemma matchWsRun_cases c rest :
  (isWhiteSpace c = true
   /\ matchWsRun (c :: rest) = Some (S (spanLen isWhiteSpace rest)))
  \/ (isWhiteSpace c = false /\ matchWsRun (c :: rest) = None).
Proof.
  unfold matchWsRun. cbn [spanLen]. destruct (isWhiteSpace c); auto.
Qed.

Lemma splitLoop_ws_shape fuel cur rest :
  isWsFree cur = true -> length rest <= fuel ->
  Forall (fun t => isWsToken t = true \/ isWsFree t = true)
         (splitLoop matchWsRun true fuel cur rest).
Proof.
  revert cur rest. induction fuel as [|fuel IH]; intros cur [|c rest] Hcur Hf;
    cbn [splitLoop length] in *; try lia.
  - constructor; [right; by apply isWsFree_rev | constructor].
  - constructor; [right; by apply isWsFree_rev | constructor].
  - destruct (matchWsRun_cases c rest) as [[Hc ->]|[Hc ->]].
    + constructor; [right; by apply isWsFree_rev|].
      cbn [app]. constructor.
      * left. unfold isWsToken.
        rewrite firstn_cons. cbn [forallb]. rewrite Hc.
        apply take_spanLen.
      * apply IH; [reflexivity|]. rewrite length_drop. cbn [length]. lia.
    + apply IH; [|lia]. unfold isWsFree in *. cbn [forallb]. rewrite Hc.
      exact Hcur.
Qed.

Lemma tokenize_word_concat text : concat (tokenize text word) = text.
Proof.
  cbn [tokenize]. rewrite concat_filter_nonEmpty. unfold split.
  apply splitLoop_concat.
Qed.

Lemma tokenize_word_shape text :
  Forall (fun t => t <> [] /\ (isWsToken t = true \/ isWsFree t = true))
         (tokenize text word).
Proof.
  cbn [tokenize]. rewrite Forall_forall. intros t Ht.
  apply list_elem_of_In, filter_In in Ht as [Hin Hne].
  split.
  - destruct t; discriminate.
  - pose proof (splitLoop_ws_shape (length text) [] text eq_refl (le_n _)) as H.
    rewrite Forall_forall in H. apply H. apply list_elem_of_In. exact Hin.
Qed.

Lemma isWsFree_not_ws t : t <> [] -> isWsFree t = true -> isWsToken t = false.
Proof.
  destruct t as [|c t]; [congruence|]. intros _. unfold isWsFree, isWsToken.
  cbn [forallb]. intros [Hc _]%andb_prop. apply negb_true_iff in Hc.
  rewrite Hc. reflexivity.
Qed.

Lemma headNotWs_wsfree_app cur rest :
  cur <> [] -> isWsFree cur = true -> headNotWs (rev cur ++ rest) = true.
Proof.
  intros Hne Hfree. apply isWsFree_rev in Hfree.
  destruct (rev cur) as [|x l] eqn:E.
  - apply (f_equal (@rev N)) in E. rewrite rev_involutive in E. cbn in E.
    congruence.
  - cbn [app headNotWs]. unfold isWsFree in Hfree. cbn [forallb] in Hfree.
    apply andb_prop in Hfree as [Hx _]. exact Hx.
Qed.

Lemma headNotWs_drop_span s :
  headNotWs (drop (spanLen isWhiteSpace s) s) = true.
Proof.
  induction s as [|c s IH]; [reflexivity|]. cbn [spanLen].
  destruct (isWhiteSpace c) eqn:Hc.
  - exact IH.
  - cbn [drop headNotWs]. rewrite Hc. reflexivity.
Qed.

Lemma alternates_cons s l :
  isWsToken s = negb (firstIsWs l) \/ l = [] ->
  alternates l = true -> alternates (s :: l) = true.
Proof.
  destruct l as [|t l]; [reflexivity|]. intros [H|H]; [|discriminate].
  cbn [firstIsWs] in H. intros Hl. cbn [alternates] in *. rewrite H, Hl.
  destruct (isWsToken t); reflexivity.
Qed.

(** The scan at word granularity: the pieces kept alternate in kind, and
    the first one is of the kind of the first unit. *)
Lemma splitLoop_ws_alternates fuel cur rest :
  isWsFree cur = true -> length rest <= fuel ->
  alternates (List.filter nonEmpty (splitLoop matchWsRun true fuel cur rest))
  = true
  /\ firstIsWs (List.filter nonEmpty (splitLoop matchWsRun true fuel cur rest))
     = negb (headNotWs (rev cur ++ rest)).
Proof.
  assert (Hlast : forall k, isWsFree k = true ->
            alternates (List.filter nonEmpty [rev k]) = true
            /\ firstIsWs (List.filter nonEmpty [rev k])
               = negb (headNotWs (rev k ++ []))).
  { intros [|x k] Hk; [split; reflexivity|].
    assert (Hne : nonEmpty (rev (x :: k)) = true).
    { unfold nonEmpty. rewrite length_rev. reflexivity. }
    cbn [List.filter]. rewrite Hne. cbn [alternates firstIsWs].
    split; [reflexivity|].
    rewrite isWsFree_not_ws;
      [|intros E; apply (f_equal (@length N)) in E; rewrite length_rev in E;
        discriminate | by apply isWsFree_rev].
    rewrite (headNotWs_wsfree_app (x :: k) [] ltac:(discriminate) Hk).
    reflexivity. }
  revert cur rest. induction fuel as [|fuel IH]; intros cur [|c rest] Hcur Hf;
    cbn [splitLoop length] in *; try lia; try (apply Hlast; exact Hcur).
  destruct (matchWsRun_cases c rest) as [[Hc ->]|[Hc ->]].
  - cbn [app].
    set (W := take (S (spanLen isWhiteSpace rest)) (c :: rest)).
    set (R := List.filter nonEmpty
                (splitLoop matchWsRun true fuel []
                   (drop (S (spanLen isWhiteSpace rest)) (c :: rest)))).
    assert (HW : isWsToken W = true).
    { unfold W, isWsToken. rewrite firstn_cons. cbn [forallb]. rewrite Hc.
      apply take_spanLen. }
    destruct (IH [] (drop (S (spanLen isWhiteSpace rest)) (c :: rest)))
      as [HR1 HR2]; [reflexivity | rewrite length_drop; cbn [length]; lia |].
    fold R in HR1, HR2. cbn [rev app] in HR2.
    change (drop (S (spanLen isWhiteSpace rest)) (c :: rest))
      with (drop (spanLen isWhiteSpace rest) rest) in HR2.
    rewrite headNotWs_drop_span in HR2. cbn [negb] in HR2.
    assert (HWR : alternates (W :: R) = true).
    { apply alternates_cons; [left; rewrite HW, HR2; reflexivity | exact HR1]. }
    cbn [List.filter]. change (nonEmpty W) with true. cbv iota.
    fold R. destruct cur as [|x cur].
    + cbn [rev nonEmpty length Nat.ltb Nat.leb app]. cbv iota.
      split; [exact HWR|]. cbn [firstIsWs headNotWs]. rewrite HW, Hc.
      reflexivity.
    + assert (Hne : nonEmpty (rev (x :: cur)) = true).
      { unfold nonEmpty. rewrite length_rev. reflexivity. }
      rewrite Hne.
      assert (Hk : isWsToken (rev (x :: cur)) = false).
      { apply isWsFree_not_ws; [|by apply isWsFree_rev].
        intros E; apply (f_equal (@length N)) in E; rewrite length_rev in E;
          discriminate. }
      split.
      * apply alternates_cons; [|exact HWR]. left. cbn [firstIsWs].
        rewrite Hk, HW. reflexivity.
      * cbn [firstIsWs]. rewrite Hk.
        rewrite (headNotWs_wsfree_app (x :: cur) (c :: rest)
                   ltac:(discriminate) Hcur).
        reflexivity.
  - destruct (IH (c :: cur) rest) as [H1 H2]; [|lia|].
    { unfold isWsFree in *. cbn [forallb]. rewrite Hc. exact Hcur. }
    split; [exact H1|]. rewrite H2. cbn [rev]. rewrite <- app_assoc.
    reflexivity.
Qed.

Lemma tokenize_word_alternates text : alternates (tokenize text word) = true.
Proof.
  cbn [tokenize]. unfold split.
  apply (splitLoop_ws_alternates (length text) [] text eq_refl (le_n _)).
Qed.

(** A run of units satisfying [p] that stops before a unit failing [p] is
    the whole span. *)
Lemma spanLen_app p (t rest : jsstring) :
  forallb p t = true ->
  match rest with c :: _ => p c = false | [] => True end ->
  spanLen p (t ++ rest) = length t.
Proof.
  intros Ht Hrest. induction t as [|c t IH]; cbn [app spanLen length].
  - destruct rest as [|d rest]; [reflexivity|]. cbn [spanLen]. rewrite Hrest.
    reflexivity.
  - cbn [forallb] in Ht. apply andb_prop in Ht as [-> Ht]. rewrite (IH Ht).
    reflexivity.
Qed.

(** In a list of non-empty, homogeneous, alternating tokens the first one
    is the longest run of its kind at the head of the text. *)
Lemma first_word_token t l :
  Forall (fun t => t <> [] /\ (isWsToken t = true \/ isWsFree t = true)) (t :: l) ->
  alternates (t :: l) = true ->
  t = take (spanLen (if headNotWs (t ++ concat l)
                     then fun c => negb (isWhiteSpace c) else isWhiteSpace)
                    (t ++ concat l))
           (t ++ concat l).
Proof.
  intros Hgood Halt. apply Forall_cons in Hgood as [[Hne Hkind] Hgood].
  assert (Hnext : forall b, isWsToken t = b ->
            match concat l with
            | c :: _ => isWhiteSpace c = negb b
            | [] => True
            end).
  { intros b Hb. destruct l as [|t2 l]; [exact I|].
    apply Forall_cons in Hgood as [[Hne2 Hkind2] _].
    cbn [alternates] in Halt. apply andb_prop in Halt as [Hd _].
    destruct t2 as [|c2 t2]; [congruence|]. cbn [concat app].
    rewrite Hb in Hd. destruct Hkind2 as [H2|H2].
    - rewrite H2 in Hd. destruct b; [discriminate|].
      unfold isWsToken in H2. cbn [forallb] in H2.
      apply andb_prop in H2 as [-> _]. reflexivity.
    - rewrite (isWsFree_not_ws (c2 :: t2) ltac:(discriminate) H2) in Hd.
      destruct b; [|discriminate]. unfold isWsFree in H2. cbn [forallb] in H2.
      apply andb_prop in H2 as [H2 _]. apply negb_true_iff in H2. exact H2. }
  destruct t as [|c t]; [congruence|].
  destruct Hkind as [Hws|Hfree].
  - assert (Hc : isWhiteSpace c = true).
    { unfold isWsToken in Hws. cbn [forallb] in Hws.
      apply andb_prop in Hws as [-> _]. reflexivity. }
    cbn [app headNotWs]. rewrite Hc. cbn [negb].
    change (c :: t ++ concat l) with ((c :: t) ++ concat l).
    rewrite (spanLen_app isWhiteSpace (c :: t) (concat l) Hws).
    + rewrite take_app_length. reflexivity.
    + specialize (Hnext true Hws). destruct (concat l); [exact I | exact Hnext].
  - assert (Hc : isWhiteSpace c = false).
    { unfold isWsFree in Hfree. cbn [forallb] in Hfree.
      apply andb_prop in Hfree as [Hc _]. apply negb_true_iff in Hc. exact Hc. }
    cbn [app headNotWs]. rewrite Hc. cbn [negb].
    change (c :: t ++ concat l) with ((c :: t) ++ concat l).
    rewrite (spanLen_app (fun c => negb (isWhiteSpace c)) (c :: t) (concat l) Hfree).
    + rewrite take_app_length. reflexivity.
    + specialize (Hnext false (isWsFree_not_ws (c :: t) ltac:(discriminate) Hfree)).
      destruct (concat l) as [|d ?]; [exact I|]. cbn beta. rewrite Hnext.
      reflexivity.
Qed.

Lemma alternates_tail t l : alternates (t :: l) = true -> alternates l = true.
Proof.
  destruct l as [|s l]; [reflexivity|]. cbn [alternates].
  intros [_ H]%andb_prop. exact H.
Qed.

(** Non-empty, homogeneous, alternating tokens are determined by their
    concatenation. *)
Lemma word_tokens_unique (l l' : list jsstring) :
  Forall (fun t => t <> [] /\ (isWsToken t = true \/ isWsFree t = true)) l ->
  alternates l = true ->
  Forall (fun t => t <> [] /\ (isWsToken t = true \/ isWsFree t = true)) l' ->
  alternates l' = true ->
  concat l = concat l' -> l = l'.
Proof.
  revert l'. induction l as [|t l IH]; intros [|t' l'] Hg Ha Hg' Ha' Hc.
  - reflexivity.
  - apply Forall_cons in Hg' as [[Hne _] _]. destruct t'; [congruence|].
    discriminate Hc.
  - apply Forall_cons in Hg as [[Hne _] _]. destruct t; [congruence|].
    discriminate Hc.
  - cbn [concat] in Hc.
    pose proof (first_word_token t l Hg Ha) as Ht.
    pose proof (first_word_token t' l' Hg' Ha') as Ht'.
    rewrite Hc in Ht. rewrite <- Ht' in Ht. subst t'.
    apply app_inv_head in Hc.
    apply Forall_cons in Hg as [_ Hg]. apply Forall_cons in Hg' as [_ Hg'].
    f_equal. apply IH; eauto using alternates_tail.
Qed.

(** C2, as the engine behaves: at word granularity the tokenizer cuts the
    text at white-space boundaries and emits every non-empty piece, the
    white-space runs included.  Each token is non-empty and is either a
    run of white space or free of white space; neighbouring tokens are of
    different kinds, so every white-space token is a whole (maximal) run
    of white space and every other token a whole run between two of
    them; the tokens concatenate back to the text; and the token list is
    the only list with these three properties.  So "a  b" gives the
    tokens "a", "  " and "b", and diff("Hello world", "Hello there",
    {granularity: word}) yields three records: unchanged "Hello",
    unchanged " " and modified "world"/"there". *)
Theorem word_tokens_keep_whitespace (toLowerCase : jsstring -> jsstring) :
  (forall text,
     concat (tokenize text word) = text
     /\ Forall (fun t => t <> [] /\ (isWsToken t = true \/ isWsFree t = true))
               (tokenize text word)
     /\ alternates (tokenize text word) = true)
  /\ (forall text l,
        concat l = text ->
        Forall (fun t => t <> [] /\ (isWsToken t = true \/ isWsFree t = true)) l ->
        alternates l = true ->
        l = tokenize text word)
  /\ tokenize (js "a  b") word = [js "a"; js "  "; js "b"]
  /\ tokenize (js "Hello world") word = [js "Hello"; js " "; js "world"]
  /\ diff toLowerCase (js "Hello world") (js "Hello there") wordOptions
     = {| changes :=
            [ plainChange Unchanged (Some (js "Hello")) (Some (js "Hello"));
              plainChange Unchanged (Some (js " ")) (Some (js " "));
              plainChange Modified (Some (js "world")) (Some (js "there")) ];
          stats := {| stat_added := 0; stat_removed := 0;
                      stat_modified := 1; stat_unchanged := 2 |} |}.
Proof.
  split; [|split; [|split; [|split]]].
  - intros text. split; [apply tokenize_word_concat|].
    split; [apply tokenize_word_shape | apply tokenize_word_alternates].
  - intros text l Hc Hg Ha.
    apply word_tokens_unique;
      [exact Hg | exact Ha | apply tokenize_word_shape
      | apply tokenize_word_alternates | ].
    rewrite tokenize_word_concat. exact Hc.
  - reflexivity.
  - reflexivity.
  - vm_compute. reflexivity.
Qed.

(** C2 as stated fails: the change list of diff("Hello world",
    "Hello there", {granularity: word}) is not the two records
    unchanged "Hello", modified "world"/"there"; its second record is the
    unchanged white-space token " ", which the tokenizer emitted. *)
Lemma word_diff_has_whitespace_record :
  (fun c => (type c, original c, modified c))
    <$> changes (diff asciiToLowerCase (js "Hello world") (js "Hello there")
                   wordOptions)
  <> [ (Unchanged, Some (js "Hello"), Some (js "Hello"));
       (Modified, Some (js "world"), Some (js "there")) ]
  /\ changes (diff asciiToLowerCase (js "Hello world") (js "Hello there")
                wordOptions) !! 1
     = Some (plainChange Unchanged (Some (js " ")) (Some (js " ")))
  /\ js " " ∈ tokenize (js "Hello world") word.
Proof.
  split; [|split].
  - vm_compute. discriminate.
  - vm_compute. reflexivity.
  - vm_compute. apply list_elem_of_In. cbn. tauto.
Qed.

(* ====================================================================== *)
(** * Aligner                                                              *)
(* ====================================================================== *)

(** C3, as the engine behaves: in the backtrack, at a step where the two
    current tokens are unequal and dp[i-1][j] > dp[i][j-1] does not hold,
    the modified-side pointer j is decremented and the original-side
    pointer i is left as it is. *)
Theorem backtrack_tie_decrements_j {T} `{EqDecision T}
    (arr1 arr2 : list T) (st : Backtrack (T:=T)) :
  arr1 !! (bt_i st - 1) <> arr2 !! (bt_j st - 1) ->
  ~ (dpGet (dpFill arr1 arr2) (bt_i st - 1) (bt_j st)
     > dpGet (dpFill arr1 arr2) (bt_i st) (bt_j st - 1)) ->
  backtrackStep arr1 arr2 (dpFill arr1 arr2) st
  = {| bt_i := bt_i st; bt_j := bt_j st - 1; bt_result := bt_result st |}.
Proof.
  intros Hne Htie. unfold backtrackStep, strictEq.
  rewrite bool_decide_eq_false_2 by exact Hne.
  destruct (_ <? _) eqn:Hlt; [|reflexivity].
  apply Nat.ltb_lt in Hlt. lia.
Qed.

Lemma backtrack_tie_decrements_j_witness :
  backtrackStep [js "a"] [js "b"] (dpFill [js "a"] [js "b"])
    {| bt_i := 1; bt_j := 1; bt_result := [] |}
  = {| bt_i := 1; bt_j := 0; bt_result := [] |}.
Proof.
  apply (backtrack_tie_decrements_j [js "a"] [js "b"]
           {| bt_i := 1; bt_j := 1; bt_result := [] |}).
  - vm_compute. discriminate.
  - vm_compute. lia.
Defined.

(** C3 as stated fails: aligning ["a"] with ["b"], at i = j = 1 the tokens
    differ and dp[0][1] > dp[1][0] does not hold, yet the step leaves
    i = 1 and moves j to 0.  The choice shows in the result:
    lcs(["a","b"], ["b","a"]) is ["b"], where moving i would give ["a"]. *)
Lemma backtrack_tie_keeps_i :
  [js "a"] !! (1 - 1) <> [js "b"] !! (1 - 1)
  /\ ~ (dpGet (dpFill [js "a"] [js "b"]) (1 - 1) 1
        > dpGet (dpFill [js "a"] [js "b"]) 1 (1 - 1))
  /\ bt_i (backtrackStep [js "a"] [js "b"] (dpFill [js "a"] [js "b"])
             {| bt_i := 1; bt_j := 1; bt_result := [] |}) = 1
  /\ bt_j (backtrackStep [js "a"] [js "b"] (dpFill [js "a"] [js "b"])
             {| bt_i := 1; bt_j := 1; bt_result := [] |}) = 0
  /\ lcs [js "a"; js "b"] [js "b"; js "a"] = [js "b"].
Proof.
  repeat split; try (vm_compute; (discriminate || lia || reflexivity)).
Qed.

Lemma backtrackLoop_self {T} `{EqDecision T} (X : list T) dp fuel i res :
  i <= length X -> i <= fuel ->
  bt_result (backtrackLoop X X dp fuel {| bt_i := i; bt_j := i; bt_result := res |})
  = take i X ++ res.
Proof.
  revert i res. induction fuel as [|fuel IH]; intros i res Hi Hf.
  - replace i with 0 by lia. reflexivity.
  - cbn [backtrackLoop bt_i bt_j]. destruct i as [|i]; [reflexivity|].
    cbn [Nat.ltb Nat.leb andb]. unfold backtrackStep. cbn [bt_i bt_j bt_result].
    rewrite strictEq_refl. replace (S i - 1) with i by lia.
    destruct (lookup_lt_is_Some_2 X i) as [x Hx]; [lia|].
    rewrite Hx, IH by lia.
    rewrite (take_S_r _ _ _ Hx), <- app_assoc. reflexivity.
Qed.

(** A sequence is its own longest common subsequence. *)
Lemma lcs_self {T} `{EqDecision T} (X : list T) : lcs X X = X.
Proof.
  unfold lcs. rewrite backtrackLoop_self by lia.
  rewrite firstn_all, app_nil_r. reflexivity.
Qed.

(* ====================================================================== *)
(** * Diff of a text with itself, and of empty texts                       *)
(* ====================================================================== *)

Section SelfDiff.
Variable toLowerCase : jsstring -> jsstring.
Variable options : DiffOptions.
Variables tk nm : list jsstring.
Hypothesis Hlen : length nm = length tk.

(** Walking a token list against itself, with itself as anchor, pushes
    one unchanged record per token. *)
Lemma diffLoop_self fuel st :
  w_j st = w_i st -> w_k st = w_i st -> length tk - w_i st <= fuel ->
  exists cs,
    w_changes (diffLoop toLowerCase options tk tk nm nm nm fuel st)
    = w_changes st ++ cs
    /\ Forall (fun c => type c = Unchanged) cs
    /\ original <$> cs = Some <$> drop (w_i st) tk.
Proof using Hlen.
  revert st. induction fuel as [|fuel IH]; intros st Hj Hk Hf.
  - exists []. rewrite app_nil_r, drop_ge by lia. by cbn.
  - cbn [diffLoop]. unfold walking. rewrite Hj, orb_diag.
    destruct (w_i st <? length tk) eqn:Hi.
    + apply Nat.ltb_lt in Hi.
      destruct (lookup_lt_is_Some_2 tk (w_i st) Hi) as [x Hx].
      destruct (IH (diffStep toLowerCase options tk tk nm nm nm st))
        as (cs & Hcs & Hall & Horig).
      1-3: unfold diffStep; rewrite Hj, Hk, Hlen;
           apply Nat.ltb_lt in Hi; rewrite Hi, !strictEq_refl; cbn; lia.
      revert Hcs Horig. unfold diffStep. rewrite Hj, Hk, Hlen.
      pose proof Hi as Hi'. apply Nat.ltb_lt in Hi'. rewrite Hi', !strictEq_refl.
      cbn [andb w_changes w_i]. intros Hcs Horig.
      eexists (_ :: cs). split; [|split].
      * rewrite Hcs, <- app_assoc. reflexivity.
      * constructor; [reflexivity | exact Hall].
      * rewrite (drop_S _ _ _ Hx). cbn. rewrite Hx. f_equal. exact Horig.
    + apply Nat.ltb_ge in Hi. exists [].
      rewrite app_nil_r, drop_ge by lia. by cbn.
Qed.
End SelfDiff.

Lemma diff_self_changes toLowerCase (T : jsstring) (o : DiffOptions) :
  Forall (fun c => type c = Unchanged) (changes (diff toLowerCase T T o))
  /\ original <$> changes (diff toLowerCase T T o)
     = Some <$> tokenize T (granularityOf o).
Proof.
  unfold diff. cbn [changes]. rewrite lcs_self.
  set (tk := tokenize T (granularityOf o)).
  set (nm := List.map _ tk).
  destruct (diffLoop_self toLowerCase o tk nm (length_map _ _)
              (length tk + length tk) walkStart)
    as (cs & Hcs & Hall & Horig); [reflexivity | reflexivity | cbn; lia |].
  rewrite Hcs. cbn. split; assumption.
Qed.

(** C5: for every text T and every options value, every change record of
    diff(T, T, opts) has kind unchanged; there are no added, removed or
    modified entries. *)
Theorem diff_self_unchanged (toLowerCase : jsstring -> jsstring)
    (T : jsstring) (o : DiffOptions) :
  Forall (fun c => type c = Unchanged) (changes (diff toLowerCase T T o))
  /\ stat_added (stats (diff toLowerCase T T o)) = 0
  /\ stat_removed (stats (diff toLowerCase T T o)) = 0
  /\ stat_modified (stats (diff toLowerCase T T o)) = 0.
Proof.
  destruct (diff_self_changes toLowerCase T o) as [Hall _].
  split; [exact Hall|].
  unfold diff in *.
  cbn [changes stats computeStats stat_added stat_removed stat_modified] in *.
  repeat split; apply countType_none;
    (eapply Forall_impl; [exact Hall|]); cbn; intros c ->; discriminate.
Qed.

(** C4, as the engine behaves: diff("", "", opts) returns an empty change
    list and all-zero stats for every granularity but line; at line
    granularity (the default) the empty text is one empty line, and the
    result is a single unchanged record of that line, numbered 1 on both
    sides, with stats.unchanged = 1. *)
Theorem diff_empty_texts (toLowerCase : jsstring -> jsstring) (o : DiffOptions) :
  diff toLowerCase [] [] o
  = if decide (granularityOf o = line)
    then {| changes := [emptyLineChange];
            stats := {| stat_added := 0; stat_removed := 0;
                        stat_modified := 0; stat_unchanged := 1 |} |}
    else {| changes := []; stats := noStats |}.
Proof.
  destruct (decide (granularityOf o = line)) as [Hg|Hg].
  - unfold diff. rewrite lcs_self, Hg.
    change (tokenize [] line) with [[] : jsstring].
    cbn [List.map length Nat.add].
    set (nm := normalize toLowerCase [] _ _).
    assert (Hstep :
      diffStep toLowerCase o [[]] [[]] [nm] [nm] [nm] walkStart
      = {| w_i := 1; w_j := 1; w_k := 1;
           w_originalLine := 2; w_modifiedLine := 2;
           w_changes := [emptyLineChange] |}).
    { unfold diffStep, walkStart, unchangedChange, lineNo, nextLine.
      cbn [w_i w_j w_k w_changes w_originalLine w_modifiedLine].
      rewrite Hg. simpl. rewrite !strictEq_refl. reflexivity. }
    cbn [diffLoop].
    change (walking [[]] [[]] walkStart) with true. cbv iota.
    rewrite Hstep. reflexivity.
  - unfold diff. destruct (granularityOf o); try congruence; reflexivity.
Qed.

(** C4 as stated fails: with the default options (line granularity),
    diff("", "") has one change record and stats.unchanged = 1. *)
Lemma diff_empty_default_has_one_record :
  length (changes (diff asciiToLowerCase (js "") (js "") defaultOptions)) = 1
  /\ stat_unchanged (stats (diff asciiToLowerCase (js "") (js "") defaultOptions))
     = 1.
Proof. split; vm_compute; reflexivity. Qed.

(* ====================================================================== *)
(** * Merge generator                                                      *)
(* ====================================================================== *)

Lemma split_lines_join fuel cur rest :
  hasCRLF rest = false -> length rest <= fuel ->
  join [LF] (splitLoop matchLineBreak false fuel cur rest) = rev cur ++ rest.
Proof.
  revert cur rest. induction fuel as [|fuel IH]; intros cur [|c rest] Hno Hf;
    cbn [splitLoop join]; rewrite ?app_nil_r; try reflexivity.
  cbn [length] in Hf.
  assert (Hrest : hasCRLF rest = false).
  { destruct rest as [|d rest]; [reflexivity|]. cbn [hasCRLF] in Hno.
    apply orb_false_elim in Hno as [_ H]. exact H. }
  assert (Hm : matchLineBreak (c :: rest)
               = if (c =? LF)%N then Some 1 else None).
  { destruct rest as [|d rest]; [reflexivity|]. cbn [hasCRLF] in Hno.
    apply orb_false_elim in Hno as [H _]. cbn [matchLineBreak]. rewrite H.
    reflexivity. }
  rewrite Hm. destruct (c =? LF)%N eqn:Hc.
  - apply N.eqb_eq in Hc. subst c. cbn [app].
    change (drop 1 (LF :: rest)) with rest.
    rewrite join_cons by apply splitLoop_nonempty.
    rewrite IH by (assumption || lia). reflexivity.
  - rewrite IH by (assumption || lia). cbn [rev]. rewrite <- app_assoc.
    reflexivity.
Qed.

Lemma merge_unchanged (cs : list DiffChange) (f : nat -> Decision) :
  Forall (fun c => type c = Unchanged) cs ->
  concat (imap (fun index change => mergeEntry change (f index)) cs)
  = (fun c => orEmpty (original c)) <$> cs.
Proof.
  intros Hall. revert f. induction Hall as [|c cs Hc _ IH]; intros f;
    [reflexivity|].
  rewrite imap_cons. cbn [concat fmap list_fmap]. unfold mergeEntry at 1.
  rewrite Hc. cbn [app]. f_equal. apply (IH (f ∘ S)).
Qed.

(** Replaying a self-diff joins the tokens of the text with line feeds,
    whatever the decisions. *)
Lemma merge_self toLowerCase (T : jsstring) (o : DiffOptions)
    (d : gmap nat Decision) :
  generateMergedText (changes (diff toLowerCase T T o)) d
  = join [LF] (tokenize T (granularityOf o)).
Proof.
  destruct (diff_self_changes toLowerCase T o) as [Hall Horig].
  unfold generateMergedText.
  rewrite (merge_unchanged _ (fun index => default keep (d !! index)) Hall).
  f_equal.
  change (fun c => orEmpty (original c)) with (orEmpty ∘ original).
  rewrite list_fmap_compose, Horig, <- list_fmap_compose.
  apply list_fmap_id.
Qed.

(** C6, as the engine behaves: for every text T in which no carriage
    return is immediately followed by a line feed, every options value
    whose granularity is line (or absent, the default) and every decision
    map, replaying the change list of diff(T, T, opts) through
    generateMergedText reconstructs T exactly. *)
Theorem merge_self_lines (toLowerCase : jsstring -> jsstring) (T : jsstring)
    (o : DiffOptions) (d : gmap nat Decision) :
  granularityOf o = line -> hasCRLF T = false ->
  generateMergedText (changes (diff toLowerCase T T o)) d = T.
Proof.
  intros Hg Hno. rewrite merge_self, Hg. cbn [tokenize]. unfold split.
  rewrite split_lines_join by (assumption || lia). reflexivity.
Qed.

Lemma merge_self_lines_witness :
  generateMergedText
    (changes (diff asciiToLowerCase (js "line1" ++ [LF] ++ js "line2")
                (js "line1" ++ [LF] ++ js "line2") defaultOptions)) ∅
  = js "line1" ++ [LF] ++ js "line2".
Proof.
  apply (merge_self_lines asciiToLowerCase (js "line1" ++ [LF] ++ js "line2")
           defaultOptions ∅); reflexivity.
Defined.

(** C6 as stated fails: the merge joins the records with line feeds, so a
    self-diff of "a\r\nb" at line granularity is replayed as "a\nb", and
    a self-diff of "Hello world" at word granularity as
    "Hello\n \nworld". *)
Lemma merge_self_not_identity :
  generateMergedText
    (changes (diff asciiToLowerCase (js "a" ++ [CR; LF] ++ js "b")
                (js "a" ++ [CR; LF] ++ js "b") defaultOptions)) ∅
  = js "a" ++ [LF] ++ js "b"
  /\ js "a" ++ [LF] ++ js "b" <> js "a" ++ [CR; LF] ++ js "b"
  /\ generateMergedText
       (changes (diff asciiToLowerCase (js "Hello world") (js "Hello world")
                   wordOptions)) ∅
     = js "Hello" ++ [LF] ++ js " " ++ [LF] ++ js "world"
  /\ js "Hello" ++ [LF] ++ js " " ++ [LF] ++ js "world" <> js "Hello world".
Proof.
  repeat split; try (vm_compute; reflexivity); vm_compute; discriminate.
Qed.

(* ====================================================================== *)
(** * The similarity threshold                                             *)
(* ====================================================================== *)

Section Threshold.
Variable toLowerCase : jsstring -> jsstring.
Variable o : DiffOptions.
Variables t1 t2 : option float.
Variables tokens1 tokens2 normalized1 normalized2 common : list jsstring.

Lemma modifiedChange_threshold i j ol ml :
  exceptExplanation
    (modifiedChange toLowerCase (withThreshold o t1) tokens1 tokens2 i j ol ml)
  = exceptExplanation
      (modifiedChange toLowerCase (withThreshold o t2) tokens1 tokens2 i j ol ml).
Proof.
  unfold modifiedChange. cbn [semanticAnalysis withThreshold].
  destruct (truthy (semanticAnalysis o)); reflexivity.
Qed.

Lemma diffStep_threshold s1 s2 :
  sameWalk s1 s2 ->
  sameWalk
    (diffStep toLowerCase (withThreshold o t1) tokens1 tokens2
       normalized1 normalized2 common s1)
    (diffStep toLowerCase (withThreshold o t2) tokens1 tokens2
       normalized1 normalized2 common s2).
Proof.
  destruct s1 as [i1 j1 k1 ol1 ml1 cs1], s2 as [i2 j2 k2 ol2 ml2 cs2].
  unfold sameWalk. cbn [w_i w_j w_k w_originalLine w_modifiedLine w_changes].
  intros (-> & -> & -> & -> & -> & Hcs).
  unfold diffStep. cbn [w_i w_j w_k w_originalLine w_modifiedLine w_changes].
  repeat (match goal with
          | |- context [if ?b then _ else _] => destruct b
          end);
    cbn [w_i w_j w_k w_originalLine w_modifiedLine w_changes];
    rewrite ?fmap_app, ?Hcs; repeat split; try assumption;
    f_equal; cbn [fmap list_fmap]; f_equal; apply modifiedChange_threshold.
Qed.

Lemma diffLoop_threshold fuel s1 s2 :
  sameWalk s1 s2 ->
  sameWalk
    (diffLoop toLowerCase (withThreshold o t1) tokens1 tokens2
       normalized1 normalized2 common fuel s1)
    (diffLoop toLowerCase (withThreshold o t2) tokens1 tokens2
       normalized1 normalized2 common fuel s2).
Proof.
  revert s1 s2. induction fuel as [|fuel IH]; intros s1 s2 Hs; [exact Hs|].
  cbn [diffLoop].
  assert (Hw : walking tokens1 tokens2 s1 = walking tokens1 tokens2 s2).
  { unfold walking. destruct Hs as (-> & -> & _). reflexivity. }
  rewrite Hw. destruct (walking tokens1 tokens2 s2); [|exact Hs].
  apply IH, diffStep_threshold, Hs.
Qed.
End Threshold.

(** C7: for every pair of texts and every two options values that differ
    only in similarityThreshold, the two results of [diff] have the same
    change kinds, original and modified texts, line numbers, similarity
    scores and key words, record by record, and the same stats; the
    threshold can only change the explanation. *)
Theorem threshold_only_rewords (toLowerCase : jsstring -> jsstring)
    (a b : jsstring) (o : DiffOptions) (t1 t2 : option float) :
  exceptExplanation <$> changes (diff toLowerCase a b (withThreshold o t1))
  = exceptExplanation <$> changes (diff toLowerCase a b (withThreshold o t2))
  /\ stats (diff toLowerCase a b (withThreshold o t1))
     = stats (diff toLowerCase a b (withThreshold o t2)).
Proof.
  unfold diff. cbn [changes stats].
  change (granularityOf (withThreshold o t1)) with (granularityOf o).
  change (granularityOf (withThreshold o t2)) with (granularityOf o).
  cbn [ignoreWhitespace ignoreCase withThreshold].
  match goal with
  | |- context [diffLoop _ (withThreshold o t1) ?x1 ?x2 ?n1 ?n2 ?cm ?fuel ?st] =>
      pose proof (diffLoop_threshold toLowerCase o t1 t2 x1 x2 n1 n2 cm fuel st st)
        as H
  end.
  destruct H as (_ & _ & _ & _ & _ & Hcs); [repeat split|].
  split; [exact Hcs|].
  unfold computeStats. f_equal; apply countType_exceptExplanation, Hcs.
Qed.

(** The threshold does choose the wording: "The quick fox" against
    "The fast fox" scores 0.627, reworded under threshold 0.5 and
    significantly modified under 0.9. *)
Example threshold_changes_explanation :
  explanation
    <$> changes (diff asciiToLowerCase (js "The quick fox") (js "The fast fox")
                   (withThreshold semanticOptions (Some 0.5%float)))
  = [Some (js "Reworded with 63% similarity. Key changes: added "
           ++ [QUOTE] ++ js "fast" ++ [QUOTE] ++ js " removed "
           ++ [QUOTE] ++ js "quick" ++ [QUOTE])]
  /\ explanation
       <$> changes (diff asciiToLowerCase (js "The quick fox") (js "The fast fox")
                      (withThreshold semanticOptions (Some 0.9%float)))
     = [Some (js "Significantly modified. New focus: fast")].
Proof. split; vm_compute; reflexivity. Qed.

(* ====================================================================== *)
(** * Semantic scorer                                                      *)
(* ====================================================================== *)

Lemma foldl_setAdd_spec (l acc : list jsstring) :
  NoDup acc ->
  NoDup (foldl setAdd acc l)
  /\ forall x, x ∈ foldl setAdd acc l <-> x ∈ acc \/ x ∈ l.
Proof.
  revert acc. induction l as [|w l IH]; intros acc Hnd; cbn [foldl].
  - split; [exact Hnd|]. intros x. rewrite elem_of_nil. tauto.
  - unfold setAdd at 2 4. case_bool_decide as Hin.
    + destruct (IH acc Hnd) as [H1 H2]. split; [exact H1|].
      intros x. rewrite H2, elem_of_cons. split; [tauto|].
      intros [?|[->|?]]; auto.
    + destruct (IH (acc ++ [w])) as [H1 H2].
      { apply NoDup_app. split; [exact Hnd|]. split; [|apply NoDup_singleton].
        intros x Hx ->%list_elem_of_singleton. contradiction. }
      split; [exact H1|].
      intros x.
      rewrite H2, elem_of_app, list_elem_of_singleton, elem_of_cons. tauto.
Qed.

Lemma newSet_NoDup l : NoDup (newSet l).
Proof. apply foldl_setAdd_spec, NoDup_nil_2. Qed.

Lemma elem_of_newSet l x : x ∈ newSet l <-> x ∈ l.
Proof.
  unfold newSet. destruct (foldl_setAdd_spec l [] (NoDup_nil_2)) as [_ H].
  rewrite H, elem_of_nil. tauto.
Qed.

Lemma list_to_set_newSet l :
  list_to_set (newSet l) = (list_to_set l : gset jsstring).
Proof.
  apply set_eq. intros x. rewrite !elem_of_list_to_set. apply elem_of_newSet.
Qed.

(** The size of a [Set] is the cardinal of the set of its items. *)
Lemma length_newSet l : length (newSet l) = size (list_to_set l : gset jsstring).
Proof.
  rewrite <- list_to_set_newSet. symmetry. apply size_list_to_set, newSet_NoDup.
Qed.

Lemma list_to_set_filter_has (l1 l2 : list jsstring) :
  list_to_set (List.filter (has l2) l1)
  = (list_to_set l1 ∩ list_to_set l2 : gset jsstring).
Proof.
  apply set_eq. intros x.
  rewrite elem_of_intersection, !elem_of_list_to_set, !list_elem_of_In, filter_In.
  unfold has. rewrite bool_decide_eq_true, list_elem_of_In. reflexivity.
Qed.

(** C8, as the engine behaves: for every two strings a and b,
    computeSemanticSimilarity(a, b) equals 0.7 × Jaccard(wordSet(a),
    wordSet(b)) + 0.3 × (min(len(a), len(b)) / max(len(a), len(b))), where
    the word set of a text is the set of the maximal runs of word
    characters (ASCII letters, digits and the underscore) of the
    lower-cased text and Jaccard is |intersection|/|union|; the result is
    1.0 when both word sets are empty and 0.0 when exactly one is. *)
Theorem similarity_formula (toLowerCase : jsstring -> jsstring) (a b : jsstring) :
  computeSemanticSimilarity toLowerCase a b
  = similarityFormula (wordCharRuns toLowerCase) a b.
Proof.
  unfold computeSemanticSimilarity, similarityFormula, wordSet, wordCharRuns,
    Jaccard, lengthRatio.
  rewrite !length_newSet, list_to_set_filter_has, list_to_set_app_L,
    !list_to_set_newSet.
  rewrite !(float_mul_comm 0.7). rewrite !(float_mul_comm 0.3).
  reflexivity.
Qed.

(** C8 as stated fails: with the word sets read as the alphanumeric runs,
    "a_b" and "a b" have the same word set {a, b} and the formula gives
    1.0, while the engine, for which "a_b" is one word, returns 0.3. *)
Lemma similarity_alphanumeric_reading_differs :
  computeSemanticSimilarity asciiToLowerCase (js "a_b") (js "a b")
  = 0.29999999999999999%float
  /\ similarityFormula (alphanumericRuns asciiToLowerCase) (js "a_b") (js "a b")
     = 1%float
  /\ (computeSemanticSimilarity asciiToLowerCase (js "a_b") (js "a b")
      =? similarityFormula (alphanumericRuns asciiToLowerCase)
           (js "a_b") (js "a b"))%float
     = false.
Proof. repeat split; vm_compute; reflexivity. Qed.

(* ====================================================================== *)
(** * Streaming coordinator                                                *)
(* ====================================================================== *)

(** C9: for every pair of texts below the chunking threshold (the longer
    text has at most ten times chunkSize units), streamDiff yields exactly
    two events: progress 50 with complete = false, then progress 100 with
    complete = true, which ends the sequence; both carry the same,
    complete, result of [diff]. *)
Theorem streamDiff_small (toLowerCase : jsstring -> jsstring)
    (original modified : jsstring) (o : DiffOptions) (chunkSize : nat) :
  Nat.max (length original) (length modified) <= chunkSize * 10 ->
  streamDiff toLowerCase original modified o chunkSize
  = Yields
      [ {| progress := 50%float;
           partial := Some (diff toLowerCase original modified o);
           complete := false |};
        {| progress := 100%float;
           partial := Some (diff toLowerCase original modified o);
           complete := true |} ].
Proof.
  intros Hsmall. unfold streamDiff.
  destruct (_ <? _) eqn:Hlt; [|reflexivity].
  apply Nat.ltb_lt in Hlt. lia.
Qed.

Lemma streamDiff_small_witness :
  streamDiff asciiToLowerCase (js "ab cd") (js "ab ce") defaultOptions 1000
  = Yields
      [ {| progress := 50%float;
           partial := Some (diff asciiToLowerCase (js "ab cd") (js "ab ce")
                              defaultOptions);
           complete := false |};
        {| progress := 100%float;
           partial := Some (diff asciiToLowerCase (js "ab cd") (js "ab ce")
                              defaultOptions);
           complete := true |} ].
Proof.
  apply (streamDiff_small asciiToLowerCase (js "ab cd") (js "ab ce")
           defaultOptions 1000).
  vm_compute. lia.
Defined.

(** Above the threshold the coordinator works chunk by chunk: one event
    per chunk pair, then the final one. *)
Example streamDiff_chunked :
  match streamDiff asciiToLowerCase (js "abcdefghijklm") (js "abcxefghijklm")
          defaultOptions 1 with
  | Yields events =>
      length events = 14
      /\ complete <$> events = replicate 13 false ++ [true]
      /\ (fun e => length <$> (changes <$> partial e)) <$> events
         = (Some <$> seq 1 13) ++ [Some 13]
  | Throws => False
  end.
Proof. vm_compute. repeat split. Qed.

(* ====================================================================== *)
(** * Character diff                                                       *)
(* ====================================================================== *)

Lemma charsOf_push (s : jsstring) res i t :
  i < length s -> charsOf res = take i s ->
  charsOf (res ++ [{| char := orEmpty (splitChars s !! i); tag := t |}])
  = take (S i) s.
Proof.
  intros Hi Hres. destruct (lookup_lt_is_Some_2 s i Hi) as [x Hx].
  unfold charsOf in *. rewrite fmap_app, concat_app, Hres, splitChars_lookup, Hx.
  cbn. rewrite (take_S_r _ _ _ Hx). reflexivity.
Qed.

Ltac push_tag :=
  apply Forall_app; split;
  [assumption
  | constructor; [(left; reflexivity) || (right; reflexivity) | constructor]].

Section CharLoop.
Variables original modified : jsstring.

Lemma charStep_inv st :
  charWalking (splitChars original) (splitChars modified) st = true ->
  charInv original modified st ->
  charInv original modified
    (charStep (splitChars original) (splitChars modified) st)
  /\ charRemaining original modified
       (charStep (splitChars original) (splitChars modified) st)
     < charRemaining original modified st.
Proof.
  unfold charWalking, charInv, charRemaining. rewrite !length_splitChars.
  intros Hw (Ho & Hm & Hco & Hcm & Hto & Htm).
  unfold charStep. rewrite !length_splitChars.
  destruct (strictEq _ _ && _ && _) eqn:Heq.
  - apply andb_prop in Heq as [Heq Hmd]. apply andb_prop in Heq as [_ Hod].
    apply bool_decide_eq_true in Hod, Hmd.
    rewrite splitChars_lookup in Hod, Hmd.
    assert (origIdx st < length original).
    { apply lookup_lt_is_Some. destruct (original !! origIdx st); [eauto|done]. }
    assert (modIdx st < length modified).
    { apply lookup_lt_is_Some. destruct (modified !! modIdx st); [eauto|done]. }
    cbn [origIdx modIdx origResult modResult].
    rewrite !charsOf_push by assumption.
    repeat split; try lia; push_tag.
  - clear Heq. destruct (length original <=? origIdx st) eqn:H1.
    + apply Nat.leb_le in H1.
      assert (modIdx st < length modified).
      { apply orb_prop in Hw as [Hw|Hw]; apply Nat.ltb_lt in Hw; lia. }
      cbn [origIdx modIdx origResult modResult].
      rewrite !charsOf_push by assumption.
      repeat split; try lia; try assumption; push_tag.
    + apply Nat.leb_gt in H1. destruct (length modified <=? modIdx st) eqn:H2.
      * apply Nat.leb_le in H2.
        cbn [origIdx modIdx origResult modResult].
        rewrite !charsOf_push by assumption.
        repeat split; try lia; try assumption; push_tag.
      * apply Nat.leb_gt in H2.
        cbn [origIdx modIdx origResult modResult].
        rewrite !charsOf_push by assumption.
        repeat split; try lia; push_tag.
Qed.

Lemma charLoop_inv fuel st :
  charInv original modified st -> charRemaining original modified st <= fuel ->
  charInv original modified
    (charLoop (splitChars original) (splitChars modified) fuel st)
  /\ charWalking (splitChars original) (splitChars modified)
       (charLoop (splitChars original) (splitChars modified) fuel st) = false.
Proof.
  revert st. induction fuel as [|fuel IH]; intros st Hinv Hf; cbn [charLoop].
  - split; [exact Hinv|]. unfold charWalking, charRemaining in *.
    rewrite !length_splitChars. apply orb_false_intro; apply Nat.ltb_ge; lia.
  - destruct (charWalking _ _ st) eqn:Hw; [|split; [exact Hinv | exact Hw]].
    destruct (charStep_inv st Hw Hinv) as [Hinv' Hlt].
    apply IH; [exact Hinv' | lia].
Qed.
End CharLoop.

(** C10: for every pair of strings, computeCharacterDiff returns two
    tagged character lists; concatenating the char fields of the
    original-side list, whose tags are removed or unchanged, gives back
    the original input, and concatenating those of the modified-side
    list, whose tags are added or unchanged, gives back the modified
    input. *)
Theorem computeCharacterDiff_spells_inputs (original modified : jsstring) :
  charsOf (cd_original (computeCharacterDiff original modified)) = original
  /\ charsOf (cd_modified (computeCharacterDiff original modified)) = modified
  /\ Forall origTagOk (cd_original (computeCharacterDiff original modified))
  /\ Forall modTagOk (cd_modified (computeCharacterDiff original modified)).
Proof.
  unfold computeCharacterDiff. cbn [cd_original cd_modified].
  rewrite !length_splitChars.
  set (start := {| origIdx := 0; modIdx := 0; origResult := []; modResult := [] |}).
  destruct (charLoop_inv original modified
              (length original + length modified) start)
    as [(Ho & Hm & Hco & Hcm & Hto & Htm) Hexit].
  - unfold charInv, start. cbn. repeat split; try lia; constructor.
  - unfold charRemaining, start. cbn. lia.
  - unfold charWalking in Hexit. rewrite !length_splitChars in Hexit.
    apply orb_false_elim in Hexit as [H1 H2].
    apply Nat.ltb_ge in H1, H2.
    rewrite Hco, Hcm. rewrite (take_ge original), (take_ge modified) by lia.
    auto.
Qed.

(* ====================================================================== *)
(** * Classifier: what a round does, and the loop invariant                *)
(* ====================================================================== *)

Lemma strictEq_true {A} `{EqDecision A} (a b : A) : strictEq a b = true <-> a = b.
Proof. unfold strictEq. apply bool_decide_eq_true. Qed.

Lemma strictEq_false {A} `{EqDecision A} (a b : A) : strictEq a b = false <-> a <> b.
Proof. unfold strictEq. apply bool_decide_eq_false. Qed.

Ltac bool_facts :=
  repeat match goal with
         | H : (_ <? _) = true |- _ => apply Nat.ltb_lt in H
         | H : (_ <? _) = false |- _ => apply Nat.ltb_ge in H
         | H : strictEq _ _ = true |- _ => apply (proj1 (strictEq_true _ _)) in H
         | H : strictEq _ _ = false |- _ => apply (proj1 (strictEq_false _ _)) in H
         end.

Section WalkCases.
Variable toLowerCase : jsstring -> jsstring.
Variable options : DiffOptions.
Variables tokens1 tokens2 normalized1 normalized2 common : list jsstring.

(** The six ways a round of the classifier goes. *)
Lemma diffStep_cases st :
  walking tokens1 tokens2 st = true ->
  let i := w_i st in
  let j := w_j st in
  let k := w_k st in
  let ol := w_originalLine st in
  let ml := w_modifiedLine st in
  let next := diffStep toLowerCase options tokens1 tokens2 normalized1 normalized2 common st in
  (i < length tokens1 /\ j < length tokens2 /\ k < length common
   /\ normalized1 !! i = normalized2 !! j /\ normalized1 !! i = common !! k
   /\ next = {| w_i := S i; w_j := S j; w_k := S k;
                w_originalLine := nextLine options ol;
                w_modifiedLine := nextLine options ml;
                w_changes := w_changes st
                  ++ [unchangedChange options tokens1 tokens2 i j ol ml] |})
  \/ (i < length tokens1 /\ j < length tokens2 /\ k < length common
      /\ normalized1 !! i = common !! k /\ normalized2 !! j <> common !! k
      /\ next = {| w_i := i; w_j := S j; w_k := k;
                   w_originalLine := ol; w_modifiedLine := nextLine options ml;
                   w_changes := w_changes st ++ [addedChange options tokens2 j ml] |})
  \/ (i < length tokens1 /\ j < length tokens2 /\ k < length common
      /\ normalized1 !! i <> common !! k /\ normalized2 !! j = common !! k
      /\ next = {| w_i := S i; w_j := j; w_k := k;
                   w_originalLine := nextLine options ol; w_modifiedLine := ml;
                   w_changes := w_changes st ++ [removedChange options tokens1 i ol] |})
  \/ (i < length tokens1 /\ j < length tokens2
      /\ (k < length common ->
          normalized1 !! i <> common !! k /\ normalized2 !! j <> common !! k)
      /\ next = {| w_i := S i; w_j := S j; w_k := k;
                   w_originalLine := nextLine options ol;
                   w_modifiedLine := nextLine options ml;
                   w_changes := w_changes st
                     ++ [modifiedChange toLowerCase options tokens1 tokens2 i j ol ml] |})
  \/ (i < length tokens1 /\ length tokens2 <= j
      /\ next = {| w_i := S i; w_j := j; w_k := k;
                   w_originalLine := nextLine options ol; w_modifiedLine := ml;
                   w_changes := w_changes st ++ [removedChange options tokens1 i ol] |})
  \/ (length tokens1 <= i /\ j < length tokens2
      /\ next = {| w_i := i; w_j := S j; w_k := k;
                   w_originalLine := ol; w_modifiedLine := nextLine options ml;
                   w_changes := w_changes st ++ [addedChange options tokens2 j ml] |}).
Proof.
  intros Hw i j k ol ml next. subst next. unfold walking in Hw. unfold diffStep.
  fold i j k ol ml. fold i j in Hw.
  destruct (i <? length tokens1) eqn:Hi, (j <? length tokens2) eqn:Hj;
    destruct (k <? length common) eqn:Hk;
    destruct (strictEq (normalized1 !! i) (common !! k)) eqn:H1c;
    destruct (strictEq (normalized1 !! i) (normalized2 !! j)) eqn:H12;
    destruct (strictEq (normalized2 !! j) (common !! k)) eqn:H2c;
    cbn [andb orb] in *; try discriminate; bool_facts;
    first
      [ left; by auto 10
      | right; left; by auto 10
      | right; right; left; by auto 10
      | right; right; right; right; left; by auto 10
      | right; right; right; right; right; by auto 10
      | right; right; right; left; repeat split; (assumption || lia || congruence)
      | exfalso; congruence ].
Qed.

(** A property kept by every round holds when the loop returns. *)
Lemma diffLoop_invariant (P : Walk -> Prop) fuel st :
  (forall s, walking tokens1 tokens2 s = true -> P s ->
             P (diffStep toLowerCase options tokens1 tokens2 normalized1
                  normalized2 common s)) ->
  P st ->
  P (diffLoop toLowerCase options tokens1 tokens2 normalized1 normalized2 common
       fuel st).
Proof.
  intros Hstep. revert st. induction fuel as [|fuel IH]; intros st HP; [exact HP|].
  cbn [diffLoop]. destruct (walking tokens1 tokens2 st) eqn:Hw; [|exact HP].
  apply IH, Hstep; assumption.
Qed.
End WalkCases.

Lemma map_lookup {A B} (f : A -> B) (l : list A) i :
  List.map f l !! i = f <$> l !! i.
Proof. apply (list_lookup_fmap f l i). Qed.

Lemma originalTexts_push cs c :
  originalTexts (cs ++ [c])
  = originalTexts cs ++ match original c with Some x => [x] | None => [] end.
Proof. unfold originalTexts. rewrite omap_app. cbn. destruct (original c); reflexivity. Qed.

Lemma modifiedTexts_push cs c :
  modifiedTexts (cs ++ [c])
  = modifiedTexts cs ++ match modified c with Some x => [x] | None => [] end.
Proof. unfold modifiedTexts. rewrite omap_app. cbn. destruct (modified c); reflexivity. Qed.

Lemma originalLines_push cs c :
  originalLines (cs ++ [c])
  = originalLines cs
    ++ match original c with Some _ => [originalLine c] | None => [] end.
Proof.
  unfold originalLines. rewrite filter_app, fmap_app. f_equal.
  destruct (original c) eqn:Ho.
  - rewrite filter_cons_True by (rewrite Ho; eauto). reflexivity.
  - rewrite filter_cons_False by (rewrite Ho; intros [? ?]; discriminate). reflexivity.
Qed.

Lemma modifiedLines_push cs c :
  modifiedLines (cs ++ [c])
  = modifiedLines cs
    ++ match modified c with Some _ => [modifiedLine c] | None => [] end.
Proof.
  unfold modifiedLines. rewrite filter_app, fmap_app. f_equal.
  destruct (modified c) eqn:Ho.
  - rewrite filter_cons_True by (rewrite Ho; eauto). reflexivity.
  - rewrite filter_cons_False by (rewrite Ho; intros [? ?]; discriminate). reflexivity.
Qed.

Section WalkInvariant.
Variable toLowerCase : jsstring -> jsstring.
Variable options : DiffOptions.
Variable norm : jsstring -> jsstring.
Variables tokens1 tokens2 common : list jsstring.

Lemma diffStep_walkInv st :
  walking tokens1 tokens2 st = true ->
  walkInv options norm tokens1 tokens2 st ->
  walkInv options norm tokens1 tokens2
    (diffStep toLowerCase options tokens1 tokens2
       (List.map norm tokens1) (List.map norm tokens2) common st).
Proof.
  intros Hw (Hi & Hj & Ho & Hm & Hol & Hml & Hols & Hmls & Hok).
  destruct (diffStep_cases toLowerCase options tokens1 tokens2
              (List.map norm tokens1) (List.map norm tokens2) common st Hw)
    as [(Hi' & Hj' & Hk' & H12 & H1c & ->)
       |[(Hi' & Hj' & Hk' & H1c & H2c & ->)
       |[(Hi' & Hj' & Hk' & H1c & H2c & ->)
       |[(Hi' & Hj' & Hn & ->)
       |[(Hi' & Hj' & ->)
       |(Hi' & Hj' & ->)]]]]];
    unfold walkInv; cbn [w_i w_j w_k w_originalLine w_modifiedLine w_changes];
    try (destruct (lookup_lt_is_Some_2 tokens1 (w_i st) Hi') as [x Hx]);
    try (destruct (lookup_lt_is_Some_2 tokens2 (w_j st) Hj') as [y Hy]);
    rewrite ?originalTexts_push, ?modifiedTexts_push, ?originalLines_push,
      ?modifiedLines_push;
    cbn [original modified originalLine modifiedLine unchangedChange addedChange
         removedChange];
    (repeat split; try lia;
     [ .. | apply Forall_app; split; [exact Hok|] ]).
  all: try lazymatch goal with
       | |- context [modifiedChange] =>
           unfold modifiedChange; destruct (truthy (semanticAnalysis options));
           cbn [original modified originalLine modifiedLine]
       end.
  all: rewrite ?Hx, ?Hy, ?app_nil_r.
  all: try (rewrite Ho, (take_S_r _ _ _ Hx); reflexivity).
  all: try (rewrite Hm, (take_S_r _ _ _ Hy); reflexivity).
  all: try assumption.
  all: try (rewrite ?Hol, ?Hml; reflexivity).
  all: try (rewrite seq_S, fmap_app, ?Hols, ?Hmls, ?Hol, ?Hml; reflexivity).
  all: try (constructor; [|constructor]).
  all: unfold recordOk, noSemantics; cbn; rewrite ?Hx, ?Hy.
  all: try (repeat split; eauto; fail).
  - split; [|auto]. exists x, y. repeat split.
    rewrite !map_lookup, Hx, Hy in H12. cbn in H12. congruence.
Qed.
End WalkInvariant.

(* ====================================================================== *)
(** * Aligner: the table and the backtrack                                 *)
(* ====================================================================== *)

Section LCSFacts.
Context {T : Type} `{EqDecision T}.
Variables arr1 arr2 : list T.

Lemma lcsLength_0_r i : lcsLength arr1 arr2 i 0 = 0.
Proof. destruct i; reflexivity. Qed.

Lemma lcsLength_S i j :
  lcsLength arr1 arr2 (S i) (S j)
  = if strictEq (arr1 !! i) (arr2 !! j)
    then lcsLength arr1 arr2 i j + 1
    else Nat.max (lcsLength arr1 arr2 i (S j)) (lcsLength arr1 arr2 (S i) j).
Proof. reflexivity. Qed.

Lemma dpGet_dpSet dp i j v i' j' row :
  dp !! i = Some row -> j < length row ->
  dpGet (dpSet dp i j v) i' j'
  = if decide (i = i' /\ j = j') then v else dpGet dp i' j'.
Proof.
  intros Hrow Hj. unfold dpSet, dpGet. rewrite Hrow.
  assert (Hi : i < length dp) by (eapply lookup_lt_Some; eauto).
  destruct (decide (i = i')) as [<-|Hne].
  - rewrite list_lookup_insert_eq by exact Hi. cbn.
    destruct (decide (j = j')) as [<-|Hnj].
    + rewrite list_lookup_insert_eq by exact Hj.
      rewrite decide_True by auto. reflexivity.
    + rewrite list_lookup_insert_ne by exact Hnj.
      rewrite decide_False by tauto. rewrite Hrow. reflexivity.
  - rewrite list_lookup_insert_ne by exact Hne.
    rewrite decide_False by tauto. reflexivity.
Qed.

Lemma dpSet_shape (dp : list (list nat)) i j v n :
  Forall (fun row => length row = n) dp ->
  length (dpSet dp i j v) = length dp
  /\ Forall (fun row => length row = n) (dpSet dp i j v).
Proof.
  intros Hall. unfold dpSet. destruct (dp !! i) as [row|] eqn:Hrow; [|auto].
  split; [apply length_insert|].
  apply Forall_insert; [exact Hall|]. rewrite length_insert.
  eapply (Forall_lookup_1 _ _ _ _ Hall Hrow).
Qed.

Lemma dpCell_filled i j dp :
  1 <= i <= length arr1 -> 1 <= j <= length arr2 ->
  dpFilled arr1 arr2 i (j - 1) dp ->
  dpFilled arr1 arr2 i j (dpCell arr1 arr2 dp i j).
Proof.
  intros Hi Hj (Hlen & Hrows & Hget).
  destruct (lookup_lt_is_Some_2 dp i) as [row Hrow]; [lia|].
  assert (Hrl : length row = length arr2 + 1)
    by (eapply (Forall_lookup_1 _ _ _ _ Hrows Hrow)).
  assert (Hcell : dpCell arr1 arr2 dp i j
                  = dpSet dp i j (lcsLength arr1 arr2 i j)).
  { unfold dpCell. destruct i as [|i]; [lia|]. destruct j as [|j]; [lia|].
    rewrite lcsLength_S. replace (S i - 1) with i by lia.
    replace (S j - 1) with j in * by lia.
    rewrite !Hget by lia.
    replace ((i <? S i) || ((i =? S i) && (j <=? j))) with true
      by (symmetry; apply orb_true_intro; left; apply Nat.ltb_lt; lia).
    replace ((i <? S i) || ((i =? S i) && (S j <=? j))) with true
      by (symmetry; apply orb_true_intro; left; apply Nat.ltb_lt; lia).
    replace ((S i <? S i) || ((S i =? S i) && (j <=? j))) with true
      by (symmetry; apply orb_true_intro; right;
          rewrite Nat.eqb_refl; apply Nat.leb_le; lia).
    destruct (strictEq _ _); reflexivity. }
  rewrite Hcell.
  destruct (dpSet_shape dp i j (lcsLength arr1 arr2 i j) _ Hrows) as [Hl' Hr'].
  split; [lia|]. split; [exact Hr'|].
  intros i' j' Hi' Hj'. rewrite (dpGet_dpSet _ _ _ _ _ _ row Hrow) by lia.
  rewrite Hget by lia.
  destruct (decide (i = i' /\ j = j')) as [[<- <-]|Hne].
  - rewrite Nat.eqb_refl, Nat.leb_refl, orb_true_r. reflexivity.
  - destruct (i' <? i) eqn:Hlt; [reflexivity|]. cbn [orb].
    destruct (i' =? i) eqn:Heq; [|reflexivity]. cbn [andb].
    apply Nat.eqb_eq in Heq. subst i'.
    assert (j <> j') by tauto.
    destruct (j' <=? j - 1) eqn:H1, (j' <=? j) eqn:H2; try reflexivity;
      [apply Nat.leb_le in H1; apply Nat.leb_gt in H2; lia
      |apply Nat.leb_gt in H1; apply Nat.leb_le in H2; lia].
Qed.

Lemma dpRow_filled i dp n' :
  1 <= i <= length arr1 -> n' <= length arr2 ->
  dpFilled arr1 arr2 i 0 dp ->
  dpFilled arr1 arr2 i n'
    (foldl (fun dp j => dpCell arr1 arr2 dp i j) dp (seq 1 n')).
Proof.
  intros Hi. induction n' as [|n' IH]; intros Hn Hdp; [exact Hdp|].
  rewrite seq_S, foldl_app. cbn [foldl]. replace (1 + n') with (S n') by lia.
  apply dpCell_filled; [lia | lia |]. replace (S n' - 1) with n' by lia.
  apply IH; [lia | exact Hdp].
Qed.

Lemma dpFilled_next_row i dp :
  dpFilled arr1 arr2 i (length arr2) dp -> dpFilled arr1 arr2 (S i) 0 dp.
Proof.
  intros (Hlen & Hrows & Hget). split; [exact Hlen|]. split; [exact Hrows|].
  intros i' j' Hi' Hj'. rewrite Hget by assumption.
  destruct (i' <? i) eqn:H1, (i' =? i) eqn:H2, (i' <? S i) eqn:H3,
    (i' =? S i) eqn:H4, (j' <=? 0) eqn:H5, (j' <=? length arr2) eqn:H6;
    cbn [orb andb]; try reflexivity; bool_facts;
    repeat match goal with
           | H : (_ =? _) = true |- _ => apply Nat.eqb_eq in H
           | H : (_ =? _) = false |- _ => apply Nat.eqb_neq in H
           | H : (_ <=? _) = true |- _ => apply Nat.leb_le in H
           | H : (_ <=? _) = false |- _ => apply Nat.leb_gt in H
           end; try lia.
  all: replace j' with 0 by lia; rewrite lcsLength_0_r; reflexivity.
Qed.

Lemma dpRows_filled m' :
  m' <= length arr1 ->
  dpFilled arr1 arr2 (S m') 0
    (foldl (fun dp i =>
              foldl (fun dp j => dpCell arr1 arr2 dp i j) dp
                    (seq 1 (length arr2)))
           (dpInit (length arr1) (length arr2)) (seq 1 m')).
Proof.
  induction m' as [|m' IH]; intros Hm.
  - cbn [seq foldl]. unfold dpInit. split; [apply length_replicate|].
    split; [apply Forall_replicate, length_replicate|].
    intros i j Hi Hj. unfold dpGet.
    rewrite lookup_replicate_2 by lia. cbn. rewrite lookup_replicate_2 by lia.
    cbn. destruct i as [|[|i]], j as [|j]; reflexivity.
  - rewrite seq_S, foldl_app. cbn [foldl]. replace (1 + m') with (S m') by lia.
    apply dpFilled_next_row, dpRow_filled; [lia | lia |]. apply IH. lia.
Qed.

(** The table computed by [lcs] holds the lengths of the recurrence. *)
Lemma dpFill_correct i j :
  i <= length arr1 -> j <= length arr2 ->
  dpGet (dpFill arr1 arr2) i j = lcsLength arr1 arr2 i j.
Proof.
  intros Hi Hj. unfold dpFill.
  destruct (dpRows_filled (length arr1) (le_n _)) as (_ & _ & Hget).
  rewrite Hget by assumption.
  replace (i <? S (length arr1)) with true
    by (symmetry; apply Nat.ltb_lt; lia).
  reflexivity.
Qed.
End LCSFacts.

Section LCSResult.
Context {T : Type} `{EqDecision T}.
Variables arr1 arr2 : list T.

Lemma lcsLength_0_l j : lcsLength arr1 arr2 0 j = 0.
Proof. reflexivity. Qed.

Lemma backtrackStep_inv st :
  (0 <? bt_i st) && (0 <? bt_j st) = true ->
  backtrackInv arr1 arr2 st ->
  backtrackInv arr1 arr2 (backtrackStep arr1 arr2 (dpFill arr1 arr2) st).
Proof.
  intros [Hi0 Hj0]%andb_prop (Hi & Hj & H1 & H2 & Hlen). bool_facts.
  destruct st as [i j res]. cbn [bt_i bt_j bt_result] in *.
  destruct i as [|i]; [lia|]. destruct j as [|j]; [lia|].
  unfold backtrackStep. cbn [bt_i bt_j bt_result].
  replace (S i - 1) with i by lia. replace (S j - 1) with j by lia.
  rewrite !dpFill_correct by lia.
  rewrite lcsLength_S in Hlen.
  destruct (lookup_lt_is_Some_2 arr1 i) as [x Hx]; [lia|].
  destruct (lookup_lt_is_Some_2 arr2 j) as [y Hy]; [lia|].
  destruct (strictEq (arr1 !! i) (arr2 !! j)) eqn:Heq; bool_facts.
  - rewrite Hx. unfold backtrackInv. cbn [bt_i bt_j bt_result length].
    repeat split; try lia.
    + rewrite (drop_S _ _ _ Hx). by apply sublist_skip.
    + rewrite Hx, Hy in Heq. injection Heq as ->.
      rewrite (drop_S _ _ _ Hy). by apply sublist_skip.
  - destruct (_ <? _) eqn:Hlt; bool_facts;
      unfold backtrackInv; cbn [bt_i bt_j bt_result]; repeat split; try lia.
    + rewrite (drop_S _ _ _ Hx). by apply sublist_cons.
    + exact H2.
    + exact H1.
    + rewrite (drop_S _ _ _ Hy). by apply sublist_cons.
Qed.

Lemma backtrackLoop_inv fuel st :
  backtrackInv arr1 arr2 st ->
  backtrackInv arr1 arr2 (backtrackLoop arr1 arr2 (dpFill arr1 arr2) fuel st).
Proof.
  revert st. induction fuel as [|fuel IH]; intros st Hinv; [exact Hinv|].
  cbn [backtrackLoop]. destruct (_ && _) eqn:Hw; [|exact Hinv].
  apply IH, backtrackStep_inv; assumption.
Qed.

Lemma lcs_backtrackInv :
  exists st, bt_result st = lcs arr1 arr2
             /\ backtrackInv arr1 arr2 st
             /\ (bt_i st = 0 \/ bt_j st = 0).
Proof.
  eexists. split; [reflexivity|]. split.
  - apply backtrackLoop_inv. unfold backtrackInv. cbn [bt_i bt_j bt_result].
    rewrite !drop_all. repeat split; try lia; constructor.
  - match goal with
    | |- context [backtrackLoop ?a ?b ?dp ?f ?s] =>
        pose proof (backtrackLoop_exits a b dp f s) as Hex
    end.
    cbn [bt_i bt_j] in Hex. specialize (Hex (le_n _)).
    apply andb_false_iff in Hex as [Hex|Hex]; bool_facts; [left|right]; lia.
Qed.

Lemma sublist_snoc_r (s l : list T) x :
  s `sublist_of` l ++ [x] ->
  s `sublist_of` l \/ exists s', s = s' ++ [x] /\ s' `sublist_of` l.
Proof.
  intros (s1 & s2 & -> & H1 & H2)%sublist_app_r.
  apply sublist_cons_r in H2 as [H2|(s2' & -> & H2)];
    apply sublist_nil_r in H2; subst.
  - left. rewrite app_nil_r. exact H1.
  - right. eauto.
Qed.

Lemma sublist_snoc_l (s l : list T) x : s ++ [x] `sublist_of` l -> s `sublist_of` l.
Proof.
  intros Hs. etrans; [|exact Hs]. apply sublist_inserts_r. reflexivity.
Qed.

(** No common subsequence of two prefixes is longer than the table says. *)
Lemma lcsLength_bound i : forall j s,
  i <= length arr1 -> j <= length arr2 ->
  s `sublist_of` take i arr1 -> s `sublist_of` take j arr2 ->
  length s <= lcsLength arr1 arr2 i j.
Proof.
  induction i as [|i IHi]; intros j s Hi Hj H1 H2.
  { apply sublist_nil_r in H1. subst. cbn. lia. }
  revert s H1 H2. induction j as [|j IHj]; intros s H1 H2.
  { apply sublist_nil_r in H2. subst. cbn. lia. }
  destruct (lookup_lt_is_Some_2 arr1 i) as [x Hx]; [lia|].
  destruct (lookup_lt_is_Some_2 arr2 j) as [y Hy]; [lia|].
  rewrite (take_S_r _ _ _ Hx) in H1. rewrite (take_S_r _ _ _ Hy) in H2.
  rewrite lcsLength_S, Hx, Hy.
  destruct (strictEq (Some x) (Some y)) eqn:Heq; bool_facts.
  - injection Heq as <-.
    apply sublist_snoc_r in H1 as [H1|(s1 & -> & H1)];
      apply sublist_snoc_r in H2 as [H2|(s2 & E2 & H2)].
    + specialize (IHi j s ltac:(lia) ltac:(lia) H1 H2). lia.
    + subst s. apply sublist_snoc_l in H1.
      specialize (IHi j s2 ltac:(lia) ltac:(lia) H1 H2).
      rewrite length_app. cbn. lia.
    + apply sublist_snoc_l in H2.
      specialize (IHi j s1 ltac:(lia) ltac:(lia) H1 H2).
      rewrite length_app. cbn. lia.
    + apply app_inj_tail in E2 as [-> _].
      specialize (IHi j s2 ltac:(lia) ltac:(lia) H1 H2).
      rewrite length_app. cbn. lia.
  - apply sublist_snoc_r in H1 as [H1|(s1 & -> & H1)].
    + assert (Hs : s `sublist_of` take (S j) arr2)
        by (rewrite (take_S_r _ _ _ Hy); exact H2).
      specialize (IHi (S j) s ltac:(lia) ltac:(lia) H1 Hs). lia.
    + apply sublist_snoc_r in H2 as [H2|(s2 & E2 & H2)].
      * assert (Hs : s1 ++ [x] `sublist_of` take (S i) arr1).
        { rewrite (take_S_r _ _ _ Hx). apply sublist_app; [exact H1|reflexivity]. }
        specialize (IHj ltac:(lia) (s1 ++ [x]) Hs H2). lia.
      * apply app_inj_tail in E2 as [_ ->]. congruence.
Qed.
End LCSResult.

Lemma lcs_sublist_both {T} `{EqDecision T} (arr1 arr2 : list T) :
  lcs arr1 arr2 `sublist_of` arr1 /\ lcs arr1 arr2 `sublist_of` arr2
  /\ length (lcs arr1 arr2) <= Nat.min (length arr1) (length arr2).
Proof.
  destruct (lcs_backtrackInv arr1 arr2) as (st & <- & (_ & _ & H1 & H2 & _) & _).
  assert (A : bt_result st `sublist_of` arr1)
    by (etrans; [exact H1 | apply sublist_drop]).
  assert (B : bt_result st `sublist_of` arr2)
    by (etrans; [exact H2 | apply sublist_drop]).
  split; [exact A|]. split; [exact B|].
  apply sublist_length in A, B. lia.
Qed.

(** X6: For every two arrays, lcs returns a subsequence of the first
    array that is also a subsequence of the second one (items in
    order, not necessarily adjacent); its length is at most the
    shorter array's. *)
Theorem lcs_common_subsequence {T} `{EqDecision T} (arr1 arr2 : list T) :
  lcs arr1 arr2 `sublist_of` arr1 /\ lcs arr1 arr2 `sublist_of` arr2
  /\ length (lcs arr1 arr2) <= Nat.min (length arr1) (length arr2).
Proof.
  destruct (lcs_backtrackInv arr1 arr2) as (st & <- & (_ & _ & H1 & H2 & _) & _).
  assert (A : bt_result st `sublist_of` arr1)
    by (etrans; [exact H1 | apply sublist_drop]).
  assert (B : bt_result st `sublist_of` arr2)
    by (etrans; [exact H2 | apply sublist_drop]).
  split; [exact A|]. split; [exact B|].
  apply sublist_length in A, B. lia.
Qed.

(** X7: No common subsequence of the two arrays is longer than the one
    lcs returns: the table holds the lengths of the longest common
    subsequences of the prefixes, and the backtrack collects one of
    full length. *)
Theorem lcs_longest {T} `{EqDecision T} (arr1 arr2 s : list T) :
  s `sublist_of` arr1 -> s `sublist_of` arr2 ->
  length s <= length (lcs arr1 arr2).
Proof.
  intros H1 H2.
  destruct (lcs_backtrackInv arr1 arr2) as (st & <- & (_ & _ & _ & _ & Hlen) & Hz).
  assert (Hzero : lcsLength arr1 arr2 (bt_i st) (bt_j st) = 0).
  { destruct Hz as [-> | ->]; [reflexivity | apply lcsLength_0_r]. }
  rewrite Hzero in Hlen. replace (length (bt_result st)) with
    (lcsLength arr1 arr2 (length arr1) (length arr2)) by lia.
  apply lcsLength_bound; try lia; rewrite firstn_all; assumption.
Qed.

Lemma lcs_longest_witness :
  length [2; 3] <= length (lcs [1; 2; 3] [2; 3; 4]).
Proof.
  apply (lcs_longest [1; 2; 3] [2; 3; 4] [2; 3]).
  - apply sublist_cons, sublist_skip, sublist_skip, sublist_nil.
  - apply sublist_skip, sublist_skip, sublist_cons, sublist_nil.
Defined.

(* ====================================================================== *)
(** * Diff: coverage, record shapes, line numbers and anchors              *)
(* ====================================================================== *)

Lemma countType_push t cs c :
  countType t (cs ++ [c]) = countType t cs + (if decide (type c = t) then 1 else 0).
Proof.
  unfold countType. rewrite filter_app, length_app. f_equal.
  rewrite filter_cons. destruct (decide (type c = t)); reflexivity.
Qed.

Lemma sublist_drop_skip (l k : list jsstring) i j :
  i < length l -> l !! i = k !! j ->
  drop i l `sublist_of` drop j k -> drop (S i) l `sublist_of` drop (S j) k.
Proof.
  intros Hi Heq Hs. destruct (lookup_lt_is_Some_2 l i Hi) as [x Hx].
  rewrite Hx in Heq. symmetry in Heq.
  rewrite (drop_S _ _ _ Hx), (drop_S _ _ _ Heq) in Hs.
  apply sublist_cons_r in Hs as [Hs|(l' & E & Hs)].
  - etrans; [|exact Hs]. by apply sublist_cons.
  - injection E as <-. exact Hs.
Qed.

Lemma sublist_drop_pass (l k : list jsstring) i j :
  i < length l -> j < length k -> l !! i <> k !! j ->
  drop i l `sublist_of` drop j k -> drop i l `sublist_of` drop (S j) k.
Proof.
  intros Hi Hj Hne Hs. destruct (lookup_lt_is_Some_2 l i Hi) as [x Hx].
  destruct (lookup_lt_is_Some_2 k j Hj) as [y Hy].
  rewrite (drop_S _ _ _ Hx), (drop_S _ _ _ Hy) in Hs.
  rewrite (drop_S _ _ _ Hx).
  apply sublist_cons_r in Hs as [Hs|(l' & E & Hs)]; [exact Hs|].
  injection E as -> _. congruence.
Qed.

Lemma sublist_drop_done (l k : list jsstring) i j :
  length k <= j -> drop i l `sublist_of` drop j k -> length l <= i.
Proof.
  intros Hj Hs. rewrite (drop_ge k) in Hs by exact Hj.
  apply sublist_nil_r in Hs. apply (f_equal length) in Hs.
  rewrite length_drop in Hs. cbn in Hs. lia.
Qed.

Section Anchors.
Variable toLowerCase : jsstring -> jsstring.
Variable options : DiffOptions.
Variables tokens1 tokens2 normalized1 normalized2 common : list jsstring.
Hypothesis Hlen1 : length normalized1 = length tokens1.
Hypothesis Hlen2 : length normalized2 = length tokens2.

Lemma diffStep_anchorInv st :
  walking tokens1 tokens2 st = true ->
  anchorInv normalized1 normalized2 common st ->
  anchorInv normalized1 normalized2 common
    (diffStep toLowerCase options tokens1 tokens2 normalized1 normalized2 common st).
Proof using Hlen1 Hlen2.
  intros Hw (H1 & H2 & Hc & Hkc).
  destruct (diffStep_cases toLowerCase options tokens1 tokens2
              normalized1 normalized2 common st Hw)
    as [(Hi' & Hj' & Hk' & H12 & H1c & ->)
       |[(Hi' & Hj' & Hk' & H1c & H2c & ->)
       |[(Hi' & Hj' & Hk' & H1c & H2c & ->)
       |[(Hi' & Hj' & Hn & ->)
       |[(Hi' & Hj' & ->)
       |(Hi' & Hj' & ->)]]]]];
    unfold anchorInv; cbn [w_i w_j w_k w_changes]; rewrite countType_push;
    cbn [type unchangedChange addedChange removedChange].
  - repeat split; [ | |rewrite decide_True by reflexivity; lia|lia].
    + apply sublist_drop_skip; [lia | congruence | exact H1].
    + apply sublist_drop_skip; [lia | congruence | exact H2].
  - rewrite decide_False by discriminate. repeat split; [exact H1| |lia|lia].
    apply sublist_drop_pass; [lia | lia | congruence | exact H2].
  - rewrite decide_False by discriminate. repeat split; [|exact H2|lia|lia].
    apply sublist_drop_pass; [lia | lia | congruence | exact H1].
  - assert (Ht : type (modifiedChange toLowerCase options tokens1 tokens2
                         (w_i st) (w_j st) (w_originalLine st) (w_modifiedLine st))
                 = Modified).
    { unfold modifiedChange. destruct (truthy _); reflexivity. }
    rewrite Ht, decide_False by discriminate.
    destruct (decide (w_k st < length common)) as [Hk|Hk].
    + destruct (Hn Hk) as [Hn1 Hn2]. repeat split; [ | |lia|lia].
      * apply sublist_drop_pass; [lia | lia | congruence | exact H1].
      * apply sublist_drop_pass; [lia | lia | congruence | exact H2].
    + rewrite drop_ge by lia. repeat split; [apply sublist_nil_l ..|lia|lia].
  - assert (length common <= w_k st).
    { eapply sublist_drop_done; [|exact H2]. lia. }
    rewrite decide_False by discriminate. rewrite drop_ge by lia.
    repeat split; [apply sublist_nil_l ..|lia|lia].
  - assert (length common <= w_k st).
    { eapply sublist_drop_done; [|exact H1]. lia. }
    rewrite decide_False by discriminate. rewrite drop_ge by lia.
    repeat split; [apply sublist_nil_l ..|lia|lia].
Qed.
End Anchors.

Section DiffFacts.
Variable toLowerCase : jsstring -> jsstring.
Variables (a b : jsstring) (o : DiffOptions).

Lemma diff_changes_final :
  changes (diff toLowerCase a b o) = w_changes (diffFinal toLowerCase a b o).
Proof. reflexivity. Qed.

Lemma diff_final_walkInv :
  walkInv o (normOf toLowerCase o) (tokenize a (granularityOf o))
    (tokenize b (granularityOf o)) (diffFinal toLowerCase a b o).
Proof.
  unfold diffFinal. cbv zeta. apply diffLoop_invariant.
  - intros s Hw Hs. apply diffStep_walkInv; assumption.
  - unfold walkInv, walkStart. cbn. repeat split; try lia; constructor.
Qed.

Lemma diff_final_done :
  w_i (diffFinal toLowerCase a b o) = length (tokenize a (granularityOf o))
  /\ w_j (diffFinal toLowerCase a b o) = length (tokenize b (granularityOf o)).
Proof.
  pose proof (diff_walk_complete toLowerCase a b o) as Hex. cbv zeta in Hex.
  destruct diff_final_walkInv as (Hi & Hj & _).
  unfold walking in Hex. apply orb_false_elim in Hex as [H1 H2]. bool_facts.
  unfold diffFinal, normOf in *. cbv zeta in *. lia.
Qed.

Lemma diff_final_anchorInv :
  anchorInv (List.map (normOf toLowerCase o) (tokenize a (granularityOf o)))
    (List.map (normOf toLowerCase o) (tokenize b (granularityOf o)))
    (lcs (List.map (normOf toLowerCase o) (tokenize a (granularityOf o)))
         (List.map (normOf toLowerCase o) (tokenize b (granularityOf o))))
    (diffFinal toLowerCase a b o).
Proof.
  unfold diffFinal. cbv zeta. apply diffLoop_invariant.
  - intros s Hw Hs. apply diffStep_anchorInv; try assumption; apply length_map.
  - unfold anchorInv, walkStart. cbn [w_i w_j w_k w_changes]. rewrite !drop_0.
    destruct (lcs_sublist_both
                (List.map (normOf toLowerCase o) (tokenize a (granularityOf o)))
                (List.map (normOf toLowerCase o) (tokenize b (granularityOf o))))
      as (H1 & H2 & _).
    repeat split; (assumption || lia).
Qed.
End DiffFacts.

Lemma diff_tokens_covered (toLowerCase : jsstring -> jsstring)
    (a b : jsstring) (o : DiffOptions) :
  originalTexts (changes (diff toLowerCase a b o)) = tokenize a (granularityOf o)
  /\ modifiedTexts (changes (diff toLowerCase a b o)) = tokenize b (granularityOf o).
Proof.
  rewrite diff_changes_final.
  destruct (diff_final_walkInv toLowerCase a b o) as (_ & _ & Ho & Hm & _).
  destruct (diff_final_done toLowerCase a b o) as [Hi Hj].
  rewrite Ho, Hm, Hi, Hj, !firstn_all. auto.
Qed.

Lemma diff_records_ok (toLowerCase : jsstring -> jsstring)
    (a b : jsstring) (o : DiffOptions) :
  Forall (recordOk (truthy (semanticAnalysis o)) (normOf toLowerCase o))
         (changes (diff toLowerCase a b o)).
Proof.
  rewrite diff_changes_final.
  apply (diff_final_walkInv toLowerCase a b o).
Qed.

(** X1: For every pair of texts and every options value, the records
    of diff that carry an original text, read in order, carry exactly
    the tokens of the original text (the raw tokens, before
    normalization), and the records that carry a modified text carry
    exactly the tokens of the modified text: no token of either text
    is dropped, repeated or reordered. *)
Theorem diff_covers_both_texts (toLowerCase : jsstring -> jsstring)
    (a b : jsstring) (o : DiffOptions) :
  originalTexts (changes (diff toLowerCase a b o)) = tokenize a (granularityOf o)
  /\ modifiedTexts (changes (diff toLowerCase a b o)) = tokenize b (granularityOf o).
Proof.
  rewrite diff_changes_final.
  destruct (diff_final_walkInv toLowerCase a b o) as (_ & _ & Ho & Hm & _).
  destruct (diff_final_done toLowerCase a b o) as [Hi Hj].
  rewrite Ho, Hm, Hi, Hj, !firstn_all. auto.
Qed.

(** X2: Every record diff returns has the fields of its kind: an
    unchanged record has both texts, and they are equal after
    normalization; an added record has a modified text and neither an
    original text nor an original line number; a removed record has an
    original text and neither a modified text nor a modified line
    number; a modified record has both texts; similarity, explanation
    and keyWords are present exactly on the modified records of a diff
    run with semanticAnalysis on, and absent everywhere else. *)
Theorem diff_records_well_formed (toLowerCase : jsstring -> jsstring)
    (a b : jsstring) (o : DiffOptions) :
  Forall (recordOk (truthy (semanticAnalysis o)) (normOf toLowerCase o))
         (changes (diff toLowerCase a b o)).
Proof.
  rewrite diff_changes_final.
  apply (diff_final_walkInv toLowerCase a b o).
Qed.

Lemma iter_nextLine_line o n :
  granularityOf o = line -> Nat.iter n (nextLine o) 1 = S n.
Proof.
  intros Hg. induction n as [|n IH]; [reflexivity|].
  rewrite Nat.iter_succ, IH. unfold nextLine. rewrite Hg. reflexivity.
Qed.

Lemma lineNo_seq o n :
  (fun k => lineNo o (Nat.iter k (nextLine o) 1)) <$> seq 0 n
  = if decide (granularityOf o = line) then Some <$> seq 1 n else replicate n None.
Proof.
  destruct (decide (granularityOf o = line)) as [Hg|Hg].
  - rewrite <- fmap_S_seq, <- list_fmap_compose. apply list_fmap_ext.
    intros _ k _. cbn. rewrite iter_nextLine_line by exact Hg.
    unfold lineNo. rewrite decide_True by exact Hg. reflexivity.
  - induction n as [|n IH]; [reflexivity|].
    rewrite seq_S, fmap_app, IH. cbn. unfold lineNo at 1.
    rewrite decide_False by exact Hg.
    rewrite <- (replicate_S_end n). reflexivity.
Qed.

(** X3: At line granularity (also the default) the records of diff
    that carry an original text are numbered 1, 2, ..., n in
    originalLine, n the number of lines of the original text, and
    those that carry a modified text are numbered 1, 2, ..., m in
    modifiedLine; at every other granularity no record carries a line
    number. *)
Theorem diff_line_numbers (toLowerCase : jsstring -> jsstring)
    (a b : jsstring) (o : DiffOptions) :
  originalLines (changes (diff toLowerCase a b o))
  = (if decide (granularityOf o = line)
     then Some <$> seq 1 (length (tokenize a (granularityOf o)))
     else replicate (length (tokenize a (granularityOf o))) None)
  /\ modifiedLines (changes (diff toLowerCase a b o))
     = (if decide (granularityOf o = line)
        then Some <$> seq 1 (length (tokenize b (granularityOf o)))
        else replicate (length (tokenize b (granularityOf o))) None).
Proof.
  rewrite diff_changes_final.
  destruct (diff_final_walkInv toLowerCase a b o)
    as (_ & _ & _ & _ & _ & _ & Hol & Hml & _).
  destruct (diff_final_done toLowerCase a b o) as [Hi Hj].
  rewrite Hol, Hml, Hi, Hj, !lineNo_seq. auto.
Qed.

(** X4: stats.unchanged of diff is the length of the common
    subsequence lcs returns for the two normalized token lists: the
    classifier meets every anchor, and marks nothing else unchanged. *)
Theorem diff_unchanged_is_lcs (toLowerCase : jsstring -> jsstring)
    (a b : jsstring) (o : DiffOptions) :
  stat_unchanged (stats (diff toLowerCase a b o))
  = length (lcs (List.map (normOf toLowerCase o) (tokenize a (granularityOf o)))
                (List.map (normOf toLowerCase o) (tokenize b (granularityOf o)))).
Proof.
  change (stat_unchanged (stats (diff toLowerCase a b o)))
    with (countType Unchanged (w_changes (diffFinal toLowerCase a b o))).
  destruct (diff_final_anchorInv toLowerCase a b o) as (H1 & _ & Hc & Hk).
  destruct (diff_final_done toLowerCase a b o) as [Hi Hj].
  rewrite Hc. rewrite Hi in H1.
  rewrite (drop_ge (List.map _ _)) in H1 by (rewrite length_map; lia).
  apply sublist_nil_r in H1. apply (f_equal length) in H1.
  rewrite length_drop in H1. cbn in H1. lia.
Qed.

(* ====================================================================== *)
(** * Tokenizer: lines and characters                                      *)
(* ====================================================================== *)

Lemma crlfToLf_cons_lf s : crlfToLf (LF :: s) = LF :: crlfToLf s.
Proof. destruct s; reflexivity. Qed.

Lemma split_lines_join_any fuel cur rest :
  length rest <= fuel ->
  join [LF] (splitLoop matchLineBreak false fuel cur rest)
  = rev cur ++ crlfToLf rest.
Proof.
  revert cur rest. induction fuel as [|fuel IH]; intros cur [|c rest] Hf;
    cbn [length] in Hf; try lia;
    try (cbn [splitLoop join crlfToLf]; rewrite app_nil_r; reflexivity).
  cbn [splitLoop].
  destruct rest as [|d rest].
  - cbn [matchLineBreak crlfToLf]. destruct (c =? LF)%N eqn:Hc.
    + apply N.eqb_eq in Hc. subst c. cbn [app drop].
      rewrite join_cons by apply splitLoop_nonempty.
      rewrite IH by (cbn; lia). reflexivity.
    + rewrite IH by (cbn; lia). cbn [rev crlfToLf]. rewrite <- app_assoc.
      reflexivity.
  - cbn [matchLineBreak crlfToLf].
    destruct ((c =? CR)%N && (d =? LF)%N) eqn:Hcr.
    + cbn [app]. change (drop 2 (c :: d :: rest)) with rest.
      rewrite join_cons by apply splitLoop_nonempty.
      rewrite IH by (cbn [length] in *; lia). reflexivity.
    + destruct (c =? LF)%N eqn:Hc.
      * apply N.eqb_eq in Hc. subst c. cbn [app].
        change (drop 1 (LF :: d :: rest)) with (d :: rest).
        rewrite join_cons by apply splitLoop_nonempty.
        rewrite IH by (cbn [length] in *; lia). reflexivity.
      * rewrite IH by (cbn [length] in *; lia). cbn [rev]. rewrite <- app_assoc.
        reflexivity.
Qed.

Lemma not_elem_of_rev (x : N) (l : jsstring) : x ∉ l -> x ∉ rev l.
Proof.
  intros Hn Hin. apply Hn. apply list_elem_of_In, in_rev, list_elem_of_In.
  exact Hin.
Qed.

Lemma split_lines_no_lf fuel cur rest :
  length rest <= fuel -> LF ∉ cur ->
  Forall (fun t => LF ∉ t) (splitLoop matchLineBreak false fuel cur rest).
Proof.
  revert cur rest. induction fuel as [|fuel IH]; intros cur [|c rest] Hf Hcur;
    cbn [length] in Hf; try lia; cbn [splitLoop].
  1,2: constructor; [apply not_elem_of_rev; exact Hcur | constructor].
  assert (Hrev : LF ∉ rev cur) by (apply not_elem_of_rev; exact Hcur).
  destruct rest as [|d rest]; cbn [matchLineBreak].
  - destruct (c =? LF)%N eqn:Hc.
    + constructor; [exact Hrev|]. cbn [app]. apply IH; [cbn; lia | apply not_elem_of_nil].
    + apply IH; [cbn; lia|]. apply N.eqb_neq in Hc.
      rewrite not_elem_of_cons. auto.
  - destruct ((c =? CR)%N && (d =? LF)%N) eqn:Hcr.
    + constructor; [exact Hrev|]. cbn [app].
      change (drop 2 (c :: d :: rest)) with rest.
      apply IH; [cbn [length] in *; lia | apply not_elem_of_nil].
    + destruct (c =? LF)%N eqn:Hc.
      * constructor; [exact Hrev|]. cbn [app].
        change (drop 1 (c :: d :: rest)) with (d :: rest).
        apply IH; [cbn [length] in *; lia | apply not_elem_of_nil].
      * apply IH; [cbn [length] in *; lia|]. apply N.eqb_neq in Hc.
        rewrite not_elem_of_cons. auto.
Qed.

(** X17: At line granularity tokenize never returns an empty list, no
    token contains a line feed, and the tokens joined with line feeds
    are the text with each CR LF pair replaced by LF (a lone CR stays
    in its line). *)
Theorem tokenize_line_recomposes (text : jsstring) :
  join [LF] (tokenize text line) = crlfToLf text
  /\ Forall (fun t => LF ∉ t) (tokenize text line)
  /\ tokenize text line <> [].
Proof.
  cbn [tokenize]. unfold split. split; [|split].
  - rewrite split_lines_join_any by lia. reflexivity.
  - apply split_lines_no_lf; [lia | apply not_elem_of_nil].
  - apply splitLoop_nonempty.
Qed.

(** X18: At character granularity tokenize returns one token per
    UTF-16 code unit, each of length 1, and their concatenation is the
    text. *)
Theorem tokenize_character_recomposes (text : jsstring) :
  concat (tokenize text character) = text
  /\ Forall (fun t => length t = 1) (tokenize text character)
  /\ length (tokenize text character) = length text.
Proof.
  cbn [tokenize]. unfold splitChars. split; [|split].
  - induction text as [|c text IH]; [reflexivity|]. cbn. rewrite IH. reflexivity.
  - apply Forall_forall. intros t Ht. apply list_elem_of_In, in_map_iff in Ht as (c & <- & _).
    reflexivity.
  - apply length_map.
Qed.

Lemma crlfToLf_id s : hasCRLF s = false -> crlfToLf s = s.
Proof.
  induction s as [|c s IH]; [reflexivity|]. intros H.
  destruct s as [|d s]; [reflexivity|].
  change (hasCRLF (c :: d :: s))
    with ((c =? CR)%N && (d =? LF)%N || hasCRLF (d :: s)) in H.
  apply orb_false_elim in H as [H1 H2].
  change (crlfToLf (c :: d :: s))
    with (if (c =? CR)%N && (d =? LF)%N then LF :: crlfToLf s
          else c :: crlfToLf (d :: s)).
  rewrite H1, (IH H2). reflexivity.
Qed.

Lemma tokenize_line_join_any text : join [LF] (tokenize text line) = crlfToLf text.
Proof.
  cbn [tokenize]. unfold split. rewrite split_lines_join_any by lia. reflexivity.
Qed.

(* ====================================================================== *)
(** * Token counts, and merging under uniform decisions                    *)
(* ====================================================================== *)

Lemma recordOk_counts sem norm cs :
  Forall (recordOk sem norm) cs ->
  length (originalTexts cs)
  = countType Unchanged cs + countType Removed cs + countType Modified cs
  /\ length (modifiedTexts cs)
     = countType Unchanged cs + countType Added cs + countType Modified cs.
Proof.
  induction 1 as [|c cs Hc _ [IH1 IH2]]; [split; reflexivity|].
  unfold originalTexts, modifiedTexts in *. rewrite !countType_cons.
  change (omap original (c :: cs))
    with (match original c with Some x => x :: omap original cs | None => omap original cs end).
  change (omap modified (c :: cs))
    with (match modified c with Some x => x :: omap modified cs | None => omap modified cs end).
  unfold recordOk in Hc. destruct (type c) eqn:Ht.
  - destruct Hc as (Ho & _ & [y Hm] & _). rewrite Ho, Hm. cbn.
    repeat case_decide; try congruence; lia.
  - destruct Hc as (Hm & _ & [x Ho] & _). rewrite Ho, Hm. cbn.
    repeat case_decide; try congruence; lia.
  - destruct Hc as ([x Ho] & [y Hm] & _). rewrite Ho, Hm. cbn.
    repeat case_decide; try congruence; lia.
  - destruct Hc as ((x & y & Ho & Hm & _) & _). rewrite Ho, Hm. cbn.
    repeat case_decide; try congruence; lia.
Qed.

(** X5: The number of tokens of the original text is stats.unchanged +
    stats.removed + stats.modified, and the number of tokens of the
    modified text is stats.unchanged + stats.added + stats.modified. *)
Theorem diff_accounts_for_tokens (toLowerCase : jsstring -> jsstring)
    (a b : jsstring) (o : DiffOptions) :
  length (tokenize a (granularityOf o))
  = stat_unchanged (stats (diff toLowerCase a b o))
    + stat_removed (stats (diff toLowerCase a b o))
    + stat_modified (stats (diff toLowerCase a b o))
  /\ length (tokenize b (granularityOf o))
     = stat_unchanged (stats (diff toLowerCase a b o))
       + stat_added (stats (diff toLowerCase a b o))
       + stat_modified (stats (diff toLowerCase a b o)).
Proof.
  destruct (diff_tokens_covered toLowerCase a b o) as [Ho Hm].
  destruct (recordOk_counts _ _ _ (diff_records_ok toLowerCase a b o))
    as [H1 H2].
  rewrite Ho in H1. rewrite Hm in H2. split; [exact H1 | exact H2].
Qed.

Lemma merge_reject_all sem norm (cs : list DiffChange) (f : nat -> Decision) :
  Forall (recordOk sem norm) cs ->
  (forall i, i < length cs -> f i = reject) ->
  concat (imap (fun index change => mergeEntry change (f index)) cs)
  = originalTexts cs.
Proof.
  intros Hall. revert f. induction Hall as [|c cs Hc _ IH]; intros f Hf;
    [reflexivity|].
  rewrite imap_cons. cbn [concat]. unfold originalTexts in *.
  change (omap original (c :: cs))
    with (match original c with Some x => x :: omap original cs | None => omap original cs end).
  assert (E : concat (imap ((fun index change => mergeEntry change (f index)) ∘ S) cs)
              = omap original cs).
  { apply (IH (f ∘ S)). intros i Hi. apply Hf. cbn. lia. }
  rewrite E, (Hf 0) by (cbn; lia).
  unfold mergeEntry, recordOk in *. destruct (type c).
  - destruct Hc as (-> & _). reflexivity.
  - destruct Hc as (_ & _ & [x ->] & _). reflexivity.
  - destruct Hc as ([x ->] & _). reflexivity.
  - destruct Hc as ((x & y & -> & _) & _). reflexivity.
Qed.

Lemma merge_accept_all sem (cs : list DiffChange) (f : nat -> Decision) :
  Forall (recordOk sem (fun t => t)) cs ->
  (forall i, i < length cs -> f i = accept) ->
  concat (imap (fun index change => mergeEntry change (f index)) cs)
  = modifiedTexts cs.
Proof.
  intros Hall. revert f. induction Hall as [|c cs Hc _ IH]; intros f Hf;
    [reflexivity|].
  rewrite imap_cons. cbn [concat]. unfold modifiedTexts in *.
  change (omap modified (c :: cs))
    with (match modified c with Some x => x :: omap modified cs | None => omap modified cs end).
  assert (E : concat (imap ((fun index change => mergeEntry change (f index)) ∘ S) cs)
              = omap modified cs).
  { apply (IH (f ∘ S)). intros i Hi. apply Hf. cbn. lia. }
  rewrite E, (Hf 0) by (cbn; lia).
  unfold mergeEntry, recordOk in *. destruct (type c).
  - destruct Hc as (_ & _ & [x ->] & _). reflexivity.
  - destruct Hc as (-> & _). reflexivity.
  - destruct Hc as (_ & [y ->] & _). reflexivity.
  - destruct Hc as ((x & y & -> & -> & Exy) & _). cbn. rewrite Exy. reflexivity.
Qed.

(** X8: When every record of a line-granularity diff is rejected,
    generateMergedText gives back the original text, with each CR LF
    line break written as LF (the original text itself when it has no
    CR LF): rejection keeps the original side of every record and
    drops the added ones. *)
Theorem merge_reject_restores_original (toLowerCase : jsstring -> jsstring)
    (a b : jsstring) (o : DiffOptions) (d : gmap nat Decision) :
  granularityOf o = line ->
  (forall i, i < length (changes (diff toLowerCase a b o)) -> d !! i = Some reject) ->
  generateMergedText (changes (diff toLowerCase a b o)) d = crlfToLf a.
Proof.
  intros Hg Hd. unfold generateMergedText.
  rewrite (merge_reject_all _ _ _ (fun index => default keep (d !! index))
             (diff_records_ok toLowerCase a b o))
    by (intros i Hi; rewrite (Hd i Hi); reflexivity).
  destruct (diff_tokens_covered toLowerCase a b o) as [-> _].
  rewrite Hg. apply tokenize_line_join_any.
Qed.

(** X9: When every record of a line-granularity diff run without
    ignoreWhitespace and ignoreCase is accepted, generateMergedText
    gives the modified text, with each CR LF line break written as LF:
    an accepted record contributes its modified side, and an unchanged
    record's original line then equals its modified line. *)
Theorem merge_accept_yields_modified (toLowerCase : jsstring -> jsstring)
    (a b : jsstring) (o : DiffOptions) (d : gmap nat Decision) :
  granularityOf o = line ->
  truthy (ignoreWhitespace o) = false -> truthy (ignoreCase o) = false ->
  (forall i, i < length (changes (diff toLowerCase a b o)) -> d !! i = Some accept) ->
  generateMergedText (changes (diff toLowerCase a b o)) d = crlfToLf b.
Proof.
  intros Hg Hws Hcs Hd. unfold generateMergedText.
  assert (Hok : Forall (recordOk (truthy (semanticAnalysis o)) (fun t => t))
                  (changes (diff toLowerCase a b o))).
  { eapply Forall_impl; [apply diff_records_ok|].
    intros c. unfold recordOk, normOf, normalize. rewrite Hws, Hcs. auto. }
  rewrite (merge_accept_all _ _ (fun index => default keep (d !! index)) Hok)
    by (intros i Hi; rewrite (Hd i Hi); reflexivity).
  destruct (diff_tokens_covered toLowerCase a b o) as [_ ->].
  rewrite Hg. apply tokenize_line_join_any.
Qed.

Lemma decideAll_lookup dec n i : i < n -> decideAll dec n !! i = Some dec.
Proof.
  intros Hi. unfold decideAll. apply elem_of_list_to_map_1.
  - rewrite <- list_fmap_compose. cbn. rewrite list_fmap_id. apply NoDup_seq.
  - apply list_elem_of_fmap. exists i. split; [reflexivity|].
    apply elem_of_seq. lia.
Qed.

Lemma merge_reject_restores_original_witness :
  generateMergedText
    (changes (diff asciiToLowerCase sampleOriginal sampleModified defaultOptions))
    (decideAll reject
       (length (changes (diff asciiToLowerCase sampleOriginal sampleModified
                           defaultOptions))))
  = crlfToLf sampleOriginal.
Proof.
  apply (merge_reject_restores_original asciiToLowerCase sampleOriginal
           sampleModified defaultOptions).
  - reflexivity.
  - apply decideAll_lookup.
Defined.

Lemma merge_accept_yields_modified_witness :
  generateMergedText
    (changes (diff asciiToLowerCase sampleOriginal sampleModified defaultOptions))
    (decideAll accept
       (length (changes (diff asciiToLowerCase sampleOriginal sampleModified
                           defaultOptions))))
  = crlfToLf sampleModified.
Proof.
  apply (merge_accept_yields_modified asciiToLowerCase sampleOriginal
           sampleModified defaultOptions).
  - reflexivity.
  - reflexivity.
  - reflexivity.
  - apply decideAll_lookup.
Defined.

(* ====================================================================== *)
(** * Navigation                                                           *)
(* ====================================================================== *)

Lemma changeAt_Some changes i c :
  changeAt changes i = Some c -> (0 <= i < Z.of_nat (length changes))%Z.
Proof.
  unfold changeAt. destruct (i <? 0)%Z eqn:Hi; [discriminate|].
  intros Hc%lookup_lt_Some. lia.
Qed.

Lemma changeAt_in_range changes i :
  (0 <= i < Z.of_nat (length changes))%Z -> is_Some (changeAt changes i).
Proof.
  intros Hi. unfold changeAt. destruct (i <? 0)%Z eqn:E; [lia|].
  apply lookup_lt_is_Some. lia.
Qed.

Lemma findNextLoop_spec changes fuel i :
  (0 <= i)%Z -> (Z.of_nat (length changes) - i < Z.of_nat fuel)%Z ->
  exists r, findNextLoop changes fuel i = Returns r
    /\ ((r = -1 /\ noChangeIn changes i (Z.of_nat (length changes)))%Z
        \/ ((i <= r)%Z /\ isChangeAt changes r /\ noChangeIn changes i r)).
Proof.
  revert i. induction fuel as [|fuel IH]; intros i Hi Hf.
  { exists (-1)%Z. split; [reflexivity|]. left. split; [reflexivity|].
    intros k Hk. lia. }
  cbn [findNextLoop]. destruct (i <? _)%Z eqn:Hlt.
  - apply Z.ltb_lt in Hlt.
    destruct (changeAt_in_range changes i) as [c Hc]; [lia|]. rewrite Hc.
    destruct (decide (type c <> Unchanged)) as [Hch|Hun].
    + exists i. split; [reflexivity|]. right. split; [lia|].
      split; [exists c; auto|]. intros k Hk. lia.
    + destruct (IH (i + 1)%Z) as (r & -> & Hr); [lia | lia |].
      exists r. split; [reflexivity|].
      assert (Hi' : ~ isChangeAt changes i).
      { intros (c' & Hc' & Hn). rewrite Hc in Hc'. injection Hc' as <-.
        exact (Hun Hn). }
      destruct Hr as [[-> Hno]|(Hle & Hr & Hno)]; [left|right].
      * split; [reflexivity|]. intros k Hk.
        destruct (decide (k = i)) as [->|]; [exact Hi'|]. apply Hno. lia.
      * split; [lia|]. split; [exact Hr|]. intros k Hk.
        destruct (decide (k = i)) as [->|]; [exact Hi'|]. apply Hno. lia.
  - apply Z.ltb_ge in Hlt. exists (-1)%Z. split; [reflexivity|]. left.
    split; [reflexivity|]. intros k Hk. lia.
Qed.

Lemma findNextChange_returns (changes : list DiffChange) (currentIndex : Z) :
  (-1 <= currentIndex)%Z ->
  exists r, findNextChange changes currentIndex = Returns r
    /\ ((r = -1
         /\ noChangeIn changes (currentIndex + 1) (Z.of_nat (length changes)))%Z
        \/ ((currentIndex < r)%Z /\ isChangeAt changes r
            /\ noChangeIn changes (currentIndex + 1) r)).
Proof.
  intros Hc. unfold findNextChange.
  destruct (findNextLoop_spec changes (S (length changes)) (currentIndex + 1)%Z)
    as (r & Hr & Hs); [lia | lia |].
  exists r. split; [exact Hr|]. destruct Hs as [Hs|(Hle & Hs)]; [left|right]; auto.
  split; [lia | exact Hs].
Qed.

(** X10: For currentIndex >= -1, findNextChange returns the smallest
    index above currentIndex whose record is not unchanged, and -1
    exactly when no record after currentIndex is a change (also when
    currentIndex is at or past the end). *)
Theorem findNextChange_finds_first (changes : list DiffChange) (currentIndex : Z) :
  (-1 <= currentIndex)%Z ->
  exists r, findNextChange changes currentIndex = Returns r
    /\ ((r = -1
         /\ noChangeIn changes (currentIndex + 1) (Z.of_nat (length changes)))%Z
        \/ ((currentIndex < r)%Z /\ isChangeAt changes r
            /\ noChangeIn changes (currentIndex + 1) r)).
Proof.
  intros Hc. unfold findNextChange.
  destruct (findNextLoop_spec changes (S (length changes)) (currentIndex + 1)%Z)
    as (r & Hr & Hs); [lia | lia |].
  exists r. split; [exact Hr|]. destruct Hs as [Hs|(Hle & Hs)]; [left|right]; auto.
  split; [lia | exact Hs].
Qed.

Lemma findNextChange_finds_first_witness :
  exists r, findNextChange sampleChanges 1 = Returns r
    /\ ((r = -1
         /\ noChangeIn sampleChanges (1 + 1) (Z.of_nat (length sampleChanges)))%Z
        \/ ((1 < r)%Z /\ isChangeAt sampleChanges r
            /\ noChangeIn sampleChanges (1 + 1) r)).
Proof. apply (findNextChange_finds_first sampleChanges 1). lia. Defined.

(** X11: For currentIndex < -1 (and an integer), findNextChange throws
    a TypeError whatever the list: the loop starts at a negative
    index, below changes.length, where changes[i] is undefined and its
    type is read. *)
Theorem findNextChange_throws_below (changes : list DiffChange) (currentIndex : Z) :
  (currentIndex < -1)%Z ->
  findNextChange changes currentIndex = ThrowsTypeError.
Proof.
  intros Hc. unfold findNextChange. cbn [findNextLoop].
  destruct (_ <? _)%Z eqn:Hlt; [|apply Z.ltb_ge in Hlt; lia].
  unfold changeAt. destruct (currentIndex + 1 <? 0)%Z eqn:E; [reflexivity|].
  apply Z.ltb_ge in E. lia.
Qed.

Lemma findNextChange_throws_below_witness :
  findNextChange sampleChanges (-2) = ThrowsTypeError.
Proof. apply (findNextChange_throws_below sampleChanges (-2)). lia. Defined.

Lemma findPreviousLoop_spec changes fuel i :
  (i < Z.of_nat (length changes))%Z -> (i + 1 < Z.of_nat fuel)%Z ->
  exists r, findPreviousLoop changes fuel i = Returns r
    /\ ((r = -1 /\ noChangeIn changes 0 (i + 1))%Z
        \/ ((0 <= r <= i)%Z /\ isChangeAt changes r
            /\ noChangeIn changes (r + 1) (i + 1))).
Proof.
  revert i. induction fuel as [|fuel IH]; intros i Hi Hf.
  { exists (-1)%Z. split; [reflexivity|]. left. split; [reflexivity|].
    intros k Hk. lia. }
  cbn [findPreviousLoop]. destruct (0 <=? i)%Z eqn:Hge.
  - apply Z.leb_le in Hge.
    destruct (changeAt_in_range changes i) as [c Hc]; [lia|]. rewrite Hc.
    destruct (decide (type c <> Unchanged)) as [Hch|Hun].
    + exists i. split; [reflexivity|]. right. split; [lia|].
      split; [exists c; auto|]. intros k Hk. lia.
    + destruct (IH (i - 1)%Z) as (r & -> & Hr); [lia | lia |].
      exists r. split; [reflexivity|].
      assert (Hi' : ~ isChangeAt changes i).
      { intros (c' & Hc' & Hn). rewrite Hc in Hc'. injection Hc' as <-.
        exact (Hun Hn). }
      replace (i - 1 + 1)%Z with i in Hr by lia.
      destruct Hr as [[-> Hno]|(Hle & Hr & Hno)]; [left|right].
      * split; [reflexivity|]. intros k Hk.
        destruct (decide (k = i)) as [->|]; [exact Hi'|]. apply Hno. lia.
      * split; [lia|]. split; [exact Hr|]. intros k Hk.
        destruct (decide (k = i)) as [->|]; [exact Hi'|]. apply Hno. lia.
  - apply Z.leb_gt in Hge. exists (-1)%Z. split; [reflexivity|]. left.
    split; [reflexivity|]. intros k Hk. lia.
Qed.

Lemma findPreviousChange_returns (changes : list DiffChange) (currentIndex : Z) :
  (currentIndex <= Z.of_nat (length changes))%Z ->
  exists r, findPreviousChange changes currentIndex = Returns r
    /\ ((r = -1 /\ noChangeIn changes 0 currentIndex)%Z
        \/ ((0 <= r < currentIndex)%Z /\ isChangeAt changes r
            /\ noChangeIn changes (r + 1) currentIndex)).
Proof.
  intros Hc. unfold findPreviousChange.
  destruct (findPreviousLoop_spec changes (S (length changes)) (currentIndex - 1)%Z)
    as (r & Hr & Hs); [lia | lia |].
  replace (currentIndex - 1 + 1)%Z with currentIndex in Hs by lia.
  exists r. split; [exact Hr|]. destruct Hs as [Hs|(Hle & Hs)]; [left|right]; auto.
  split; [lia | exact Hs].
Qed.

(** X12: For currentIndex <= changes.length, findPreviousChange
    returns the largest index below currentIndex whose record is not
    unchanged, and -1 exactly when no record before currentIndex is a
    change (also when currentIndex is zero or negative). *)
Theorem findPreviousChange_finds_last (changes : list DiffChange) (currentIndex : Z) :
  (currentIndex <= Z.of_nat (length changes))%Z ->
  exists r, findPreviousChange changes currentIndex = Returns r
    /\ ((r = -1 /\ noChangeIn changes 0 currentIndex)%Z
        \/ ((0 <= r < currentIndex)%Z /\ isChangeAt changes r
            /\ noChangeIn changes (r + 1) currentIndex)).
Proof.
  intros Hc. unfold findPreviousChange.
  destruct (findPreviousLoop_spec changes (S (length changes)) (currentIndex - 1)%Z)
    as (r & Hr & Hs); [lia | lia |].
  replace (currentIndex - 1 + 1)%Z with currentIndex in Hs by lia.
  exists r. split; [exact Hr|]. destruct Hs as [Hs|(Hle & Hs)]; [left|right]; auto.
  split; [lia | exact Hs].
Qed.

Lemma findPreviousChange_finds_last_witness :
  exists r, findPreviousChange sampleChanges 4 = Returns r
    /\ ((r = -1 /\ noChangeIn sampleChanges 0 4)%Z
        \/ ((0 <= r < 4)%Z /\ isChangeAt sampleChanges r
            /\ noChangeIn sampleChanges (r + 1) 4)).
Proof.
  apply (findPreviousChange_finds_last sampleChanges 4). vm_compute. discriminate.
Defined.

(** X13: For an integer currentIndex > changes.length,
    findPreviousChange throws a TypeError: the loop starts at
    currentIndex - 1, past the last record, where changes[i] is
    undefined and its type is read. *)
Theorem findPreviousChange_throws_beyond (changes : list DiffChange) (currentIndex : Z) :
  (Z.of_nat (length changes) < currentIndex)%Z ->
  findPreviousChange changes currentIndex = ThrowsTypeError.
Proof.
  intros Hc. unfold findPreviousChange. cbn [findPreviousLoop].
  destruct (0 <=? _)%Z eqn:Hge; [|apply Z.leb_gt in Hge; lia].
  unfold changeAt. destruct (currentIndex - 1 <? 0)%Z eqn:E;
    [apply Z.ltb_lt in E; lia|].
  rewrite lookup_ge_None_2 by lia. reflexivity.
Qed.

Lemma findPreviousChange_throws_beyond_witness :
  findPreviousChange sampleChanges 6 = ThrowsTypeError.
Proof.
  apply (findPreviousChange_throws_beyond sampleChanges 6). vm_compute. reflexivity.
Defined.

Lemma getAllChangeIndices_from_aux k cs :
  List.filter (fun index => negb (index =? -1)%Z)
    (imap (fun index change =>
             if decide (type change <> Unchanged) then Z.of_nat (k + index)
             else (-1)%Z) cs)
  = changeIndicesFrom k cs.
Proof.
  revert k. induction cs as [|c cs IH]; intros k; [reflexivity|].
  rewrite imap_cons. cbn [List.filter changeIndicesFrom].
  rewrite <- (IH (S k)).
  assert (E : imap ((fun index change =>
                       if decide (type change <> Unchanged)
                       then Z.of_nat (k + index) else (-1)%Z) ∘ S) cs
              = imap (fun index change =>
                        if decide (type change <> Unchanged)
                        then Z.of_nat (S k + index) else (-1)%Z) cs).
  { apply imap_ext. intros i x _. cbn. replace (k + S i) with (S (k + i)) by lia.
    reflexivity. }
  rewrite E. replace (k + 0) with k by lia.
  destruct (decide (type c <> Unchanged)).
  - replace (negb (Z.of_nat k =? -1)%Z) with true
      by (symmetry; apply negb_true_iff, Z.eqb_neq; lia).
    reflexivity.
  - reflexivity.
Qed.

Lemma getAllChangeIndices_from cs :
  getAllChangeIndices cs = changeIndicesFrom 0 cs.
Proof. apply (getAllChangeIndices_from_aux 0). Qed.

Lemma changeIndicesFrom_elem k cs z :
  z ∈ changeIndicesFrom k cs
  <-> exists i c, cs !! i = Some c /\ type c <> Unchanged /\ z = Z.of_nat (k + i).
Proof.
  revert k. induction cs as [|c cs IH]; intros k; cbn [changeIndicesFrom].
  - rewrite elem_of_nil. split; [tauto|]. intros (i & c & Hc & _). discriminate.
  - rewrite elem_of_app, IH. split.
    + intros [Hz|(i & c' & Hc & Hn & ->)].
      * destruct (decide (type c <> Unchanged)); [|by apply elem_of_nil in Hz].
        apply list_elem_of_singleton in Hz as ->.
        exists 0, c. repeat split; [assumption | f_equal; lia].
      * exists (S i), c'. repeat split; [assumption.. | f_equal; lia].
    + intros ([|i] & c' & Hc & Hn & ->).
      * left. injection Hc as <-. rewrite decide_True by exact Hn.
        apply list_elem_of_singleton. f_equal. lia.
      * right. exists i, c'. repeat split; [assumption.. | f_equal; lia].
Qed.

Lemma changeIndicesFrom_sorted k cs :
  StronglySorted Z.lt (changeIndicesFrom k cs).
Proof.
  revert k. induction cs as [|c cs IH]; intros k; cbn [changeIndicesFrom];
    [constructor|].
  destruct (decide (type c <> Unchanged)); cbn [app]; [|apply IH].
  constructor; [apply IH|]. apply Forall_forall. intros z Hz.
  apply changeIndicesFrom_elem in Hz as (i & c' & _ & _ & ->). lia.
Qed.

Lemma changeIndicesFrom_length k cs :
  length (changeIndicesFrom k cs)
  = countType Added cs + countType Removed cs + countType Modified cs.
Proof.
  revert k. induction cs as [|c cs IH]; intros k; [reflexivity|].
  cbn [changeIndicesFrom]. rewrite length_app, IH, !countType_cons.
  destruct (type c); repeat case_decide; try congruence; cbn [length]; lia.
Qed.

(** X14: getAllChangeIndices returns exactly the indices of the
    records that are not unchanged, in strictly increasing order;
    their number is the count of added, removed and modified records. *)
Theorem getAllChangeIndices_spec (changes : list DiffChange) :
  (forall z, z ∈ getAllChangeIndices changes <-> isChangeAt changes z)
  /\ StronglySorted Z.lt (getAllChangeIndices changes)
  /\ length (getAllChangeIndices changes)
     = countType Added changes + countType Removed changes
       + countType Modified changes.
Proof.
  rewrite getAllChangeIndices_from. split; [|split].
  - intros z. rewrite changeIndicesFrom_elem. unfold isChangeAt, changeAt. split.
    + intros (i & c & Hc & Hn & ->). exists c.
      destruct (_ <? 0)%Z eqn:E; [apply Z.ltb_lt in E; lia|].
      rewrite Nat2Z.id. auto.
    + intros (c & Hc & Hn). destruct (z <? 0)%Z eqn:E; [discriminate|].
      apply Z.ltb_ge in E. exists (Z.to_nat z), c. repeat split; auto. lia.
  - apply changeIndicesFrom_sorted.
  - apply changeIndicesFrom_length.
Qed.

(** X15: Navigation goes back where it came from: when record i is a
    change and findNextChange(changes, i) returns an index r other
    than -1, findPreviousChange(changes, r) returns i. *)
Theorem findPrevious_after_findNext (changes : list DiffChange) (i r : Z) :
  isChangeAt changes i ->
  findNextChange changes i = Returns r -> r <> (-1)%Z ->
  findPreviousChange changes r = Returns i.
Proof.
  intros Hi Hnext Hr.
  assert (Hi0 : (0 <= i)%Z).
  { destruct Hi as (c & Hc & _). apply changeAt_Some in Hc. lia. }
  destruct (findNextChange_returns changes i) as (r' & Hr' & Hs); [lia|].
  rewrite Hnext in Hr'. injection Hr' as <-.
  destruct Hs as [[-> _]|(Hlt & Hrc & Hno)]; [congruence|].
  assert (Hrlen : (r < Z.of_nat (length changes))%Z).
  { destruct Hrc as (c & Hc & _). apply changeAt_Some in Hc. lia. }
  destruct (findPreviousChange_returns changes r) as (p & Hp & Hs); [lia|].
  rewrite Hp. f_equal.
  destruct Hs as [[-> Hnone]|(Hrange & Hpc & Hnone)].
  - exfalso. apply (Hnone i); [lia | exact Hi].
  - destruct (Z.lt_trichotomy p i) as [Hlt'|[->|Hgt]]; [|reflexivity|].
    + exfalso. apply (Hnone i); [lia | exact Hi].
    + exfalso. apply (Hno p); [lia | exact Hpc].
Qed.

Lemma findPrevious_after_findNext_witness :
  findPreviousChange sampleChanges 2 = Returns 1%Z.
Proof.
  apply (findPrevious_after_findNext sampleChanges 1 2).
  - eexists. split; [vm_compute; reflexivity | discriminate].
  - vm_compute. reflexivity.
  - lia.
Defined.

(* ====================================================================== *)
(** * Character diff, position by position                                 *)
(* ====================================================================== *)

Lemma take_imap_S {A B} (f : nat -> A -> B) (l : list A) i x :
  l !! i = Some x -> take (S i) (imap f l) = take i (imap f l) ++ [f i x].
Proof.
  intros Hx. apply take_S_r. rewrite list_lookup_imap, Hx. reflexivity.
Qed.

Section CharPositions.
Variables original modified : jsstring.

Lemma charStep_posInv st :
  charWalking (splitChars original) (splitChars modified) st = true ->
  charPosInv original modified st ->
  charPosInv original modified
    (charStep (splitChars original) (splitChars modified) st).
Proof.
  unfold charWalking, charPosInv. rewrite !length_splitChars.
  intros Hw (Ho & Hm & Hrel & Hor & Hmr).
  unfold charStep. rewrite !length_splitChars, !splitChars_lookup.
  destruct (original !! origIdx st) as [x|] eqn:Hx;
    destruct (modified !! modIdx st) as [y|] eqn:Hy; cbn [fmap option_fmap option_map orEmpty default].
  all: try (apply lookup_lt_Some in Hx as Hxl).
  all: try (apply lookup_lt_Some in Hy as Hyl).
  all: try (apply lookup_ge_None in Hx as Hxl).
  all: try (apply lookup_ge_None in Hy as Hyl).
  - assert (Hij : origIdx st = modIdx st) by lia. rewrite Hij in *.
    destruct (strictEq (Some [x]) (Some [y])) eqn:Heq; bool_facts.
    + injection Heq as <-.
      rewrite !bool_decide_eq_true_2 by discriminate. cbn [andb].
      cbn [origIdx modIdx origResult modResult].
      rewrite (take_imap_S _ _ _ _ Hx), (take_imap_S _ _ _ _ Hy), <- Hor, <- Hmr.
      unfold positionalEntry. rewrite Hx, Hy.
      rewrite !decide_True by reflexivity.
      repeat split; try lia; reflexivity.
    + cbn [andb].
      destruct (length original <=? modIdx st) eqn:E1; [apply Nat.leb_le in E1; lia|].
      destruct (length modified <=? modIdx st) eqn:E2; [apply Nat.leb_le in E2; lia|].
      cbn [origIdx modIdx origResult modResult].
      rewrite (take_imap_S _ _ _ _ Hx), (take_imap_S _ _ _ _ Hy), <- Hor, <- Hmr.
      unfold positionalEntry. rewrite Hx, Hy.
      rewrite !decide_False by congruence.
      repeat split; try lia; reflexivity.
  - replace (strictEq (Some [x]) None) with false by reflexivity. cbn [andb].
    destruct (length original <=? origIdx st) eqn:E1; [apply Nat.leb_le in E1; lia|].
    destruct (length modified <=? modIdx st) eqn:E2; [|apply Nat.leb_gt in E2; lia].
    cbn [origIdx modIdx origResult modResult].
    rewrite (take_imap_S _ _ _ _ Hx), <- Hor.
    unfold positionalEntry at 1.
    rewrite decide_False
      by (rewrite lookup_ge_None_2 by lia; discriminate).
    repeat split; try lia; assumption.
  - replace (strictEq None (Some [y])) with false by reflexivity. cbn [andb].
    destruct (length original <=? origIdx st) eqn:E1; [|apply Nat.leb_gt in E1; lia].
    cbn [origIdx modIdx origResult modResult].
    rewrite (take_imap_S _ _ _ _ Hy), <- Hmr.
    unfold positionalEntry at 2.
    rewrite decide_False
      by (rewrite lookup_ge_None_2 by lia; discriminate).
    repeat split; try lia; assumption.
  - apply orb_prop in Hw as [Hw|Hw]; apply Nat.ltb_lt in Hw; lia.
Qed.

Lemma charLoop_posInv fuel st :
  charPosInv original modified st ->
  charPosInv original modified
    (charLoop (splitChars original) (splitChars modified) fuel st).
Proof.
  revert st. induction fuel as [|fuel IH]; intros st Hinv; [exact Hinv|].
  cbn [charLoop]. destruct (charWalking _ _ st) eqn:Hw; [|exact Hinv].
  apply IH, charStep_posInv; assumption.
Qed.
End CharPositions.

(** X16: computeCharacterDiff compares the two strings position by
    position, with no alignment: the entry of the original side at
    index i is unchanged exactly when the modified string has the same
    code unit at index i, and removed otherwise (also past the end of
    the modified string); symmetrically the entry of the modified side
    is unchanged or added. *)
Theorem computeCharacterDiff_is_positional (original modified : jsstring) :
  cd_original (computeCharacterDiff original modified)
  = imap (positionalEntry CharRemoved modified) original
  /\ cd_modified (computeCharacterDiff original modified)
     = imap (positionalEntry CharAdded original) modified.
Proof.
  unfold computeCharacterDiff. cbn [cd_original cd_modified].
  rewrite !length_splitChars.
  set (start := {| origIdx := 0; modIdx := 0; origResult := []; modResult := [] |}).
  assert (Hstart : charPosInv original modified start).
  { unfold charPosInv, start. cbn. repeat split; try lia. }
  destruct (charLoop_posInv original modified (length original + length modified)
              start Hstart) as (Ho & Hm & _ & Hor & Hmr).
  destruct (charLoop_inv original modified (length original + length modified) start)
    as [_ Hexit].
  { unfold charInv, start. cbn. repeat split; try lia; constructor. }
  { unfold charRemaining, start. cbn. lia. }
  unfold charWalking in Hexit. rewrite !length_splitChars in Hexit.
  apply orb_false_elim in Hexit as [H1 H2]. bool_facts.
  rewrite Hor, Hmr, !take_ge by (rewrite length_imap; lia). auto.
Qed.

(* ====================================================================== *)
(** * Normalizer                                                           *)
(* ====================================================================== *)

Lemma replaceWsRuns_shape b s :
  singleSpaced (replaceWsRuns b s) = true
  /\ (b = true -> headNotWs (replaceWsRuns b s) = true).
Proof.
  revert b. induction s as [|c s IH]; intros b; [split; reflexivity|].
  cbn [replaceWsRuns]. destruct (isWhiteSpace c) eqn:Hc.
  - destruct b.
    + apply IH.
    + destruct (IH true) as [H1 H2]. split; [|discriminate].
      cbn [singleSpaced]. change (isWhiteSpace SPACE) with true. cbv iota.
      rewrite N.eqb_refl, H1, H2 by reflexivity. reflexivity.
  - destruct (IH false) as [H1 _]. split.
    + cbn [singleSpaced]. rewrite Hc, H1. reflexivity.
    + intros _. cbn [headNotWs]. rewrite Hc. reflexivity.
Qed.

Lemma headNotWs_take k s : headNotWs s = true -> headNotWs (take k s) = true.
Proof. destruct k, s; auto. Qed.

Lemma singleSpaced_drop n s : singleSpaced s = true -> singleSpaced (drop n s) = true.
Proof.
  revert s. induction n as [|n IH]; intros [|c s] H; try exact H.
  cbn [singleSpaced] in H. apply andb_prop in H as [_ H]. apply IH, H.
Qed.

Lemma singleSpaced_take k s : singleSpaced s = true -> singleSpaced (take k s) = true.
Proof.
  revert s. induction k as [|k IH]; intros [|c s] H; try reflexivity.
  cbn [singleSpaced] in H. apply andb_prop in H as [H1 H2].
  cbn [take firstn singleSpaced]. rewrite (IH _ H2), andb_true_r.
  destruct (isWhiteSpace c); [|reflexivity].
  apply andb_prop in H1 as [-> H1]. rewrite (headNotWs_take _ _ H1). reflexivity.
Qed.

Lemma trimEnd_take s : trimEnd s = take (length s - spanLen isWhiteSpace (rev s)) s.
Proof.
  unfold trimEnd, trimStart. rewrite skipn_rev, rev_involutive. reflexivity.
Qed.

Lemma headNotWs_trimStart s : headNotWs (trimStart s) = true.
Proof.
  unfold trimStart. induction s as [|c s IH]; [reflexivity|].
  cbn [spanLen]. destruct (isWhiteSpace c) eqn:Hc; [exact IH|].
  cbn. rewrite Hc. reflexivity.
Qed.

Lemma trimStart_id s : headNotWs s = true -> trimStart s = s.
Proof.
  unfold trimStart. destruct s as [|c s]; [reflexivity|]. cbn.
  destruct (isWhiteSpace c); [discriminate | reflexivity].
Qed.

Lemma trimEnd_id s : headNotWs (rev s) = true -> trimEnd s = s.
Proof. intros H. unfold trimEnd. rewrite trimStart_id by exact H. apply rev_involutive. Qed.

Lemma replaceWsRuns_flag s :
  headNotWs s = true -> replaceWsRuns true s = replaceWsRuns false s.
Proof.
  destruct s as [|c s]; [reflexivity|]. cbn.
  destruct (isWhiteSpace c); [discriminate | reflexivity].
Qed.

Lemma replaceWsRuns_id s : singleSpaced s = true -> replaceWsRuns false s = s.
Proof.
  induction s as [|c s IH]; [reflexivity|]. cbn [singleSpaced replaceWsRuns].
  intros [H1 H2]%andb_prop. destruct (isWhiteSpace c).
  - apply andb_prop in H1 as [Hc Hh]. apply N.eqb_eq in Hc. subst c.
    rewrite (replaceWsRuns_flag _ Hh), (IH H2). reflexivity.
  - rewrite (IH H2). reflexivity.
Qed.

(** X19: With ignoreWhitespace on (and ignoreCase off) normalize
    returns a text whose only white space is single spaces between
    other characters: every white-space unit is a space not followed
    by white space, and the text neither starts nor ends with white
    space; normalizing it again changes nothing. *)
Theorem normalize_whitespace_canonical (toLowerCase : jsstring -> jsstring)
    (text : jsstring) :
  singleSpaced (normalize toLowerCase text true false) = true
  /\ headNotWs (normalize toLowerCase text true false) = true
  /\ headNotWs (rev (normalize toLowerCase text true false)) = true
  /\ normalize toLowerCase (normalize toLowerCase text true false) true false
     = normalize toLowerCase text true false.
Proof.
  unfold normalize, trim.
  set (r := replaceWsRuns false text).
  assert (H1 : singleSpaced (trimEnd (trimStart r)) = true).
  { rewrite trimEnd_take. apply singleSpaced_take. unfold trimStart.
    apply singleSpaced_drop, replaceWsRuns_shape. }
  assert (H2 : headNotWs (trimEnd (trimStart r)) = true).
  { rewrite trimEnd_take. apply headNotWs_take, headNotWs_trimStart. }
  assert (H3 : headNotWs (rev (trimEnd (trimStart r))) = true).
  { unfold trimEnd. rewrite rev_involutive. apply headNotWs_trimStart. }
  repeat split; try assumption.
  rewrite (replaceWsRuns_id _ H1), (trimStart_id _ H2), (trimEnd_id _ H3).
  reflexivity.
Qed.

(* ====================================================================== *)
(** * Streaming coordinator: chunks and the chunked path                   *)
(* ====================================================================== *)

Lemma chunksLoop_concat chunkSize fuel s :
  0 < chunkSize -> concat (chunksLoop chunkSize fuel s) = s.
Proof.
  intros Hc. revert s. induction fuel as [|fuel IH]; intros [|c s];
    cbn [chunksLoop concat]; rewrite ?app_nil_r; try reflexivity.
  rewrite IH, take_drop. reflexivity.
Qed.

Lemma chunksLoop_sizes chunkSize fuel s :
  0 < chunkSize -> length s <= fuel ->
  Forall (fun c => 0 < length c <= chunkSize) (chunksLoop chunkSize fuel s).
Proof.
  intros Hc. revert s. induction fuel as [|fuel IH]; intros [|c s] Hf;
    cbn [length] in Hf; try lia; cbn [chunksLoop]; [constructor..|].
  constructor.
  - rewrite length_take. cbn [length]. lia.
  - apply IH. rewrite length_drop. cbn [length]. lia.
Qed.

(** X20: For a positive chunk size the chunk list streamDiff builds
    from a text (text.match(/.{1,chunkSize}/gs) || [text]) is never
    empty and concatenates back to the text; for a non-empty text
    every chunk holds between 1 and chunkSize code units. *)
Theorem chunksOf_recomposes (chunkSize : nat) (text : jsstring) :
  0 < chunkSize ->
  concat (chunksOf chunkSize text) = text
  /\ chunksOf chunkSize text <> []
  /\ (text <> [] ->
      Forall (fun c => 0 < length c <= chunkSize) (chunksOf chunkSize text)).
Proof.
  intros Hc. unfold chunksOf. destruct text as [|c text].
  - repeat split; [discriminate | congruence].
  - split; [|split].
    + apply chunksLoop_concat, Hc.
    + cbn. discriminate.
    + intros _. apply chunksLoop_sizes; [exact Hc | lia].
Qed.

Lemma chunksOf_recomposes_witness :
  concat (chunksOf 2 sampleOriginal) = sampleOriginal
  /\ chunksOf 2 sampleOriginal <> []
  /\ (sampleOriginal <> [] ->
      Forall (fun c => 0 < length c <= 2) (chunksOf 2 sampleOriginal)).
Proof. apply (chunksOf_recomposes 2 sampleOriginal). lia. Defined.

Section ChunkLoop.
Variable toLowerCase : jsstring -> jsstring.
Variable options : DiffOptions.
Variables origChunks modChunks : list jsstring.
Variable totalLength : nat.

Lemma chunkChanges_S k :
  chunkChanges toLowerCase options origChunks modChunks (S k)
  = chunkChanges toLowerCase options origChunks modChunks k
    ++ changes (diff toLowerCase (chunkAt origChunks k) (chunkAt modChunks k) options).
Proof.
  unfold chunkChanges. rewrite seq_S, fmap_app, concat_app. cbn.
  rewrite app_nil_r. reflexivity.
Qed.

Lemma chunkStep_inv k st :
  chunkInv toLowerCase options origChunks modChunks k st ->
  chunkInv toLowerCase options origChunks modChunks (S k)
    (chunkStep toLowerCase options origChunks modChunks totalLength st k).
Proof.
  destruct st as [[allChanges processed] events].
  unfold chunkInv. cbn [fst snd]. intros (-> & Hc & Hp).
  unfold chunkStep. cbn [fst snd]. fold (chunkAt origChunks k) (chunkAt modChunks k).
  rewrite <- chunkChanges_S. split; [reflexivity|].
  rewrite !fmap_app, Hc, Hp, seq_S, fmap_app. cbn.
  split; [|reflexivity].
  rewrite <- (replicate_S_end k). reflexivity.
Qed.

Lemma chunkLoop_inv n :
  chunkInv toLowerCase options origChunks modChunks n
    (foldl (chunkStep toLowerCase options origChunks modChunks totalLength)
           ([], 0, []) (seq 0 n)).
Proof.
  induction n as [|n IH]; [repeat split|].
  rewrite seq_S, foldl_app. cbn [foldl]. apply chunkStep_inv, IH.
Qed.
End ChunkLoop.

Lemma streamDiff_chunked_shape (toLowerCase : jsstring -> jsstring)
    (original modified : jsstring) (options : DiffOptions) (chunkSize : nat) :
  0 < chunkSize ->
  chunkSize * 10 < Nat.max (length original) (length modified) ->
  exists events final,
    streamDiff toLowerCase original modified options chunkSize
    = Yields (events ++ [final])
    /\ length events
       = Nat.max (length (chunksOf chunkSize original))
                 (length (chunksOf chunkSize modified))
    /\ complete <$> events = replicate (length events) false
    /\ partial <$> events
       = (fun n => partialOf (chunkChanges toLowerCase options
                                (chunksOf chunkSize original)
                                (chunksOf chunkSize modified) n))
         <$> seq 1 (length events)
    /\ final
       = {| progress := 100%float;
            partial := partialOf (chunkChanges toLowerCase options
                                    (chunksOf chunkSize original)
                                    (chunksOf chunkSize modified) (length events));
            complete := true |}.
Proof.
  intros Hc Hbig. unfold streamDiff.
  destruct (_ <? _) eqn:Hlt; [|apply Nat.ltb_ge in Hlt; lia].
  destruct chunkSize as [|cs]; [lia|].
  set (oc := chunksOf (S cs) original). set (mc := chunksOf (S cs) modified).
  pose proof (chunkLoop_inv toLowerCase options oc mc
                (Nat.max (length original) (length modified))
                (Nat.max (length oc) (length mc))) as Hinv.
  destruct (foldl _ _ _) as [[allChanges processed] events].
  destruct Hinv as (Ha & Hcm & Hp). cbn [fst snd] in *.
  assert (Hlen : length events = Nat.max (length oc) (length mc)).
  { apply (f_equal length) in Hcm. rewrite length_fmap, length_replicate in Hcm.
    exact Hcm. }
  eexists events, _. split; [reflexivity|]. rewrite Hlen.
  repeat split; try assumption. unfold partialOf. rewrite Ha. reflexivity.
Qed.

(** X22: On the chunked path (max length > 10 * chunkSize, chunkSize
    positive) streamDiff yields one event per chunk index, max(number
    of original chunks, number of modified chunks) of them, and then
    the final one; the change list of the k-th event, when it is
    yielded, is the concatenation of the change lists of diff on the
    first k chunk pairs (a missing chunk counts as the empty string),
    and the final event carries the list of all the pairs. *)
Theorem streamDiff_chunked_accumulates (toLowerCase : jsstring -> jsstring)
    (original modified : jsstring) (options : DiffOptions) (chunkSize : nat) :
  0 < chunkSize ->
  chunkSize * 10 < Nat.max (length original) (length modified) ->
  exists events final,
    streamDiff toLowerCase original modified options chunkSize
    = Yields (events ++ [final])
    /\ length events
       = Nat.max (length (chunksOf chunkSize original))
                 (length (chunksOf chunkSize modified))
    /\ partial <$> events
       = (fun n => partialOf (chunkChanges toLowerCase options
                                (chunksOf chunkSize original)
                                (chunksOf chunkSize modified) n))
         <$> seq 1 (length events)
    /\ partial final
       = partialOf (chunkChanges toLowerCase options
                      (chunksOf chunkSize original)
                      (chunksOf chunkSize modified) (length events)).
Proof.
  intros Hc Hbig.
  destruct (streamDiff_chunked_shape toLowerCase original modified options
              chunkSize Hc Hbig) as (events & final & Hs & Hl & _ & Hp & ->).
  exists events. eexists. split; [exact Hs|]. auto.
Qed.

Lemma streamDiff_chunked_accumulates_witness :
  exists events final,
    streamDiff asciiToLowerCase sampleOriginal sampleModified defaultOptions 2
    = Yields (events ++ [final])
    /\ length events
       = Nat.max (length (chunksOf 2 sampleOriginal))
                 (length (chunksOf 2 sampleModified))
    /\ partial <$> events
       = (fun n => partialOf (chunkChanges asciiToLowerCase defaultOptions
                                (chunksOf 2 sampleOriginal)
                                (chunksOf 2 sampleModified) n))
         <$> seq 1 (length events)
    /\ partial final
       = partialOf (chunkChanges asciiToLowerCase defaultOptions
                      (chunksOf 2 sampleOriginal)
                      (chunksOf 2 sampleModified) (length events)).
Proof.
  apply (streamDiff_chunked_accumulates asciiToLowerCase sampleOriginal
           sampleModified defaultOptions 2).
  - lia.
  - vm_compute. lia.
Defined.

(** X21: For every positive chunkSize, on either path, streamDiff
    yields at least two events and then ends; every event but the last
    has complete = false, the last has complete = true and progress =
    100, and every event carries a partial result whose stats, when it
    is yielded, are the four counts of its change list. *)
Theorem streamDiff_ends_complete (toLowerCase : jsstring -> jsstring)
    (original modified : jsstring) (options : DiffOptions) (chunkSize : nat) :
  0 < chunkSize ->
  exists events final,
    streamDiff toLowerCase original modified options chunkSize
    = Yields (events ++ [final])
    /\ events <> []
    /\ Forall (fun e => complete e = false) events
    /\ complete final = true
    /\ progress final = 100%float
    /\ Forall (fun e => exists r, partial e = Some r
                                  /\ stats r = computeStats (changes r))
              (events ++ [final]).
Proof.
  intros Hc.
  destruct (decide (chunkSize * 10 < Nat.max (length original) (length modified)))
    as [Hbig|Hsmall].
  - destruct (streamDiff_chunked_shape toLowerCase original modified options
                chunkSize Hc Hbig) as (events & final & Hs & Hl & Hcm & Hp & ->).
    exists events. eexists. split; [exact Hs|]. split; [|split; [|split; [|split]]].
    + intros ->. cbn in Hl.
      assert (chunksOf chunkSize original <> []).
      { unfold chunksOf. destruct original; cbn; [discriminate|].
        destruct (length _); discriminate. }
      destruct (chunksOf chunkSize original); [congruence|]. cbn in Hl. lia.
    + apply Forall_forall. intros e He.
      assert (Hin : complete e ∈ complete <$> events)
        by (apply list_elem_of_fmap; eauto).
      rewrite Hcm in Hin. apply elem_of_replicate in Hin as [-> _]. reflexivity.
    + reflexivity.
    + reflexivity.
    + apply Forall_app. split.
      * apply Forall_forall. intros e He.
        assert (Hin : partial e ∈ partial <$> events)
          by (apply list_elem_of_fmap; eauto).
        rewrite Hp in Hin. apply list_elem_of_fmap in Hin as (n & -> & _).
        eexists. split; reflexivity.
      * constructor; [|constructor]. eexists. split; reflexivity.
  - exists [ {| progress := 50%float;
               partial := Some (diff toLowerCase original modified options);
               complete := false |} ].
    eexists. split.
    + unfold streamDiff. destruct (_ <? _) eqn:Hlt;
        [apply Nat.ltb_lt in Hlt; lia | reflexivity].
    + split; [discriminate|]. split; [repeat constructor|].
      split; [reflexivity|]. split; [reflexivity|].
      repeat constructor; eexists; split; reflexivity.
Qed.

Lemma streamDiff_ends_complete_witness :
  exists events final,
    streamDiff asciiToLowerCase sampleOriginal sampleModified defaultOptions 2
    = Yields (events ++ [final])
    /\ events <> []
    /\ Forall (fun e => complete e = false) events
    /\ complete final = true
    /\ progress final = 100%float
    /\ Forall (fun e => exists r, partial e = Some r
                                  /\ stats r = computeStats (changes r))
              (events ++ [final]).
Proof.
  apply (streamDiff_ends_complete asciiToLowerCase sampleOriginal sampleModified
           defaultOptions 2).
  lia.
Defined.

(** X23: With chunkSize = 0 and at least one non-empty text,
    streamDiff takes the chunked path and throws before yielding
    anything: the pattern .{1,0} is not a valid regular expression. *)
Theorem streamDiff_zero_chunk_throws (toLowerCase : jsstring -> jsstring)
    (original modified : jsstring) (options : DiffOptions) :
  0 < Nat.max (length original) (length modified) ->
  streamDiff toLowerCase original modified options 0 = Throws.
Proof.
  intros Hpos. unfold streamDiff. cbn [Nat.mul].
  destruct (_ <? _) eqn:Hlt; [reflexivity|]. apply Nat.ltb_ge in Hlt. lia.
Qed.

Lemma streamDiff_zero_chunk_throws_witness :
  streamDiff asciiToLowerCase sampleOriginal sampleModified defaultOptions 0
  = Throws.
Proof.
  apply (streamDiff_zero_chunk_throws asciiToLowerCase sampleOriginal
           sampleModified defaultOptions).
  vm_compute. lia.
Defined.

(* ====================================================================== *)
(** * Insights and summary                                                 *)
(* ====================================================================== *)

Lemma largestStep_inv cs st c :
  largestInv cs st -> largestInv (cs ++ [c]) (largestStep st c).
Proof.
  destruct st as [best maxLength]. unfold largestInv, largestStep. cbn [fst snd].
  intros Hinv. destruct (decide (type c <> Unchanged)) as [Hc|Hc].
  - destruct (maxLength <? changeLength c) eqn:Hlt; bool_facts; cbn [fst snd].
    + split; [reflexivity|]. split; [destruct best; lia|]. split; [exact Hc|].
      exists (length cs). split; [apply list_lookup_middle; reflexivity|].
      intros j c' Hj Hc'.
      destruct (decide (j < length cs)) as [Hjl|Hjl].
      * rewrite lookup_app_l in Hj by exact Hjl.
        destruct best as [b|].
        -- destruct Hinv as (-> & _ & _ & i & _ & Hall).
           destruct (Hall j c' Hj Hc') as [Hle _]. lia.
        -- destruct Hinv as (-> & Hall).
           rewrite (Hall c') by (try assumption; eapply list_elem_of_lookup_2; eauto).
           lia.
      * apply lookup_lt_Some in Hj as Hjb. rewrite length_app in Hjb. cbn in Hjb.
        assert (j = length cs) by lia. subst j.
        rewrite list_lookup_middle in Hj by reflexivity. injection Hj as <-. lia.
    + destruct best as [b|].
      * destruct Hinv as (-> & Hpos & Hb & i & Hi & Hall).
        repeat split; try assumption. exists i.
        split; [apply lookup_app_l_Some; exact Hi|].
        intros j c' Hj Hc'. destruct (decide (j < length cs)) as [Hjl|Hjl].
        -- rewrite lookup_app_l in Hj by exact Hjl. apply Hall; assumption.
        -- apply lookup_lt_Some in Hj as Hjb. rewrite length_app in Hjb. cbn in Hjb.
           assert (j = length cs) by lia. subst j.
           rewrite list_lookup_middle in Hj by reflexivity. injection Hj as <-.
           apply lookup_lt_Some in Hi. split; lia.
      * destruct Hinv as (-> & Hall). split; [reflexivity|].
        intros c' [Hin|Hin]%elem_of_app Hc'; [apply Hall; assumption|].
        apply list_elem_of_singleton in Hin as ->. lia.
  - destruct best as [b|].
    + destruct Hinv as (-> & Hpos & Hb & i & Hi & Hall).
      repeat split; try assumption. exists i.
      split; [apply lookup_app_l_Some; exact Hi|].
      intros j c' Hj Hc'. destruct (decide (j < length cs)) as [Hjl|Hjl].
      * rewrite lookup_app_l in Hj by exact Hjl. apply Hall; assumption.
      * apply lookup_lt_Some in Hj as Hjb. rewrite length_app in Hjb. cbn in Hjb.
        assert (j = length cs) by lia. subst j.
        rewrite list_lookup_middle in Hj by reflexivity. injection Hj as <-.
        contradiction.
    + destruct Hinv as (-> & Hall). split; [reflexivity|].
      intros c' [Hin|Hin]%elem_of_app Hc'; [apply Hall; assumption|].
      apply list_elem_of_singleton in Hin as ->. contradiction.
Qed.

Lemma largest_fold_inv cs : largestInv cs (foldl largestStep (None, 0) cs).
Proof.
  induction cs as [|c cs IH] using rev_ind.
  - split; [reflexivity|]. intros c Hc. by apply elem_of_nil in Hc.
  - rewrite foldl_app. cbn [foldl]. apply largestStep_inv, IH.
Qed.

(** X26: largestChange of computeDiffInsights is the first record,
    among those that are not unchanged, of greatest length
    max(|original|, |modified|): no change is longer and every earlier
    change is strictly shorter; it is null exactly when every change
    has length zero (no change at all included). *)
Theorem largestChange_is_first_longest (result : DiffResult) :
  match Insights.largestChange (computeDiffInsights result) with
  | None =>
      forall c, c ∈ changes result -> type c <> Unchanged -> changeLength c = 0
  | Some c =>
      0 < changeLength c /\ type c <> Unchanged
      /\ exists i, changes result !! i = Some c
           /\ (forall j c', changes result !! j = Some c' -> type c' <> Unchanged ->
                 changeLength c' <= changeLength c
                 /\ (j < i -> changeLength c' < changeLength c))
  end.
Proof.
  pose proof (largest_fold_inv (changes result)) as Hinv.
  unfold largestInv in Hinv. cbn [computeDiffInsights Insights.largestChange].
  destruct (fst _) as [c|]; [|apply Hinv].
  destruct Hinv as (_ & H). exact H.
Qed.

(** X27: For the result of diff, totalChanges of computeDiffInsights
    is the number of indices getAllChangeIndices returns, and
    totalChanges plus stats.unchanged is the number of records. *)
Theorem insights_total_matches_navigation (toLowerCase : jsstring -> jsstring)
    (a b : jsstring) (o : DiffOptions) :
  Insights.totalChanges (computeDiffInsights (diff toLowerCase a b o))
  = length (getAllChangeIndices (changes (diff toLowerCase a b o)))
  /\ Insights.totalChanges (computeDiffInsights (diff toLowerCase a b o))
     + stat_unchanged (stats (diff toLowerCase a b o))
     = length (changes (diff toLowerCase a b o)).
Proof.
  pose proof (changeIndicesFrom_length 0 (changes (diff toLowerCase a b o)))
    as Hlen.
  rewrite <- getAllChangeIndices_from in Hlen.
  pose proof (countType_total (changes (diff toLowerCase a b o))) as Htot.
  cbn [computeDiffInsights Insights.totalChanges]. rewrite Hlen.
  unfold diff in *.
  cbn [stats changes computeStats stat_added stat_removed stat_modified
       stat_unchanged] in *.
  split; [reflexivity | lia].
Qed.

Lemma spanLen_stop p l c r : p c = false -> spanLen p (l ++ c :: r) <= length l.
Proof.
  intros Hc. induction l as [|d l IH]; cbn [app spanLen length].
  - rewrite Hc. lia.
  - destruct (p d); lia.
Qed.

Lemma trim_head c rest :
  isWhiteSpace c = false -> head (trim (c :: rest)) = Some c.
Proof.
  intros Hc. unfold trim.
  assert (Hs : trimStart (c :: rest) = c :: rest).
  { unfold trimStart. cbn. rewrite Hc. reflexivity. }
  rewrite Hs. unfold trimEnd, trimStart.
  rewrite skipn_rev, rev_involutive.
  pose proof (spanLen_stop isWhiteSpace (rev rest) c [] Hc) as Hk.
  rewrite length_rev in Hk. cbn [rev].
  destruct (length (c :: rest) - spanLen isWhiteSpace (rev rest ++ [c])) eqn:E;
    [cbn [length] in E; lia | reflexivity].
Qed.

Lemma trim_last l c :
  isWhiteSpace c = false -> last (trim (l ++ [c])) = Some c.
Proof.
  intros Hc. unfold trim.
  pose proof (spanLen_stop isWhiteSpace l c [] Hc) as Hk.
  unfold trimStart at 1. rewrite drop_app_le by exact Hk.
  unfold trimEnd. rewrite rev_unit. unfold trimStart. cbn [spanLen]. rewrite Hc.
  rewrite drop_0. cbn [rev]. rewrite rev_involutive. apply last_snoc.
Qed.

(** X24: The summary of summarizeChanges is the text 'No changes
    detected' exactly when all four counts of result.stats are zero;
    note that a result with unchanged records only does not get it
    (its summary is 'N item(s) unchanged.'). *)
Theorem summary_reports_no_changes (result : DiffResult) :
  summary (summarizeChanges result) = js "No changes detected"
  <-> stat_added (stats result) = 0 /\ stat_removed (stats result) = 0
      /\ stat_modified (stats result) = 0 /\ stat_unchanged (stats result) = 0.
Proof.
  cbn [summarizeChanges summary]. unfold summaryText.
  destruct (stats result) as [a r m u]. cbn [stat_added stat_removed stat_modified stat_unchanged].
  split; [|intros (-> & -> & -> & ->); reflexivity].
  destruct a as [|a], r as [|r], m as [|m], u as [|u];
    cbn [Nat.ltb Nat.leb app]; intros Hs; try (repeat split; reflexivity);
    exfalso; revert Hs.
  all: try (match goal with
            | |- context [trim ?t] =>
                first [ pose proof (trim_head 65%N (tl t) eq_refl) as Hh;
                        change (65%N :: tl t) with t in Hh
                      | pose proof (trim_head 82%N (tl t) eq_refl) as Hh;
                        change (82%N :: tl t) with t in Hh
                      | pose proof (trim_head 77%N (tl t) eq_refl) as Hh;
                        change (77%N :: tl t) with t in Hh ];
                destruct (trim t)
            end; [discriminate Hh | intros Heq; cbv iota in Heq; rewrite Heq in Hh; vm_compute in Hh; discriminate Hh]).
  change (js " unchanged.") with (js " unchanged" ++ [46%N]).
  rewrite !app_assoc.
  match goal with
  | |- context [trim (?l ++ [46%N])] =>
      pose proof (trim_last l 46%N eq_refl) as Hl;
      destruct (trim (l ++ [46%N]))
  end; [discriminate Hl | intros Heq; cbv iota in Heq; rewrite Heq in Hl; vm_compute in Hl; discriminate Hl].
Qed.

Ltac advice_absent :=
  rewrite ?elem_of_cons, ?elem_of_nil;
  intros H;
  repeat match type of H with
         | _ \/ _ => destruct H as [H|H]
         | False => contradiction
         end;
  vm_compute in H; discriminate H.

(** X25: summarizeChanges never recommends both the content-expansion
    and the content-reduction review; it gives at most three
    recommendations; the expansion one is given exactly when added > 2
    * removed, the reduction one exactly when removed > 2 * added, the
    rewording one exactly when modified > added + removed. *)
Theorem recommendations_are_consistent (result : DiffResult) :
  ~ (expansionAdvice ∈ recommendations (summarizeChanges result)
     /\ reductionAdvice ∈ recommendations (summarizeChanges result))
  /\ length (recommendations (summarizeChanges result)) <= 3
  /\ (expansionAdvice ∈ recommendations (summarizeChanges result)
      <-> stat_removed (stats result) * 2 < stat_added (stats result))
  /\ (reductionAdvice ∈ recommendations (summarizeChanges result)
      <-> stat_added (stats result) * 2 < stat_removed (stats result))
  /\ (rewordingAdvice ∈ recommendations (summarizeChanges result)
      <-> stat_added (stats result) + stat_removed (stats result)
          < stat_modified (stats result)).
Proof.
  cbn [summarizeChanges recommendations].
  destruct (stats result) as [a r m u].
  cbn [stat_added stat_removed stat_modified stat_unchanged].
  destruct (r * 2 <? a) eqn:H1, (a * 2 <? r) eqn:H2, (a + r <? m) eqn:H3;
    bool_facts; try lia;
    match goal with |- context [PrimFloat.ltb ?x ?y] => destruct (PrimFloat.ltb x y) end;
    cbn [app length];
    (split; [intros [Ha Hb]; revert Ha Hb; try advice_absent; intros _; advice_absent|]);
    (split; [lia|]);
    repeat split; intros Hx; try lia; try (revert Hx; advice_absent);
    rewrite ?elem_of_cons; auto.
Qed.

(* ====================================================================== *)
(** * Semantic scorer: symmetry                                            *)
(* ====================================================================== *)

(** X28: computeSemanticSimilarity is symmetric: for every two strings
    the score of (a, b) is the very number it gives for (b, a),
    whatever the lower-casing does; both special cases, the sizes of
    the intersection and of the union and the length ratio do not
    depend on the order of the arguments. *)
Theorem similarity_symmetric (toLowerCase : jsstring -> jsstring) (a b : jsstring) :
  computeSemanticSimilarity toLowerCase a b
  = computeSemanticSimilarity toLowerCase b a.
Proof.
  unfold computeSemanticSimilarity.
  rewrite !length_newSet, !list_to_set_filter_has, !list_to_set_app_L,
    !list_to_set_newSet.
  rewrite (andb_comm (size _ =? 0)), (orb_comm (size _ =? 0)).
  rewrite (comm_L (∩) (list_to_set (matchWords (toLowerCase a)))).
  rewrite (comm_L (∪) (list_to_set (matchWords (toLowerCase a)))).
  rewrite (Nat.min_comm (length a)), (Nat.max_comm (length a)).
  reflexivity.
Qed.

(* ====================================================================== *)
(** * Text analysis: key terms                                             *)
(* ====================================================================== *)

Lemma mapGet_mapSet m k v k' :
  mapGet (mapSet m k v) k' = if decide (k = k') then Some v else mapGet m k'.
Proof.
  induction m as [|[k0 v0] m IH]; cbn [mapSet mapGet].
  - reflexivity.
  - destruct (decide (k0 = k)) as [->|Hne]; cbn [mapGet].
    + destruct (decide (k = k')); reflexivity.
    + rewrite IH. destruct (decide (k0 = k')) as [->|]; [|reflexivity].
      destruct (decide (k = k')); [congruence | reflexivity].
Qed.

Lemma mapGet_None m k : mapGet m k = None <-> k ∉ m.*1.
Proof.
  induction m as [|[k0 v0] m IH]; cbn [mapGet fmap list_fmap fst].
  - split; [intros _; apply not_elem_of_nil | reflexivity].
  - rewrite not_elem_of_cons. destruct (decide (k0 = k)) as [->|Hne].
    + split; [discriminate | intros [? _]; congruence].
    + rewrite IH. split; [intros ?; split; congruence | intros [_ ?]; assumption].
Qed.

Lemma mapGet_Some m k v : NoDup (m.*1) -> (mapGet m k = Some v <-> (k, v) ∈ m).
Proof.
  induction m as [|[k0 v0] m IH]; cbn [mapGet fmap list_fmap fst]; intros Hnd.
  - split; [discriminate | intros H; inversion H].
  - apply NoDup_cons in Hnd as [Hk0 Hnd]. rewrite elem_of_cons.
    destruct (decide (k0 = k)) as [->|Hne].
    + split; [intros [= ->]; left; reflexivity|].
      intros [[= ->]|Hin]; [reflexivity|].
      exfalso. apply Hk0. apply list_elem_of_fmap. exists (k, v). auto.
    + rewrite (IH Hnd). split; [auto|]. intros [[= <- _]|?]; [congruence | assumption].
Qed.

Lemma mapSet_keys m k v :
  (mapSet m k v).*1 = if decide (k ∈ m.*1) then m.*1 else m.*1 ++ [k].
Proof.
  induction m as [|[k0 v0] m IH]; cbn [mapSet fmap list_fmap fst app].
  - destruct (decide (k ∈ [])) as [H|_]; [inversion H | reflexivity].
  - destruct (decide (k0 = k)) as [->|Hne]; cbn [fmap list_fmap fst].
    + rewrite decide_True by (left). reflexivity.
    + change (list_fmap _ _ fst ?l) with (l.*1). rewrite IH.
      destruct (decide (k ∈ m.*1)) as [Hin|Hnin].
      * rewrite decide_True by (right; exact Hin). reflexivity.
      * rewrite decide_False; [reflexivity|].
        rewrite elem_of_cons. intros [?|?]; [congruence | contradiction].
Qed.

Lemma mapSet_NoDup m k v : NoDup (m.*1) -> NoDup ((mapSet m k v).*1).
Proof.
  intros Hnd. rewrite mapSet_keys. destruct (decide (k ∈ m.*1)) as [|Hnin];
    [exact Hnd|].
  apply NoDup_app. split; [exact Hnd|]. split; [|apply NoDup_singleton].
  intros x Hx ->%list_elem_of_singleton. contradiction.
Qed.

Lemma termCount_snoc toLowerCase ws w k :
  termCount toLowerCase (ws ++ [w]) k
  = termCount toLowerCase ws k
    + (if isKeyCandidate toLowerCase w && bool_decide (toLowerCase w = k)
       then 1 else 0).
Proof.
  unfold termCount. rewrite List.filter_app, length_app. cbn [List.filter].
  destruct (_ && _); reflexivity.
Qed.

Lemma termCount_pos toLowerCase ws k :
  0 < termCount toLowerCase ws k ->
  exists w, w ∈ ws /\ isKeyCandidate toLowerCase w = true /\ toLowerCase w = k.
Proof.
  unfold termCount. intros H.
  destruct (List.filter _ ws) as [|w l] eqn:E; [cbn in H; lia|].
  assert (Hin : In w (List.filter
                        (fun w => isKeyCandidate toLowerCase w
                                  && bool_decide (toLowerCase w = k)) ws))
    by (rewrite E; left; reflexivity).
  apply filter_In in Hin as [Hin Hp]. apply andb_prop in Hp as [Hc Hk].
  apply bool_decide_eq_true in Hk. exists w.
  split; [apply list_elem_of_In, Hin | auto].
Qed.

Lemma freqStep_inv toLowerCase ws m w :
  freqInv toLowerCase ws m ->
  freqInv toLowerCase (ws ++ [w]) (freqStep toLowerCase m w).
Proof.
  intros [Hnd Hget]. unfold freqStep. cbv zeta.
  change (negb (has commonWords (toLowerCase w)) && (4 <? length w))
    with (isKeyCandidate toLowerCase w).
  destruct (isKeyCandidate toLowerCase w) eqn:Hc.
  - split; [apply mapSet_NoDup, Hnd|].
    intros k. rewrite mapGet_mapSet, termCount_snoc, Hc. cbn [andb].
    destruct (decide (toLowerCase w = k)) as [->|Hne].
    + rewrite bool_decide_eq_true_2 by reflexivity. rewrite Hget.
      destruct (termCount toLowerCase ws k) as [|n] eqn:En; cbn [Nat.eqb default].
      * reflexivity.
      * replace (S n + 1 =? 0) with false by (symmetry; apply Nat.eqb_neq; lia).
        reflexivity.
    + rewrite bool_decide_eq_false_2 by exact Hne. rewrite Nat.add_0_r. apply Hget.
  - split; [exact Hnd|]. intros k. rewrite termCount_snoc, Hc. cbn [andb].
    rewrite Nat.add_0_r. apply Hget.
Qed.

Lemma freqFold_inv toLowerCase ws :
  freqInv toLowerCase ws (foldl (freqStep toLowerCase) [] ws).
Proof.
  induction ws as [|w ws IH] using rev_ind.
  - split; [apply NoDup_nil_2 | reflexivity].
  - rewrite foldl_app. cbn [foldl]. apply freqStep_inv, IH.
Qed.

Lemma insertByCount_perm x l : insertByCount x l ≡ₚ x :: l.
Proof.
  induction l as [|y l IH]; cbn [insertByCount]; [reflexivity|].
  destruct (snd x <? snd y); [|reflexivity].
  rewrite IH. apply Permutation_swap.
Qed.

Lemma sortByCount_perm l : sortByCount l ≡ₚ l.
Proof.
  induction l as [|x l IH]; cbn [sortByCount foldr]; [reflexivity|].
  rewrite insertByCount_perm. fold (sortByCount l). rewrite IH. reflexivity.
Qed.

Lemma insertByCount_sorted x l :
  countsDecrease l -> countsDecrease (insertByCount x l).
Proof.
  unfold countsDecrease. induction l as [|y l IH]; cbn [insertByCount]; intros Hs.
  - repeat constructor.
  - apply StronglySorted_inv in Hs as [Hl Hy].
    destruct (snd x <? snd y) eqn:E.
    + apply Nat.ltb_lt in E. constructor; [apply IH, Hl|].
      apply Forall_forall. intros z Hz.
      rewrite insertByCount_perm in Hz.
      apply elem_of_cons in Hz as [->|Hz]; [lia|].
      rewrite Forall_forall in Hy. apply Hy, Hz.
    + apply Nat.ltb_ge in E. constructor; [constructor; assumption|].
      constructor; [exact E|].
      eapply Forall_impl; [exact Hy|]. cbn. intros z Hz. lia.
Qed.

Lemma sortByCount_sorted l : countsDecrease (sortByCount l).
Proof.
  induction l as [|x l IH]; cbn [sortByCount foldr]; [constructor|].
  apply insertByCount_sorted, IH.
Qed.

Lemma countsDecrease_lookup l i j x y :
  countsDecrease l -> i < j -> l !! i = Some x -> l !! j = Some y ->
  snd y <= snd x.
Proof.
  unfold countsDecrease. intros Hs. revert i j.
  induction Hs as [|a l Hs IH Ha]; intros i j Hij Hi Hj; [discriminate|].
  destruct j as [|j]; [lia|]. cbn in Hj. destruct i as [|i].
  - cbn in Hi. injection Hi as <-. rewrite Forall_forall in Ha.
    apply Ha. eapply list_elem_of_lookup_2, Hj.
  - cbn in Hi. apply (IH i j); [lia | assumption | assumption].
Qed.

Section KeyTerms.
Variable toLowerCase : jsstring -> jsstring.
Variable text : jsstring.

(** The sorted entries behind [keyTerms]. *)
Lemma keyTerms_sorted_entries :
  exists sorted,
    keyTerms (analyzeText toLowerCase text) = fst <$> take 10 sorted
    /\ NoDup (sorted.*1)
    /\ countsDecrease sorted
    /\ (forall k v, (k, v) ∈ sorted
          <-> v = termFrequency toLowerCase text k /\ 0 < v).
Proof.
  exists (sortByCount (foldl (freqStep toLowerCase) [] (matchWords text))).
  destruct (freqFold_inv toLowerCase (matchWords text)) as [Hnd Hget].
  split; [reflexivity|]. split; [|split].
  - rewrite sortByCount_perm. exact Hnd.
  - apply sortByCount_sorted.
  - intros k v. rewrite sortByCount_perm, <- (mapGet_Some _ _ _ Hnd), Hget.
    unfold termFrequency.
    destruct (termCount toLowerCase (matchWords text) k) as [|n];
      cbn [Nat.eqb].
    + split; [discriminate | lia].
    + split; [intros [= <-]; split; [reflexivity | lia] | intros [-> _]; reflexivity].
Qed.
End KeyTerms.

(** X29: keyTerms of analyzeText holds at most ten terms, no term
    twice; each is the lower-cased form of a word of the text (a
    maximal run of word characters) that has more than four code
    units, and is not one of the common words. *)
Theorem keyTerms_are_candidates (toLowerCase : jsstring -> jsstring)
    (text : jsstring) :
  NoDup (keyTerms (analyzeText toLowerCase text))
  /\ length (keyTerms (analyzeText toLowerCase text)) <= 10
  /\ Forall (fun t => exists w, w ∈ matchWords text /\ t = toLowerCase w
                                /\ 4 < length w /\ t ∉ commonWords)
            (keyTerms (analyzeText toLowerCase text)).
Proof.
  destruct (keyTerms_sorted_entries toLowerCase text)
    as (sorted & -> & Hnd & _ & Hin).
  rewrite fmap_take. split; [|split].
  - eapply sublist_NoDup; [exact Hnd | apply sublist_take].
  - rewrite length_take. lia.
  - apply Forall_forall. intros t Ht.
    apply elem_of_take in Ht as (i & Hi & _).
    apply list_lookup_fmap_Some in Hi as ([k v] & -> & Hkv). cbn [fst].
    apply list_elem_of_lookup_2 in Hkv. apply Hin in Hkv as [-> Hpos].
    apply termCount_pos in Hpos as (w & Hw & Hc & <-).
    exists w. unfold isKeyCandidate in Hc. apply andb_prop in Hc as [Hc1 Hc2].
    apply Nat.ltb_lt in Hc2. apply negb_true_iff in Hc1. unfold has in Hc1.
    apply bool_decide_eq_false in Hc1. auto.
Qed.

(** X30: keyTerms of analyzeText lists the terms by decreasing
    frequency (the number of qualifying words of the text whose lower-
    cased form is the term), and they are the most frequent ones: a
    term that occurs and is left out is left out only when ten terms
    are listed, each at least as frequent. *)
Theorem keyTerms_most_frequent (toLowerCase : jsstring -> jsstring)
    (text : jsstring) :
  (forall i j s t, i < j ->
     keyTerms (analyzeText toLowerCase text) !! i = Some s ->
     keyTerms (analyzeText toLowerCase text) !! j = Some t ->
     termFrequency toLowerCase text t <= termFrequency toLowerCase text s)
  /\ (forall t, 0 < termFrequency toLowerCase text t ->
        t ∉ keyTerms (analyzeText toLowerCase text) ->
        length (keyTerms (analyzeText toLowerCase text)) = 10
        /\ Forall (fun s => termFrequency toLowerCase text t
                            <= termFrequency toLowerCase text s)
                  (keyTerms (analyzeText toLowerCase text))).
Proof.
  destruct (keyTerms_sorted_entries toLowerCase text)
    as (sorted & -> & Hnd & Hs & Hin).
  assert (Hentry : forall i s, (fst <$> take 10 sorted) !! i = Some s ->
            i < 10 /\ sorted !! i = Some (s, termFrequency toLowerCase text s)).
  { intros i s Hi. apply list_lookup_fmap_Some in Hi as ([k v] & -> & Hkv).
    cbn [fst]. apply lookup_take_Some in Hkv as [Hkv Hlt].
    split; [exact Hlt|]. rewrite Hkv. f_equal. f_equal.
    apply list_elem_of_lookup_2, Hin in Hkv. tauto. }
  split.
  - intros i j s t Hij Hi Hj.
    apply Hentry in Hi as [_ Hi]. apply Hentry in Hj as [_ Hj].
    apply (countsDecrease_lookup sorted i j _ _ Hs Hij Hi Hj).
  - intros t Hpos Hnot.
    assert (Ht : (t, termFrequency toLowerCase text t) ∈ sorted)
      by (apply Hin; auto).
    apply list_elem_of_lookup_1 in Ht as [p Hp].
    assert (Hp10 : 10 <= p).
    { destruct (decide (p < 10)) as [Hlt|]; [|lia]. exfalso. apply Hnot.
      apply list_elem_of_lookup_2 with p. rewrite list_lookup_fmap.
      rewrite lookup_take_lt by exact Hlt. rewrite Hp. reflexivity. }
    apply lookup_lt_Some in Hp as Hlen.
    split.
    + rewrite length_fmap, length_take. lia.
    + apply Forall_forall. intros s Hs'.
      apply list_elem_of_lookup_1 in Hs' as [i Hi].
      apply Hentry in Hi as [Hi10 Hi].
      apply (countsDecrease_lookup sorted i p _ _ Hs ltac:(lia) Hi Hp).
Qed.
